(** * Session lifecycle orchestration (src/util/manageSession.ts)

    A shallow embedding of the four operations of the module,
    [backupSessions], [restoreSessions], [closeAllSessions] and
    [deleteAllSessions], over an explicit world: the client registry
    [clientsArray], the directories the module touches, the event-loop queue
    of callbacks that were registered but have not run yet, and a trace of
    the observable calls.  Node's [fs], [archiver] and [unzipper] are
    modelled at the level of their documented behaviour on directory
    trees. *)

From stdpp Require Import base strings list gmap.
From Stdlib Require Import Init.Byte Strings.Ascii.


#[local] Set Warnings "-register-all".

(** ** Directory trees *)

Module Fs.

(** A directory entry is a regular file with its bytes or a directory with
    its children in [readdir] order. *)
#[local] Unset Elimination Schemes.
Inductive node :=
| File (data : list byte)
| Dir (entries : list (string * node)).

#[local] Set Elimination Schemes.

Definition isDirectory (n : node) : bool :=
  match n with Dir _ => true | File _ => false end.

(** Child of a listing by name. *)
Fixpoint child (name : string) (es : list (string * node)) : option node :=
  match es with
  | [] => None
  | (k, v) :: es' => if decide (k = name) then Some v else child name es'
  end.

(** Writes a child: replaced in place when the name exists, appended
    otherwise. *)
Fixpoint put (name : string) (v : node) (es : list (string * node))
  : list (string * node) :=
  match es with
  | [] => [(name, v)]
  | (k, x) :: es' =>
      if decide (k = name) then (k, v) :: es' else (k, x) :: put name v es'
  end.

(** Removes a child by name. *)
Fixpoint remove (name : string) (es : list (string * node))
  : list (string * node) :=
  match es with
  | [] => []
  | (k, x) :: es' =>
      if decide (k = name) then remove name es' else (k, x) :: remove name es'
  end.

Definition names (es : list (string * node)) : list string := es.*1.

(** Node at a relative path. *)
Fixpoint get (p : list string) (n : node) : option node :=
  match p with
  | [] => Some n
  | x :: p' =>
      match n with
      | File _ => None
      | Dir es => match child x es with
                  | Some c => get p' c
                  | None => None
                  end
      end
  end.

(** Bytes of the regular file at a relative path, if there is one. *)
Definition file_at (n : node) (p : list string) : option (list byte) :=
  match get p n with
  | Some (File d) => Some d
  | _ => None
  end.

Definition file_in (o : option node) (p : list string) : option (list byte) :=
  match o with
  | Some n => file_at n p
  | None => None
  end.

(** [fs.cpSync(src, dest, {force, recursive: true})] on trees.  The source
    is walked in [readdir] order.  A file is copied when the destination
    does not exist; over an existing file it replaces it when [force] is
    set and is skipped otherwise ([errorOnExist] is not set).  A directory
    over a file, or a file over a directory, throws
    (ERR_FS_CP_DIR_TO_NON_DIR, ERR_FS_CP_NON_DIR_TO_DIR): the walk stops
    there and what was copied before stays.  The result is the destination
    afterwards and whether the call returned normally. *)
Fixpoint cp (force : bool) (src : node) (dst : option node) {struct src}
  : node * bool :=
  match src with
  | File d =>
      match dst with
      | None => (File d, true)
      | Some (File d') => (if force then File d else File d', true)
      | Some (Dir ds) => (Dir ds, false)
      end
  | Dir es =>
      let walk :=
        fix walk (es ds : list (string * node)) {struct es}
          : list (string * node) * bool :=
          match es with
          | [] => (ds, true)
          | (name, s) :: es' =>
              let '(r, ok) := cp force s (child name ds) in
              if ok then walk es' (put name r ds) else (put name r ds, false)
          end in
      match dst with
      | None => let '(ds', ok) := walk es [] in (Dir ds', ok)
      | Some (Dir ds) => let '(ds', ok) := walk es ds in (Dir ds', ok)
      | Some (File d') => (File d', false)
      end
  end.

(** The directory walk of [cp], as a function of its own. *)
Fixpoint cp_entries (force : bool) (es ds : list (string * node))
  : list (string * node) * bool :=
  match es with
  | [] => (ds, true)
  | (name, s) :: es' =>
      let '(r, ok) := cp force s (child name ds) in
      if ok then cp_entries force es' (put name r ds)
      else (put name r ds, false)
  end.

(** What a recursive removal that fails midway leaves of a tree: the
    entries it has [spared], with what it has left below them. *)
Fixpoint prune (spared : list string -> bool) (path : list string)
    (n : node) : node :=
  match n with
  | File d => File d
  | Dir es =>
      Dir ((fix walk (es : list (string * node)) : list (string * node) :=
              match es with
              | [] => []
              | (name, c) :: es' =>
                  if spared (path ++ [name])
                  then (name, prune spared (path ++ [name]) c) :: walk es'
                  else walk es'
              end) es)
  end.

(** The directory walk of [prune], as a function of its own. *)
Fixpoint prune_entries (spared : list string -> bool) (path : list string)
    (es : list (string * node)) : list (string * node) :=
  match es with
  | [] => []
  | (name, c) :: es' =>
      if spared (path ++ [name])
      then (name, prune spared (path ++ [name]) c)
           :: prune_entries spared path es'
      else prune_entries spared path es'
  end.

(** No two children of a directory share a name, at every depth. *)
Inductive wf : node -> Prop :=
| wf_File d : wf (File d)
| wf_Dir es : NoDup es.*1 -> Forall (fun e => wf e.2) es -> wf (Dir es).

Definition wf_opt (o : option node) : Prop :=
  match o with Some n => wf n | None => True end.


(** Induction on trees, with the hypothesis for every child. *)
Fixpoint node_ind (P : node -> Prop)
    (HF : forall d, P (File d))
    (HD : forall es, Forall (fun e => P e.2) es -> P (Dir es))
    (n : node) : P n :=
  match n with
  | File d => HF d
  | Dir es =>
      HD es ((fix all (es : list (string * node))
                : Forall (fun e => P e.2) es :=
                match es with
                | [] => @List.Forall_nil _ _
                | (k, c) :: es' =>
                    @List.Forall_cons _ (fun e => P e.2) (k, c) es'
                      (node_ind P HF HD c) (all es')
                end) es)
  end.

End Fs.

Import Fs.

(** ** Paths

    The module names its directories in two ways: relative to the project
    root, [__dirname + '/../../' + name], and relative to the working
    directory of the process, ['tokens'], ['./restore'] and
    [config.customUserDataDir].  The two coincide when the server is
    started from the project root.  A directory is known by where its
    path starts and by the segments of the normalized path from there, so
    that ['./tokens/'] and ['tokens'] are one directory. *)

(** Where a path starts: at the project root; at the working directory of
    a server that was started elsewhere, which is taken to lie outside the
    project root; or at the root of the file system. *)
Inductive base := ProjectRoot | WorkingDir | Absolute.

Definition place : Type := base * list string.

#[global] Instance base_eq_dec : EqDecision base.
Proof. solve_decision. Defined.

#[global] Instance base_countable : Countable base :=
  inj_countable'
    (fun b => match b with
              | ProjectRoot => 0 | WorkingDir => 1 | Absolute => 2
              end)
    (fun n : nat => match n with
                    | 0 => ProjectRoot | 1 => WorkingDir | _ => Absolute
                    end)
    (fun b => match b with
              | ProjectRoot => eq_refl | WorkingDir => eq_refl
              | Absolute => eq_refl
              end).

(** The parts of a path between its separators. *)
Fixpoint split_path (part : string) (path : string) : list string :=
  match path with
  | EmptyString => [part]
  | String c rest =>
      if Ascii.eqb c "/"%char then part :: split_path "" rest
      else split_path (part +:+ String c "") rest
  end.

(** One part added to the segments read so far, the last one first: an
    empty part and ["."] add nothing, and [".."] takes the last segment
    back when there is one to take. *)
Definition add_segment (segs : list string) (part : string) : list string :=
  if decide (part = "") then segs
  else if decide (part = ".") then segs
  else if decide (part = "..") then
    match segs with
    | s :: segs' => if decide (s = "..") then part :: segs else segs'
    | [] => [part]
    end
  else part :: segs.

(** The segments of a path as [path.resolve] and the calls of [fs]
    normalize it. *)
Definition segments (path : string) : list string :=
  reverse (foldl add_segment [] (split_path "" path)).

Definition is_absolute (path : string) : bool := String.prefix "/" path.

(** Rendering of a path in a log line; the absolute prefix is symbolic. *)
Definition show (p : place) : string :=
  match p.1 with
  | ProjectRoot => "<root>"
  | WorkingDir => "<cwd>"
  | Absolute => ""
  end +:+ foldr (fun seg rest => "/" +:+ seg +:+ rest) "" p.2.

(** [path.join(dir, item)] *)
Definition join (dir : string) (item : string) : string :=
  dir +:+ "/" +:+ item.

(** ** Environment *)

(** [import config from '../config']: the one option the module reads, the
    path of a directory, relative to the working directory unless it is
    absolute. *)
Record config_t := { customUserDataDir : string }.

(** Points at which the outside world can make a call fail although the
    tree allows it (EACCES, EBUSY, EIO, a broken pipe).  A recursive
    removal that fails has removed some entries of the subtree and not
    others: [IoRmEntry dir path] tells that the entry at [path] below
    [dir] is one it could not remove. *)
Inductive io :=
| IoReaddir (dir : place)
| IoLstat (dir : place) (item : string)
| IoUnlink (dir : place) (item : string)
| IoRm (dir : place) (item : string)
| IoRmEntry (dir : place) (path : list string)
| IoArchive
| IoStream.

(** An archive: its top-level entries, each with the tree below it. *)
Definition archive : Type := list (string * node).

Record env := {
  config : config_t;
  (** [process.cwd()] is the project root; when it is not, it is a
      directory outside the project root *)
  cwd_is_root : bool;
  (** Modelled from the spec: [getAllTokens(req)] of ./getAllTokens, "the
      authoritative list of known session identifiers, derived from
      persisted state, not live registry state". *)
  getAllTokens : gmap place node -> list string;
  fails : io -> bool;
}.

(** [__dirname + '/../../' + name] *)
Definition at_root (name : string) : place := (ProjectRoot, [name]).

(** The directory that a path handed to [fs] or to [path.resolve] names:
    it is resolved against [process.cwd()] unless it is absolute. *)
Definition at_cwd (e : env) (path : string) : place :=
  (if is_absolute path then Absolute
   else if cwd_is_root e then ProjectRoot else WorkingDir,
   segments path).

(** [path.resolve(__dirname, '../../tokens')], the Token Store *)
Definition tokensDir : place := at_root "tokens".

(** [config.customUserDataDir], the User Data Tree, as [fs.cpSync] and
    [path.resolve(config.customUserDataDir)] resolve it *)
Definition userDataDir (e : env) : place :=
  at_cwd e (customUserDataDir (config e)).

(** [__dirname + '/../../backupFolder'], the staging directory of a backup *)
Definition backupFolder : place := at_root "backupFolder".

(** ** Clients *)

(** When the promise of a close request settles: within the grace period of
    [closeAllSessions], after it, or never. *)
Inductive timing := InGrace | Late | Never.

(** What [client.page.browser().close()] does: [client.page.browser()]
    throws, there being no page or no browser, and no close request is
    made; the call of [close()] throws at once; or it returns a promise
    that resolves ([ok]) or rejects. *)
Inductive close_behaviour :=
| NoBrowser
| CloseThrows
| CloseSettles (ok : bool) (t : timing).

Record client := {
  status : option string;
  close : close_behaviour;
}.

(** Truthiness of [client?.status] *)
Definition truthy (c : option client) : bool :=
  match c with
  | Some {| status := Some s |} => negb (String.eqb s "")
  | _ => false
  end.

(** ** World *)

Inductive level := Info | Warn | Error.

Inductive event :=
| EvLog (l : level) (msg : string)
| EvDelete (session : string)
| EvClose (session : string)
| EvGrace
| EvCpSync (src : place * list string) (dst : place) (force : bool)
| EvRmSync (dir : place)
| EvFinalize
| EvOutputClose
| EvPipe
| EvStreamEnd
| EvStreamError
| EvResEnd
| EvExtract
| EvExtractClose
| EvExtractError
| EvStartAllSessions
| EvUncaught (err : string).

(** Callbacks that are registered and wait for their event. *)
Inductive task :=
| CloseSettled (session : string) (ok : bool) (t : timing)
| ArchiveJob (sources : list (place * string)) (finalized : bool)
| StreamJob
| ExtractJob (upload : option archive).

(** [new Promise(...)] of [backupSessions] *)
Inductive promise_state := Pending | Fulfilled | Rejected (err : string).

Record world := {
  clientsArray : gmap string client;
  disk : gmap place node;
  (** [__dirname + '/../backupSessions.zip'] *)
  zipFile : option archive;
  (** what has been piped into [req.res] *)
  response : option archive;
  promise : promise_state;
  pending : list task;
  trace : list event;
}.

Definition set_clients (f : gmap string client -> gmap string client)
    (w : world) : world :=
  {| clientsArray := f (clientsArray w); disk := disk w;
     zipFile := zipFile w; response := response w; promise := promise w;
     pending := pending w; trace := trace w |}.

Definition set_disk (f : gmap place node -> gmap place node)
    (w : world) : world :=
  {| clientsArray := clientsArray w; disk := f (disk w);
     zipFile := zipFile w; response := response w; promise := promise w;
     pending := pending w; trace := trace w |}.

Definition set_zipFile (z : option archive) (w : world) : world :=
  {| clientsArray := clientsArray w; disk := disk w;
     zipFile := z; response := response w; promise := promise w;
     pending := pending w; trace := trace w |}.

Definition set_response (r : option archive) (w : world) : world :=
  {| clientsArray := clientsArray w; disk := disk w;
     zipFile := zipFile w; response := r; promise := promise w;
     pending := pending w; trace := trace w |}.

Definition set_promise (p : promise_state) (w : world) : world :=
  {| clientsArray := clientsArray w; disk := disk w;
     zipFile := zipFile w; response := response w; promise := p;
     pending := pending w; trace := trace w |}.

Definition set_pending (f : list task -> list task) (w : world) : world :=
  {| clientsArray := clientsArray w; disk := disk w;
     zipFile := zipFile w; response := response w; promise := promise w;
     pending := f (pending w); trace := trace w |}.

Definition set_trace (f : list event -> list event) (w : world) : world :=
  {| clientsArray := clientsArray w; disk := disk w;
     zipFile := zipFile w; response := response w; promise := promise w;
     pending := pending w; trace := f (trace w) |}.

(** ** Computations that read and change the world and may throw *)

Inductive result (A : Type) :=
| Ok (a : A)
| Throw (err : string).
Arguments Ok {A} a.
Arguments Throw {A} err.

Definition M (A : Type) : Type := world -> result A * world.

#[global] Instance M_ret : MRet M := fun A a w => (Ok a, w).

#[global] Instance M_bind : MBind M := fun A B f m w =>
  match m w with
  | (Ok a, w') => f a w'
  | (Throw err, w') => (Throw err, w')
  end.

Definition throw {A} (err : string) : M A := fun w => (Throw err, w).

(** [try { body } catch (err) { handler }] *)
Definition try_catch {A} (body : M A) (handler : string -> M A) : M A :=
  fun w =>
    match body w with
    | (Ok a, w') => (Ok a, w')
    | (Throw err, w') => handler err w'
    end.

Definition get_world : M world := fun w => (Ok w, w).

Definition modify (f : world -> world) : M unit := fun w => (Ok tt, f w).

Definition emit (ev : event) : M unit :=
  modify (set_trace (fun t => t ++ [ev])).

Definition log (l : level) (msg : string) : M unit := emit (EvLog l msg).

Definition schedule (t : task) : M unit :=
  modify (set_pending (fun q => q ++ [t])).

(** [for (const x of xs) body(x)] *)
Fixpoint for_of {A} (xs : list A) (body : A -> M unit) : M unit :=
  match xs with
  | [] => mret tt
  | x :: xs' => body x ;; for_of xs' body
  end.

Definition exec {A} (m : M A) (w : world) : world := (m w).2.

(** ** File-system calls *)

Definition lookup_path (d : gmap place node) (l : place * list string)
  : option node :=
  d !! l.1 ≫= get l.2.

(** [fs.cpSync(src, dst, {force, recursive: true})].  A missing source
    throws, and so does a source that is the destination itself. *)
Definition cpSync (src : place * list string) (dst : place) (force : bool)
  : M unit :=
  emit (EvCpSync src dst force);;
  w ← get_world;
  match lookup_path (disk w) src with
  | None => throw "ENOENT"
  | Some s =>
      if decide (src = (dst, [])) then throw "ERR_FS_CP_EINVAL"
      else
        let '(r, ok) := cp force s (disk w !! dst) in
        modify (set_disk (insert dst r));;
        if ok then mret tt else throw "ERR_FS_CP_DIR_TO_NON_DIR"
  end.

(** [fs.rmSync(dir, {recursive: true})]: without [force] a missing path
    throws. *)
Definition rmSync (dir : place) : M unit :=
  emit (EvRmSync dir);;
  w ← get_world;
  match disk w !! dir with
  | None => throw "ENOENT"
  | Some _ => modify (set_disk (delete dir))
  end.

(** [fs.existsSync(dir)] *)
Definition existsSync (dir : place) : M bool :=
  w ← get_world; mret (bool_decide (is_Some (disk w !! dir))).

(** [fs.readdirSync(dir)] *)
Definition readdirSync (e : env) (dir : place) : M (list string) :=
  w ← get_world;
  if fails e (IoReaddir dir) then throw "EACCES"
  else match disk w !! dir with
       | Some (Dir es) => mret (names es)
       | Some (File _) => throw "ENOTDIR"
       | None => throw "ENOENT"
       end.

(** [fs.lstatSync(path.join(dir, item)).isDirectory()] *)
Definition lstatSync_isDirectory (e : env) (dir : place) (item : string)
  : M bool :=
  w ← get_world;
  if fails e (IoLstat dir item) then throw "EACCES"
  else match lookup_path (disk w) (dir, [item]) with
       | Some n => mret (isDirectory n)
       | None => throw "ENOENT"
       end.

Definition remove_child (item : string) (n : node) : node :=
  match n with
  | Dir es => Dir (remove item es)
  | File d => File d
  end.

(** [fs.unlinkSync(path.join(dir, item))] *)
Definition unlinkSync (e : env) (dir : place) (item : string) : M unit :=
  w ← get_world;
  if fails e (IoUnlink dir item) then throw "EPERM"
  else match lookup_path (disk w) (dir, [item]) with
       | Some (File _) => modify (set_disk (alter (remove_child item) dir))
       | Some (Dir _) => throw "EISDIR"
       | None => throw "ENOENT"
       end.

(** The child [item] cut down to what a failing removal has spared. *)
Definition prune_child (spared : list string -> bool) (item : string)
    (n : node) : node :=
  match n with
  | Dir es =>
      match child item es with
      | Some c => Dir (put item (prune spared [item] c) es)
      | None => Dir es
      end
  | File d => File d
  end.

(** [fs.rmSync(path.join(dir, item), {recursive: true, force: true})]: the
    subtree is removed, or the call throws when it has removed a part of
    it. *)
Definition rmSync_item (e : env) (dir : place) (item : string) : M unit :=
  if fails e (IoRm dir item) then
    modify (set_disk
      (alter (prune_child (fun path => fails e (IoRmEntry dir path)) item)
             dir));;
    throw "EBUSY"
  else modify (set_disk (alter (remove_child item) dir)).

(** ** Archives *)

(** [archive.directory(dir, name)] appends what the glob below [dir]
    matches, under the prefix [name]: nothing when [dir] is missing, is not
    a directory, or is empty. *)
Definition directory (d : gmap place node) (src : place * string)
  : archive :=
  match d !! src.1 with
  | Some (Dir (c :: cs)) => [(src.2, Dir (c :: cs))]
  | _ => []
  end.

Definition build_archive (d : gmap place node)
    (sources : list (place * string)) : archive :=
  concat (directory d <$> sources).

(** [unzipper.Extract({path})]: every entry of the archive is written below
    the directory, over what is there; the directory is created with the
    first entry.  An entry that cannot be written fails the stream. *)
Definition extract_into (a : archive) (dst : option node)
  : option node * bool :=
  match a with
  | [] => (dst, true)
  | _ :: _ => let '(r, ok) := cp true (Dir a) dst in (Some r, ok)
  end.

(** ** closeAllSessions *)

(** [delete clientsArray[session]] *)
Definition delete_client (session : string) : M unit :=
  modify (set_clients (delete session));;
  emit (EvDelete session).

(** What follows [await client.page.browser().close()] once the promise
    has settled: the second [delete], or the [catch]. *)
Definition after_close (session : string) (ok : bool) : M unit :=
  if ok then delete_client session
  else log Error ("Error stopping session: " +:+ session).

(** The body of the [forEach] callback up to its first suspension. *)
Definition stop_session (session : string) : M unit :=
  w ← get_world;
  let client := clientsArray w !! session in
  try_catch
    (delete_client session;;
     if truthy client then
       log Info ("Stopping session: " +:+ session);;
       match close <$> client with
       | Some (CloseSettles ok Never) => emit (EvClose session)
       | Some (CloseSettles ok t) =>
           emit (EvClose session);;
           schedule (CloseSettled session ok t)
       | Some CloseThrows => emit (EvClose session);; throw "Error"
       | _ => throw "TypeError"
       end
     else delete_client session)
    (fun _ => log Error ("Error stopping session: " +:+ session)).

Definition in_grace (t : task) : bool :=
  match t with
  | CloseSettled _ _ InGrace => true
  | _ => false
  end.

Definition after_settled (t : task) : M unit :=
  match t with
  | CloseSettled session ok _ => after_close session ok
  | _ => mret tt
  end.

(** [await new Promise((resolve) => setTimeout(resolve, 500))]: the close
    requests that settle within the 500 ms continue, the others stay
    pending. *)
Definition grace_period : M unit :=
  w ← get_world;
  modify (set_pending (List.filter (fun t => negb (in_grace t))));;
  for_of (List.filter in_grace (pending w)) after_settled;;
  emit EvGrace.

Definition closeAllSessions (e : env) : M unit :=
  w ← get_world;
  let names := getAllTokens e (disk w) in
  for_of names stop_session;;
  grace_period.

(** ** backupSessions *)

(** Settling the promise: only the first call counts. *)
Definition settle (s : promise_state) : M unit :=
  modify (fun w =>
    match promise w with
    | Pending => set_promise s w
    | _ => w
    end).

Definition resolve : M unit := settle Fulfilled.

Definition reject (err : string) : M unit := settle (Rejected err).

(** Modelled from the spec: [startAllSessions(config, logger)] of
    ./functions, the external bootstrap routine "invoked after Export and
    Import to repopulate the Session Registry"; the call is recorded. *)
Definition startAllSessions : M unit := emit EvStartAllSessions.

(** [myStream.on('end', ...)] *)
Definition on_stream_end : M unit :=
  log Info "Sessions successfully backuped. Restarting sessions...";;
  startAllSessions;;
  emit EvResEnd.

(** [myStream.on('error', ...)] *)
Definition on_stream_error (err : string) : M unit :=
  log Info err;;
  reject err.

(** The read stream of the zip file piped into the response: it ends or it
    fails. *)
Definition stream_job (e : env) : M unit :=
  w ← get_world;
  match zipFile w with
  | None => emit EvStreamError;; on_stream_error "ENOENT"
  | Some a =>
      if fails e IoStream then emit EvStreamError;; on_stream_error "EIO"
      else
        modify (set_response (Some a));;
        emit EvStreamEnd;;
        on_stream_end
  end.

(** [output.on('close', ...)]: the staging directory is removed, the zip
    file is opened for reading and piped into the response, and the two
    handlers of the read stream are registered. *)
Definition on_output_close : M unit :=
  rmSync backupFolder;;
  emit EvPipe;;
  schedule StreamJob.

(** [archive.on('error', ...)] *)
Definition on_archive_error (err : string) : M unit :=
  reject err;;
  log Error err.

(** The archiver piped into the write stream of the zip file: it reads the
    sources queued for it and writes their entries, or it fails; when it
    was finalized, the write stream closes after the last entry.  An
    archiver that fails is taken to stop there, with its write stream left
    open. *)
Definition archive_job (e : env) (sources : list (place * string))
    (finalized : bool) : M unit :=
  if fails e IoArchive then on_archive_error "archiver"
  else
    w ← get_world;
    modify (set_zipFile (Some (build_archive (disk w) sources)));;
    if finalized then
      emit EvOutputClose;;
      on_output_close
    else mret tt.

(** The archiver is the callback that was registered last. *)
Fixpoint on_last (f : task -> task) (q : list task) : list task :=
  match q with
  | [] => []
  | [t] => [f t]
  | t :: q' => t :: on_last f q'
  end.

(** [archive.directory(dir, name)] *)
Definition add_source (src : place * string) (t : task) : task :=
  match t with
  | ArchiveJob sources finalized => ArchiveJob (sources ++ [src]) finalized
  | _ => t
  end.

(** [archive.finalize()] *)
Definition finalize (t : task) : task :=
  match t with
  | ArchiveJob sources _ => ArchiveJob sources true
  | _ => t
  end.

(** The two [archive.directory(dir, name)] calls of a backup. *)
Definition backup_sources : list (place * string) :=
  [(tokensDir, "tokens"); (backupFolder, "userDataDir")].

(** The executor of the promise: the teardown; the write stream, which
    creates the zip file or empties it; the archiver with its error
    handler, piped into the write stream, and the Token Store queued for
    it; the copy of the User Data Tree into the staging directory, queued
    next; [archive.finalize()] and [output.on('close', ...)]. *)
Definition backup_executor (e : env) : M unit :=
  closeAllSessions e;;
  modify (set_zipFile (Some []));;
  schedule (ArchiveJob [] false);;
  modify (set_pending (on_last (add_source (tokensDir, "tokens"))));;
  cpSync (userDataDir e, []) backupFolder true;;
  modify (set_pending (on_last (add_source (backupFolder, "userDataDir"))));;
  emit EvFinalize;;
  modify (set_pending (on_last finalize)).

(** [new Promise(async (resolve, reject) => ...)]: an exception of the
    executor rejects the promise of the [async] function, which nobody
    holds, and leaves the returned one as it is. *)
Definition backupSessions (e : env) : M unit :=
  modify (set_promise Pending);;
  try_catch (backup_executor e) (fun err => emit (EvUncaught err)).

(** ** restoreSessions *)

(** [Express.Multer.File]: the declared content type and the uploaded
    bytes, as the archive they decode to when they are a zip file. *)
Record multer_file := {
  mimetype : option string;
  upload : option archive;
}.

(** [haystack.includes(needle)] *)
Fixpoint includes (needle haystack : string) : bool :=
  String.prefix needle haystack ||
  match haystack with
  | EmptyString => false
  | String _ rest => includes needle rest
  end.

(** [file?.mimetype?.includes('zip')], with [undefined] read as false *)
Definition is_zip (file : option multer_file) : bool :=
  match file with
  | Some {| mimetype := Some m |} => includes "zip" m
  | _ => false
  end.

Record ack := {
  success : bool;
  message : option string;
}.

(** [extract.on('close', ...)] *)
Definition on_extract_close (e : env) : M unit :=
  try_catch
    (cpSync (at_root "restore", ["tokens"]) (at_cwd e "tokens") true)
    (fun _ => log Info "Folder 'tokens' not found.");;
  try_catch
    (cpSync (at_root "restore", ["userDataDir"]) (userDataDir e) false)
    (fun _ => log Info "Folder 'userDataDir' not found.");;
  log Info "Sessions successfully restored. Starting...";;
  startAllSessions.

(** The upload piped into [unzipper.Extract({ path: './restore' })], the
    directory [restore] below the working directory. *)
Definition extract_job (e : env) (up : option archive) : M unit :=
  emit EvExtract;;
  match up with
  | None => emit EvExtractError
  | Some a =>
      w ← get_world;
      let '(r, ok) := extract_into a (disk w !! at_cwd e "restore") in
      modify (set_disk (fun d =>
        match r with
        | Some n => <[at_cwd e "restore" := n]> d
        | None => d
        end));;
      if ok then emit EvExtractClose;; on_extract_close e
      else emit EvExtractError
  end.

Definition restoreSessions (e : env) (file : option multer_file) : M ack :=
  if negb (is_zip file) then throw "Please, send zipped file"
  else
    log Info "Starting restore sessions...";;
    closeAllSessions e;;
    schedule (ExtractJob (file ≫= upload));;
    mret {| success := true; message := None |}.

(** ** deleteAllSessions *)

(** One turn of the loop over the User Data Tree. *)
Definition clear_userData_item (e : env) (dir : place) (item : string)
  : M unit :=
  let itemPath := join (show dir) item in
  try_catch
    (isDir ← lstatSync_isDirectory e dir item;
     if isDir : bool then
       rmSync_item e dir item;;
       log Info ("Deleted directory: " +:+ itemPath)
     else
       unlinkSync e dir item;;
       log Info ("Deleted file: " +:+ itemPath))
    (fun itemErr =>
       log Error ("Error deleting item " +:+ itemPath +:+ ": " +:+ itemErr)).

(** [// --- Clear UserDataDir ---] *)
Definition clear_userData (e : env) : M unit :=
  let sessionDirPath := userDataDir e in
  log Info ("Attempting to clear session directory: "
            +:+ show sessionDirPath);;
  try_catch
    (found ← existsSync sessionDirPath;
     if found : bool then
       items ← readdirSync e sessionDirPath;
       for_of items (clear_userData_item e sessionDirPath);;
       log Info ("Successfully cleared session directory: "
                 +:+ show sessionDirPath)
     else
       log Warn ("Session directory does not exist, nothing to clear: "
                 +:+ show sessionDirPath))
    (fun err =>
       log Error ("Error clearing session directory "
                  +:+ show sessionDirPath +:+ ": " +:+ err)).

(** One turn of the loop over the Token Store. *)
Definition clear_tokens_item (e : env) (dir : place) (item : string)
  : M unit :=
  let itemPath := join (show dir) item in
  isDir ← lstatSync_isDirectory e dir item;
  if negb isDir then
    try_catch
      (unlinkSync e dir item;;
       log Info ("Deleted token file: " +:+ itemPath))
      (fun itemErr =>
         log Error ("Error deleting token file " +:+ itemPath
                    +:+ ": " +:+ itemErr))
  else
    log Warn ("Skipping unexpected directory in tokens folder: "
              +:+ itemPath).

(** [// --- Clear Tokens Directory ---] *)
Definition clear_tokens (e : env) : M unit :=
  let tokensDirPath := tokensDir in
  log Info ("Attempting to clear tokens directory: " +:+ show tokensDirPath);;
  try_catch
    (found ← existsSync tokensDirPath;
     if found : bool then
       items ← readdirSync e tokensDirPath;
       for_of items (clear_tokens_item e tokensDirPath);;
       log Info ("Successfully cleared tokens directory: "
                 +:+ show tokensDirPath)
     else
       log Warn ("Tokens directory does not exist, nothing to clear: "
                 +:+ show tokensDirPath))
    (fun err =>
       log Error ("Error clearing tokens directory "
                  +:+ show tokensDirPath +:+ ": " +:+ err);;
       throw ("Failed to fully clear all session data. "
              +:+ "Error during token cleanup: " +:+ err)).

Definition deleteAllSessions (e : env) : M ack :=
  log Info "Attempting to delete all sessions...";;
  closeAllSessions e;;
  log Info "All active browser sessions closed.";;
  clear_userData e;;
  clear_tokens e;;
  mret {| success := true;
          message := Some "All sessions closed and data/tokens cleared." |}.

(** ** The event loop *)

Definition run_task (e : env) (t : task) : M unit :=
  match t with
  | CloseSettled session ok _ => after_close session ok
  | ArchiveJob sources finalized => archive_job e sources finalized
  | StreamJob => stream_job e
  | ExtractJob up => extract_job e up
  end.

(** A callback that throws has nobody to catch it. *)
Definition run_handler (e : env) (t : task) : M unit :=
  try_catch (run_task e t) (fun err => emit (EvUncaught err)).

(** Runs at most [fuel] pending callbacks.  Node runs a callback when its
    event arrives; here the callbacks are taken in the order in which they
    were registered, oldest first. *)
Fixpoint drain (e : env) (fuel : nat) (w : world) : world :=
  match fuel with
  | 0 => w
  | S fuel' =>
      match pending w with
      | [] => w
      | t :: q => drain e fuel' (exec (run_handler e t) (set_pending (fun _ => q) w))
      end
  end.

(** The callbacks a pending one can bring about, itself included. *)
Definition weight (t : task) : nat :=
  match t with
  | ArchiveJob _ _ => 2
  | _ => 1
  end.

(** Runs the pending callbacks until none is left. *)
Definition event_loop (e : env) (w : world) : world :=
  drain e (sum_list_with weight (pending w)) w.

(** An operation together with everything it has set off. *)
Definition complete {A} (e : env) (m : M A) (w : world) : world :=
  event_loop e (exec m w).

(** ** Vocabulary of the statements *)

(** [p] is the directory [q] or a directory above it. *)
Definition contains (p q : place) : Prop :=
  p.1 = q.1 /\ p.2 `prefix_of` q.2.

(** The path of [p] does not leave its base, and the base is not the root
    of the file system, whose position relative to the project root is not
    known. *)
Definition below_base (p : place) : Prop :=
  p.1 ≠ Absolute /\ ".." ∉ p.2.

(** Two directories none of which lies in the other: what is done to one
    leaves the other as it is. *)
Definition apart (p q : place) : Prop :=
  below_base p /\ below_base q /\ ¬ contains p q /\ ¬ contains q p.

#[global] Instance apart_dec p q : Decision (apart p q).
Proof. unfold apart, below_base, contains. apply _. Defined.

(** The events an operation has added to the trace of [w] when it has
    reached [w']. *)
Definition since (w w' : world) : list event :=
  drop (length (trace w)) (trace w').

(** [a] occurs before [b] in [evs]. *)
Definition before (a b : event) (evs : list event) : Prop :=
  exists pre post, evs = pre ++ b :: post /\ a ∈ pre.

(** Every close request comes after the removal of its session. *)
Definition closes_after_delete (evs : list event) : Prop :=
  forall pre post session,
    evs = pre ++ EvClose session :: post -> EvDelete session ∈ pre.

(** The events of [closeAllSessions]. *)
Definition teardown_event (ev : event) : Prop :=
  match ev with
  | EvLog _ _ | EvDelete _ | EvClose _ | EvGrace => True
  | _ => False
  end.

Definition is_close_task (t : task) : Prop :=
  match t with
  | CloseSettled _ _ _ => True
  | _ => False
  end.

(** What [closeAllSessions] and the continuations of its close requests
    can do to the world: they touch neither the disk nor the promise, only
    remove clients, only add teardown events, and only leave close
    continuations behind. *)
Record teardown (w w' : world) : Prop := {
  td_disk : disk w' = disk w;
  td_zipFile : zipFile w' = zipFile w;
  td_response : response w' = response w;
  td_promise : promise w' = promise w;
  td_clients : forall k, clientsArray w !! k = None ->
                         clientsArray w' !! k = None;
  td_trace : exists evs, trace w' = trace w ++ evs /\
                         Forall teardown_event evs /\
                         closes_after_delete evs;
  td_pending : forall t, t ∈ pending w' -> t ∈ pending w \/ is_close_task t;
}.

(** The events of one turn of the [forEach] of [closeAllSessions], up to
    its first suspension, on the client it finds in the registry, and the
    continuation it leaves behind. *)
Definition stop_events (session : string) (c : option client) : list event :=
  EvDelete session ::
  (if truthy c then
     EvLog Info ("Stopping session: " +:+ session) ::
     match close <$> c with
     | Some (CloseSettles _ _) => [EvClose session]
     | Some CloseThrows =>
         [EvClose session;
          EvLog Error ("Error stopping session: " +:+ session)]
     | _ => [EvLog Error ("Error stopping session: " +:+ session)]
     end
   else [EvDelete session]).

Definition stop_tasks (session : string) (c : option client) : list task :=
  if truthy c then
    match close <$> c with
    | Some (CloseSettles ok InGrace) => [CloseSettled session ok InGrace]
    | Some (CloseSettles ok Late) => [CloseSettled session ok Late]
    | _ => []
    end
  else [].

(** The same for the whole [forEach], on the registry it starts from. *)
Fixpoint close_events (names : list string) (cs : gmap string client)
  : list event :=
  match names with
  | [] => []
  | s :: names' => stop_events s (cs !! s) ++ close_events names' (delete s cs)
  end.

Fixpoint close_tasks (names : list string) (cs : gmap string client)
  : list task :=
  match names with
  | [] => []
  | s :: names' => stop_tasks s (cs !! s) ++ close_tasks names' (delete s cs)
  end.

(** The events of the continuation of a close request. *)
Definition settled_events (t : task) : list event :=
  match t with
  | CloseSettled session true _ => [EvDelete session]
  | CloseSettled session false _ =>
      [EvLog Error ("Error stopping session: " +:+ session)]
  | _ => []
  end.

(** A restart comes only after the archive was finalized, the zip file was
    closed, and its read stream was piped out and has ended, in this
    order. *)
Definition restart_after_stream (evs : list event) : Prop :=
  forall pre post, evs = pre ++ EvStartAllSessions :: post ->
    before EvFinalize EvOutputClose pre /\
    before EvOutputClose EvPipe pre /\
    before EvPipe EvStreamEnd pre.

(** The disk after [cpSync(src, dst)], whether the call returned or
    threw. *)
Definition copied (src : place * list string) (dst : place) (force : bool)
    (d : gmap place node) : gmap place node :=
  match lookup_path d src with
  | Some s =>
      if decide (src = (dst, [])) then d
      else <[dst := (cp force s (d !! dst)).1]> d
  | None => d
  end.

(** Whether [cpSync(src, dst)] returns. *)
Definition copy_ok (src : place * list string) (dst : place) (force : bool)
    (d : gmap place node) : bool :=
  match lookup_path d src with
  | Some s =>
      if decide (src = (dst, [])) then false
      else (cp force s (d !! dst)).2
  | None => false
  end.

(** The error of [cpSync(src, dst)] when it throws. *)
Definition copy_error (src : place * list string) (dst : place)
    (d : gmap place node) : string :=
  match lookup_path d src with
  | None => "ENOENT"
  | Some _ =>
      if decide (src = (dst, [])) then "ERR_FS_CP_EINVAL"
      else "ERR_FS_CP_DIR_TO_NON_DIR"
  end.


(** The disk once the executor of a backup has staged the User Data Tree,
    and the archive built from it. *)
Definition staged (e : env) (d : gmap place node) : gmap place node :=
  copied (userDataDir e, []) backupFolder true d.

Definition staged_ok (e : env) (d : gmap place node) : bool :=
  copy_ok (userDataDir e, []) backupFolder true d.

Definition backup_archive (e : env) (d : gmap place node) : archive :=
  build_archive (staged e d) backup_sources.

(** What a pending callback of a backup that started on the disk [d0] may
    rely on. *)
Definition backup_stage (e : env) (d0 : gmap place node)
    (evs : list event) (w : world) (t : task) : Prop :=
  match t with
  | CloseSettled _ _ _ => True
  | ArchiveJob sources finalized =>
      finalized = true ->
      EvFinalize ∈ evs /\ sources = backup_sources /\
      disk w = staged e d0 /\ staged_ok e d0 = true
  | StreamJob =>
      before EvFinalize EvOutputClose evs /\
      before EvOutputClose EvPipe evs /\
      zipFile w = Some (backup_archive e d0) /\ staged_ok e d0 = true
  | ExtractJob _ => False
  end.

(** The queue during a backup: close continuations, then at most one job
    of the backup. *)
Definition backup_queue (e : env) (d0 : gmap place node)
    (evs : list event) (w : world) : Prop :=
  exists q tail, pending w = q ++ tail /\ Forall is_close_task q /\
    match tail with
    | [] => True
    | [t] => backup_stage e d0 evs w t
    | _ => False
    end.

(** The invariant of the event loop while a backup that started in [w0] is
    under way. *)
Record backup_inv (e : env) (w0 w : world) : Prop := {
  bi_events : exists evs, trace w = trace w0 ++ evs /\
                          restart_after_stream evs /\
                          backup_queue e (disk w0) evs w /\
                          (EvStreamEnd ∈ evs ->
                           response w = Some (backup_archive e (disk w0)) /\
                           staged_ok e (disk w0) = true);
  bi_unresolved : promise w <> Fulfilled;
  bi_pending : fails e IoArchive = false -> fails e IoStream = false ->
               promise w = Pending;
}.

(** The disk after the extraction of an upload, and whether the extraction
    stream closes. *)
Definition extracted (e : env) (a : archive) (d : gmap place node)
  : gmap place node :=
  match (extract_into a (d !! at_cwd e "restore")).1 with
  | Some n => <[at_cwd e "restore" := n]> d
  | None => d
  end.

Definition extracts (e : env) (up : option archive) (d : gmap place node)
  : bool :=
  match up with
  | Some a => (extract_into a (d !! at_cwd e "restore")).2
  | None => false
  end.

(** The two copies of [extract.on('close', ...)]. *)
Definition tokens_copy (e : env) : (place * list string) * place :=
  ((at_root "restore", ["tokens"]), at_cwd e "tokens").

Definition userData_copy (e : env) : (place * list string) * place :=
  ((at_root "restore", ["userDataDir"]), userDataDir e).

Definition merged (e : env) (d : gmap place node) : gmap place node :=
  copied (userData_copy e).1 (userData_copy e).2 false
    (copied (tokens_copy e).1 (tokens_copy e).2 true d).

(** The events of [extract.on('close', ...)] on a disk. *)
Definition merge_events (e : env) (d : gmap place node) : list event :=
  [EvCpSync (tokens_copy e).1 (tokens_copy e).2 true] ++
  (if copy_ok (tokens_copy e).1 (tokens_copy e).2 true d then []
   else [EvLog Info "Folder 'tokens' not found."]) ++
  [EvCpSync (userData_copy e).1 (userData_copy e).2 false] ++
  (if copy_ok (userData_copy e).1 (userData_copy e).2 false
        (copied (tokens_copy e).1 (tokens_copy e).2 true d) then []
   else [EvLog Info "Folder 'userDataDir' not found."]) ++
  [EvLog Info "Sessions successfully restored. Starting...";
   EvStartAllSessions].

(** Every directory on the disk is free of duplicate names. *)
Definition wf_disk (d : gmap place node) : Prop :=
  forall p n, d !! p = Some n -> wf n.

Definition is_log (ev : event) : Prop :=
  match ev with
  | EvLog _ _ => True
  | _ => False
  end.

(** A step of the purge: it changes the disk and logs, nothing else. *)
Record fs_step (w w' : world) : Prop := {
  fs_clients : clientsArray w' = clientsArray w;
  fs_pending : pending w' = pending w;
  fs_promise : promise w' = promise w;
  fs_zipFile : zipFile w' = zipFile w;
  fs_response : response w' = response w;
  fs_trace : exists evs, trace w' = trace w ++ evs /\ Forall is_log evs;
}.

(** The disk with the child [item] of [dir] removed. *)
Definition without (dir : place) (item : string) (d : gmap place node)
  : gmap place node :=
  alter (remove_child item) dir d.

(** The error of the enumeration of [dir], if it throws: the directory is
    there and [readdirSync] fails for an outside reason or because it is a
    regular file. *)
Definition readdir_error (e : env) (dir : place) (d : gmap place node)
  : option string :=
  match d !! dir with
  | None => None
  | Some n =>
      if fails e (IoReaddir dir) then Some "EACCES"
      else match n with
           | File _ => Some "ENOTDIR"
           | Dir _ => None
           end
  end.

(** The error that makes the Token Store phase of [deleteAllSessions]
    fatal, if there is one: the enumeration of the directory throws, or
    [lstat] on one of its entries does. *)
Definition tokens_fault (e : env) (d : gmap place node) : option string :=
  match readdir_error e tokensDir d with
  | Some err => Some err
  | None =>
      match d !! tokensDir with
      | Some (Dir es) =>
          if existsb (fun item => fails e (IoLstat tokensDir item)) (names es)
          then Some "EACCES"
          else None
      | _ => None
      end
  end.

(** The acknowledgment of [deleteAllSessions]. *)
Definition purge_ack : ack :=
  {| success := true;
     message := Some "All sessions closed and data/tokens cleared." |}.

(** The message of the fatal error of [deleteAllSessions]. *)
Definition purge_error (err : string) : string :=
  "Failed to fully clear all session data. "
  +:+ "Error during token cleanup: " +:+ err.

(** Nothing is created and nothing is changed: every file of [d'] is a
    file of [d], at the same place with the same bytes. *)
Definition shrinks (d d' : gmap place node) : Prop :=
  forall pl p c, file_in (d' !! pl) p = Some c -> file_in (d !! pl) p = Some c.

(** What the Token Store phase of the purge does to the directory [dir]: it
    logs, leaves the other directories alone, and a child that is there
    afterwards was there before, unchanged. *)
Record purged (dir : place) (w w' : world) : Prop := {
  pg_step : fs_step w w';
  pg_other : forall p, p ≠ dir -> disk w' !! p = disk w !! p;
  pg_kept : forall x n, lookup_path (disk w') (dir, [x]) = Some n ->
                        lookup_path (disk w) (dir, [x]) = Some n;
  pg_files : shrinks (disk w) (disk w');
}.

(** What the User Data Tree phase does to the directory [dir]: it logs,
    leaves the other directories alone, and a child that is there
    afterwards was there before, whole or with what a failed removal has
    left of it. *)
Record cleared (dir : place) (w w' : world) : Prop := {
  cl_step : fs_step w w';
  cl_other : forall p, p ≠ dir -> disk w' !! p = disk w !! p;
  cl_kept : forall x, is_Some (lookup_path (disk w') (dir, [x])) ->
                      is_Some (lookup_path (disk w) (dir, [x]));
  cl_files : shrinks (disk w) (disk w');
}.

(** The disk when the removal of the child [item] of [dir] has failed. *)
Definition pruned (e : env) (dir : place) (item : string)
    (d : gmap place node) : gmap place node :=
  alter (prune_child (fun path => fails e (IoRmEntry dir path)) item) dir d.

(** The subdirectories of [dir] stay as they are. *)
Definition dirs_stay (dir : place) (w w' : world) : Prop :=
  forall x es, lookup_path (disk w) (dir, [x]) = Some (Dir es) ->
               lookup_path (disk w') (dir, [x]) = Some (Dir es).

(** No call on the child [item] of [dir] fails for an outside reason. *)
Definition no_fault (e : env) (dir : place) (item : string) : Prop :=
  fails e (IoLstat dir item) = false /\
  fails e (IoUnlink dir item) = false /\
  fails e (IoRm dir item) = false.

(** ** Concrete environments and worlds *)

Module Examples.

(** A server started from the project root with the default user-data
    directory, two persisted sessions, and no failing call. *)
Definition ex_env : env :=
  {| config := {| customUserDataDir := "./userDataDir/" |};
     cwd_is_root := true;
     getAllTokens := fun _ => ["alice"; "bob"];
     fails := fun _ => false |}.


(** The same server where the User Data Tree cannot be enumerated. *)
Definition ex_env_readdir : env :=
  {| config := {| customUserDataDir := "userDataDir" |};
     cwd_is_root := true;
     getAllTokens := fun _ => ["alice"; "bob"];
     fails := fun c =>
       match c with
       | IoReaddir dir => bool_decide (dir = at_root "userDataDir")
       | _ => false
       end |}.

(** A client whose close request resolves in time, and one whose close
    request throws. *)
Definition ex_alice : client :=
  {| status := Some "CONNECTED"; close := CloseSettles true InGrace |}.

Definition ex_bob : client :=
  {| status := Some "CONNECTED"; close := CloseThrows |}.

Definition ex_tokens : node :=
  Dir [("alice.data.json", File ["{"%byte; "}"%byte]);
       ("keep", Dir [("note", File ["n"%byte])])].

Definition ex_userData : node :=
  Dir [("alice", Dir [("Cookies", File ["c"%byte; "k"%byte])]);
       ("lock", File [])].

Definition ex_disk : gmap place node :=
  <[tokensDir := ex_tokens]> (<[userDataDir ex_env := ex_userData]> ∅).

Definition ex_world : world :=
  {| clientsArray := <["alice" := ex_alice]> (<["bob" := ex_bob]> ∅);
     disk := ex_disk;
     zipFile := None; response := None; promise := Pending;
     pending := []; trace := [] |}.

(** A fresh installation: no client, nothing on the disk. *)
Definition ex_fresh : world :=
  {| clientsArray := ∅; disk := ∅;
     zipFile := None; response := None; promise := Pending;
     pending := []; trace := [] |}.

(** An upload declared as a zip file, and one declared as plain text. *)
Definition ex_zip (a : option archive) : option multer_file :=
  Some {| mimetype := Some "application/zip"; upload := a |}.

Definition ex_text : option multer_file :=
  Some {| mimetype := Some "text/plain"; upload := None |}.

(** A live Token Store with a subdirectory [x] and a token file, and an
    archive that has a file [x] and a newer version of the token file. *)
Definition ex_conflict_world : world :=
  {| clientsArray := ∅;
     disk := <[tokensDir :=
                 Dir [("x", Dir []); ("b.json", File ["o"%byte])]]> ∅;
     zipFile := None; response := None; promise := Pending;
     pending := []; trace := [] |}.

Definition ex_conflict_archive : archive :=
  [("tokens", Dir [("x", File []); ("b.json", File ["n"%byte])])].

(** An archive with newer versions of files of both stores of
    [ex_world]. *)
Definition ex_archive : archive :=
  [("tokens", Dir [("alice.data.json", File ["n"%byte])]);
   ("userDataDir", Dir [("lock", File ["n"%byte])])].

(** The whole backup of [ex_world], and the whole restore of its archive
    into the fresh installation. *)
Definition ex_backup : world := complete ex_env (backupSessions ex_env) ex_world.

Definition ex_restored : world :=
  complete ex_env (restoreSessions ex_env (ex_zip (response ex_backup)))
    ex_fresh.

(** The same server where the read stream of the zip file fails. *)
Definition ex_env_stream : env :=
  {| config := {| customUserDataDir := "userDataDir" |};
     cwd_is_root := true;
     getAllTokens := fun _ => ["alice"; "bob"];
     fails := fun c => match c with IoStream => true | _ => false end |}.





(** The same server where the recursive removal of the directory
    [profile] fails when it has removed the file [a] and not the file [b],
    and a User Data Tree with that directory. *)
Definition ex_env_busy : env :=
  {| config := {| customUserDataDir := "./userDataDir/" |};
     cwd_is_root := true;
     getAllTokens := fun _ => ["alice"; "bob"];
     fails := fun c =>
       match c with
       | IoRm _ item => String.eqb item "profile"
       | IoRmEntry _ path => bool_decide (path = ["profile"; "b"])
       | _ => false
       end |}.

Definition ex_busy_world : world :=
  {| clientsArray := ∅;
     disk := <[userDataDir ex_env :=
                 Dir [("profile", Dir [("a", File ["a"%byte]);
                                       ("b", File ["b"%byte])]);
                      ("lock", File [])]]> ∅;
     zipFile := None; response := None; promise := Pending;
     pending := []; trace := [] |}.

(** A server whose [customUserDataDir] names the tokens directory. *)
Definition ex_env_same : env :=
  {| config := {| customUserDataDir := "./tokens" |};
     cwd_is_root := true;
     getAllTokens := fun _ => ["alice"; "bob"];
     fails := fun _ => false |}.

(** A client with a status and no page. *)
Definition ex_carol : client :=
  {| status := Some "CONNECTED"; close := NoBrowser |}.

(** A client whose close request is rejected after the grace period, and
    a registry with it and with a client that has no token. *)
Definition ex_late : client :=
  {| status := Some "CONNECTED"; close := CloseSettles false Late |}.

Definition ex_late_world : world :=
  {| clientsArray := <["alice" := ex_late]> (<["carol" := ex_alice]> ∅);
     disk := ex_disk;
     zipFile := None; response := None; promise := Pending;
     pending := []; trace := [] |}.

End Examples.

(** ** Tactics *)

(** Unfolds the computations down to explicit worlds. *)
Ltac run :=
  unfold log, emit, schedule, modify, throw, try_catch, get_world,
    mbind, M_bind, mret, M_ret, exec in *;
  simpl in *.

(** Closes [x ∉ [a; b; ...]] for distinct constructors. *)
Ltac solve_notin :=
  let H := fresh in
  intros H;
  repeat (apply elem_of_cons in H as [H|H]; [discriminate H|]);
  by apply elem_of_nil in H.

(** Closes [x ∈ l] on an evaluated list. *)
Ltac solve_in :=
  vm_compute;
  repeat first [apply list_elem_of_here | apply list_elem_of_further].

(** Closes [wf n] on a concrete tree. *)
Ltac solve_wf :=
  vm_compute;
  repeat first
    [ apply wf_File
    | apply wf_Dir; [apply (bool_decide_unpack _); vm_compute; exact I|]
    | apply Forall_cons; split
    | apply Forall_nil_2 ];
  simpl.

(** Closes a goal from [H : ev ∈ l] when [ev] is none of the events
    spelled out in [l] and no teardown event. *)
Ltac absurd_in H :=
  repeat first [ rewrite elem_of_app in H
               | rewrite elem_of_cons in H
               | rewrite elem_of_nil in H ];
  destruct_or?;
  first
    [ discriminate
    | done
    | match goal with
      | Hev : Forall teardown_event ?l, Hin : _ ∈ ?l |- _ =>
          rewrite Forall_forall in Hev; by apply Hev in Hin
      end ].


(** * Facts about directory trees *)

Section FsFacts.

Lemma cp_Dir force es dst :
  cp force (Dir es) dst =
  match dst with
  | None => let '(ds', ok) := cp_entries force es [] in (Dir ds', ok)
  | Some (Dir ds) => let '(ds', ok) := cp_entries force es ds in (Dir ds', ok)
  | Some (File d') => (File d', false)
  end.
Proof.
  assert (H : forall es ds,
    (fix walk (es ds : list (string * node)) {struct es} :=
       match es with
       | [] => (ds, true)
       | (name, s) :: es' =>
           let '(r, ok) := cp force s (child name ds) in
           if ok then walk es' (put name r ds) else (put name r ds, false)
       end) es ds = cp_entries force es ds).
  { clear. induction es as [|[k s] es IH]; intros ds; simpl; [done|].
    destruct (cp force s (child k ds)) as [r [|]]; [apply IH|done]. }
  destruct dst as [[d'|ds]|]; simpl; rewrite ?H; done.
Qed.

Lemma child_put_eq x v es : child x (put x v es) = Some v.
Proof.
  induction es as [|[k c] es IH]; simpl.
  - by rewrite decide_True.
  - destruct (decide (k = x)); simpl.
    + by rewrite decide_True.
    + by rewrite decide_False.
Qed.

Lemma child_put_ne x y v es : x ≠ y -> child y (put x v es) = child y es.
Proof.
  intros Hne. induction es as [|[k c] es IH]; simpl.
  - by rewrite decide_False.
  - destruct (decide (k = x)) as [->|]; simpl.
    + by rewrite !decide_False.
    + destruct (decide (k = y)); done.
Qed.

Lemma child_None x es : child x es = None <-> x ∉ names es.
Proof.
  unfold names. induction es as [|[k c] es IH]; simpl.
  - split; [intros _; apply not_elem_of_nil | done].
  - rewrite not_elem_of_cons. destruct (decide (k = x)) as [->|Hne].
    + split; [done | intros [? _]; done].
    + rewrite IH. split; [intros ?; split; [congruence | done] | intros [_ ?]; done].
Qed.

Lemma child_Some_elem x c es : child x es = Some c -> (x, c) ∈ es.
Proof.
  induction es as [|[k c'] es IH]; simpl; [done|].
  destruct (decide (k = x)) as [->|].
  - intros [= ->]. apply list_elem_of_here.
  - intros H. apply list_elem_of_further, IH, H.
Qed.


Lemma names_put x v es :
  names (put x v es) = if decide (x ∈ names es) then names es else names es ++ [x].
Proof.
  unfold names. induction es as [|[k c] es IH].
  - case_decide as H; [by apply elem_of_nil in H | done].
  - cbn [put]. destruct (decide (k = x)) as [->|Hne].
    + rewrite decide_True; [done | apply list_elem_of_here].
    + cbn [fmap list_fmap fst]. change (list_fmap _ _ fst ?l) with (l.*1). rewrite IH.
      destruct (decide (x ∈ es.*1)) as [Hin|Hni].
      * rewrite decide_True; [done | by apply list_elem_of_further].
      * rewrite decide_False; [done|].
        rewrite not_elem_of_cons. split; [congruence | done].
Qed.


Lemma file_at_Dir es x p :
  file_at (Dir es) (x :: p) = file_in (child x es) p.
Proof. unfold file_at, file_in. simpl. by destruct (child x es). Qed.

Lemma file_at_File d p c : file_at (File d) p = Some c -> p = [] /\ c = d.
Proof. destruct p; unfold file_at; simpl; [intros [= ->]; done | done]. Qed.

Lemma file_at_Dir_nil es : file_at (Dir es) [] = None.
Proof. done. Qed.

(** The walk leaves alone the children it has no entry for. *)
Lemma cp_entries_child_other force x es : forall ds ds' ok,
  cp_entries force es ds = (ds', ok) -> x ∉ names es ->
  child x ds' = child x ds.
Proof.
  unfold names. induction es as [|[k s] es IH]; intros ds ds' ok; simpl.
  - by intros [= <- _].
  - rewrite not_elem_of_cons. intros H [Hne Hni].
    destruct (cp force s (child k ds)) as [r [|]].
    + rewrite (IH _ _ _ H Hni). apply child_put_ne. congruence.
    + injection H as <- _. apply child_put_ne. congruence.
Qed.

(** With [force], every file of the source is in the result of a copy that
    returned. *)
Lemma cp_force_source src : forall dst r p c,
  wf src -> cp true src dst = (r, true) ->
  file_at src p = Some c -> file_at r p = Some c.
Proof.
  induction src as [d|es IH] using node_ind; intros dst r p c Hwf Hcp Hf.
  - apply file_at_File in Hf as [-> ->].
    simpl in Hcp. destruct dst as [[?|?]|]; by injection Hcp as <-.
  - destruct p as [|x p]; [done|].
    rewrite file_at_Dir in Hf.
    destruct (child x es) as [s|] eqn:Hx; [|done]. simpl in Hf.
    inversion Hwf as [|? Hnd Hall]; subst.
    rewrite cp_Dir in Hcp.
    assert (forall ds ds', cp_entries true es ds = (ds', true) ->
              exists rx d0, child x ds' = Some rx /\ cp true s d0 = (rx, true))
      as Hwalk.
    { clear Hcp. revert Hx Hnd Hall IH. clear. unfold names.
      induction es as [|[k s0] es IHes]; [done|].
      simpl. intros Hx Hnd Hall IH ds ds' H.
      apply NoDup_cons in Hnd as [Hk Hnd].
      destruct (cp true s0 (child k ds)) as [r0 [|]] eqn:Hc; [|done].
      destruct (decide (k = x)) as [->|Hne].
      - injection Hx as ->. exists r0, (child x ds). split; [|done].
        rewrite (cp_entries_child_other _ _ _ _ _ _ H Hk).
        apply child_put_eq.
      - eapply (IHes Hx Hnd); [by inversion Hall | by inversion IH | exact H]. }
    assert (exists rx, child x (match r with Dir l => l | _ => [] end) = Some rx
                       /\ exists d0, cp true s d0 = (rx, true)) as (rx & Hrx & d0 & Hd0).
    { destruct dst as [[d'|ds]|]; [done| |].
      - destruct (cp_entries true es ds) as [ds' ok] eqn:He.
        injection Hcp as <- ->. destruct (Hwalk _ _ He) as (rx & d0 & ? & ?). eauto.
      - destruct (cp_entries true es []) as [ds' ok] eqn:He.
        injection Hcp as <- ->. destruct (Hwalk _ _ He) as (rx & d0 & ? & ?). eauto. }
    assert (exists l, r = Dir l) as [l ->].
    { destruct dst as [[d'|ds]|]; [done| |].
      - destruct (cp_entries true es ds). injection Hcp as <- _. eauto.
      - destruct (cp_entries true es []). injection Hcp as <- _. eauto. }
    rewrite file_at_Dir. simpl in Hrx. rewrite Hrx. simpl.
    apply child_Some_elem in Hx.
    rewrite Forall_forall in IH, Hall.
    eapply (IH _ Hx); [apply (Hall _ Hx) | apply Hd0 | done].
Qed.

(** Without [force], every file of the destination is still there after the
    copy, whether it returned or threw. *)
Lemma cp_keep_destination src : forall dst r ok p c,
  cp false src dst = (r, ok) ->
  file_in dst p = Some c -> file_at r p = Some c.
Proof.
  induction src as [d|es IH] using node_ind; intros dst r ok p c Hcp Hf.
  - simpl in Hcp. destruct dst as [[?|?]|]; [| |done]; by injection Hcp as <- _.
  - rewrite cp_Dir in Hcp. destruct dst as [[d'|ds]|]; [|  |done].
    { by injection Hcp as <- _. }
    destruct (cp_entries false es ds) as [ds' ok'] eqn:He.
    injection Hcp as <- _. simpl in Hf.
    destruct p as [|x p]; [done|]. rewrite file_at_Dir in Hf |- *.
    revert ds ds' ok' He Hf.
    induction es as [|[k s] es IHes]; intros ds ds' ok' He Hf; simpl in He.
    + by injection He as <- _.
    + inversion IH as [|? ? IHs IHrest]; subst. simpl in IHs.
      destruct (cp false s (child k ds)) as [r0 ok0] eqn:Hc.
      assert (file_in (child x (put k r0 ds)) p = Some c) as Hput.
      { destruct (decide (k = x)) as [->|Hne].
        - rewrite child_put_eq. simpl. eapply IHs; eauto.
        - by rewrite child_put_ne. }
      destruct ok0.
      * eapply (IHes IHrest); eauto.
      * by injection He as <- _.
Qed.




(** Copies keep directories free of duplicate names. *)
Lemma cp_wf force src : forall dst,
  wf src -> wf_opt dst -> wf (cp force src dst).1.
Proof.
  induction src as [d|es IH] using node_ind; intros dst Hwf Hdst.
  - simpl. destruct dst as [[?|?]|]; simpl; [destruct force; constructor|done|done].
  - inversion Hwf as [|? _ Hall]; subst.
    assert (forall ds, wf (Dir ds) -> wf (Dir (cp_entries force es ds).1)) as Hwalk.
    { clear Hdst Hwf. revert IH Hall. clear.
      induction es as [|[k s] es IHes]; intros IH Hall ds Hds; [done|]. simpl.
      inversion IH as [|? ? IHs IHrest]; inversion Hall as [|? ? Hs Hrest]; subst.
      simpl in IHs, Hs.
      assert (wf (Dir (put k (cp force s (child k ds)).1 ds))) as Hput.
      { inversion Hds as [|? Hnd Hch]; subst. constructor.
        - change ((put k (cp force s (child k ds)).1 ds).*1) with (names (put k (cp force s (child k ds)).1 ds)).
          rewrite names_put. case_decide as Hin; [done|].
          apply NoDup_app. split_and!; [done| |apply NoDup_singleton].
          intros x Hx Hx'. apply list_elem_of_singleton in Hx' as ->. done.
        - assert (wf (cp force s (child k ds)).1) as Hr.
          { apply IHs; [done|]. destruct (child k ds) as [c|] eqn:Hc; [|done].
            apply child_Some_elem in Hc. rewrite Forall_forall in Hch. apply (Hch _ Hc). }
          revert Hr Hch. generalize (cp force s (child k ds)).1. clear.
          intros r Hr. induction ds as [|[k' c'] ds IHds]; intros Hch; simpl.
          + by constructor.
          + inversion Hch; subst. case_decide; constructor; auto. }
      destruct (cp force s (child k ds)) as [r [|]]; simpl in *; [|done].
      by apply IHes. }
    rewrite cp_Dir. destruct dst as [[d'|ds]|]; simpl in *.
    + done.
    + specialize (Hwalk ds Hdst). by destruct (cp_entries force es ds).
    + assert (wf (Dir [])) as Hnil by (constructor; [apply NoDup_nil_2|done]).
      specialize (Hwalk [] Hnil). by destruct (cp_entries force es []).
Qed.

Lemma prune_Dir spared path es :
  prune spared path (Dir es) = Dir (prune_entries spared path es).
Proof.
  simpl. f_equal. induction es as [|[k c] es IH]; simpl; [done|].
  by rewrite IH.
Qed.

(** A child that a failed removal has left is what is left of the child of
    that name. *)
Lemma child_prune_entries spared path x es : forall v,
  child x (prune_entries spared path es) = Some v ->
  spared (path ++ [x]) = true /\
  exists c, child x es = Some c /\ v = prune spared (path ++ [x]) c.
Proof.
  induction es as [|[k c] es IH]; intros v; simpl; [done|].
  destruct (spared (path ++ [k])) eqn:Hk; simpl.
  - case_decide as Hx; [|apply IH].
    subst k. intros [= <-]. eauto.
  - intros Hv. destruct (IH v Hv) as (Hs & c0 & Hc0 & ->).
    case_decide as Hx; [congruence|eauto].
Qed.

(** A failed removal creates nothing: a file of what it has left was a
    file of the tree, with the same bytes. *)
Lemma prune_files spared n : forall path p c,
  file_at (prune spared path n) p = Some c -> file_at n p = Some c.
Proof.
  induction n as [d|es IH] using node_ind; intros path p c; [done|].
  rewrite prune_Dir. destruct p as [|x p]; [done|]. rewrite !file_at_Dir.
  destruct (child x (prune_entries spared path es)) as [v|] eqn:Hv; [|done].
  destruct (child_prune_entries _ _ _ _ _ Hv) as (_ & c0 & Hc0 & ->).
  rewrite Hc0. simpl. apply child_Some_elem in Hc0.
  rewrite Forall_forall in IH. apply (IH _ Hc0).
Qed.

End FsFacts.


(** * Facts about computations *)

Section MonadFacts.

Lemma since_app w w' evs : trace w' = trace w ++ evs -> since w w' = evs.
Proof. unfold since. intros ->. by rewrite drop_app_length. Qed.

Lemma closes_after_delete_app evs1 evs2 :
  closes_after_delete evs1 -> closes_after_delete evs2 ->
  closes_after_delete (evs1 ++ evs2).
Proof.
  intros H1 H2 pre post s Heq.
  apply app_eq_app in Heq as [l [[-> Hl]|[-> Hl]]].
  - destruct l as [|ev l]; simpl in Hl.
    + symmetry in Hl. by apply (H2 [] post s) in Hl; apply elem_of_nil in Hl.
    + injection Hl as <- ->. by apply (H1 pre l s).
  - rewrite elem_of_app. right. by apply (H2 l post s).
Qed.

Lemma closes_after_delete_quiet evs :
  Forall (fun ev => forall s, ev ≠ EvClose s) evs -> closes_after_delete evs.
Proof.
  intros Hall pre post s ->. apply Forall_app in Hall as [_ Hall].
  apply Forall_cons in Hall as [Hne _]. by destruct (Hne s).
Qed.

Lemma teardown_refl w : teardown w w.
Proof.
  split; try done.
  - exists []. rewrite app_nil_r. split_and!; [done|done|].
    by apply closes_after_delete_quiet.
  - auto.
Qed.

Lemma teardown_trans w1 w2 w3 :
  teardown w1 w2 -> teardown w2 w3 -> teardown w1 w3.
Proof.
  intros [Hd1 Hz1 Hr1 Hp1 Hc1 (evs1 & Ht1 & Ha1 & Ho1) Hq1]
         [Hd2 Hz2 Hr2 Hp2 Hc2 (evs2 & Ht2 & Ha2 & Ho2) Hq2].
  split; try congruence.
  - auto.
  - exists (evs1 ++ evs2). split_and!.
    + by rewrite Ht2, Ht1, <- app_assoc.
    + by apply Forall_app.
    + by apply closes_after_delete_app.
  - intros t Ht. destruct (Hq2 t Ht); auto.
Qed.

(** A loop whose turns all return goes through the whole list. *)
Lemma for_of_returns {A} (R : world -> world -> Prop) (xs : list A) body :
  (forall w, R w w) ->
  (forall w1 w2 w3, R w1 w2 -> R w2 w3 -> R w1 w3) ->
  (forall x w, x ∈ xs -> exists w', body x w = (Ok tt, w') /\ R w w') ->
  forall w, exists w', for_of xs body w = (Ok tt, w') /\ R w w'.
Proof.
  intros Hrefl Htrans. induction xs as [|x xs IH]; intros Hbody w.
  - exists w. by split.
  - destruct (Hbody x w) as (w1 & Hx & HR1); [apply list_elem_of_here|].
    destruct (IH (fun y w Hy => Hbody y w (list_elem_of_further _ _ _ Hy)) w1)
      as (w2 & Hxs & HR2).
    exists w2. split; [|by eapply Htrans].
    simpl. unfold mbind, M_bind. by rewrite Hx.
Qed.

(** A loop, whether it returns or a turn throws. *)
Lemma for_of_steps {A} (R : world -> world -> Prop) (xs : list A) body :
  (forall w, R w w) ->
  (forall w1 w2 w3, R w1 w2 -> R w2 w3 -> R w1 w3) ->
  (forall x w, x ∈ xs -> R w (exec (body x) w)) ->
  forall w, R w (exec (for_of xs body) w).
Proof.
  intros Hrefl Htrans. induction xs as [|x xs IH]; intros Hbody w.
  - apply Hrefl.
  - unfold exec. simpl. unfold mbind, M_bind.
    pose proof (Hbody x w (list_elem_of_here _ _)) as Hx. unfold exec in Hx.
    destruct (body x w) as [[[]|err] w1]; simpl in *; [|done].
    eapply Htrans; [apply Hx|].
    apply IH. intros y w' Hy. apply Hbody. by apply list_elem_of_further.
Qed.

Lemma on_last_snoc f q t : on_last f (q ++ [t]) = q ++ [f t].
Proof.
  induction q as [|t0 q IH]; [done|]. simpl. rewrite IH.
  by destruct (q ++ [t]) eqn:Heq; [destruct q|].
Qed.

End MonadFacts.

(** * Facts about closeAllSessions *)

Section CloseFacts.

Lemma delete_client_teardown session w :
  teardown w (exec (delete_client session) w) /\
  delete_client session w = (Ok tt, exec (delete_client session) w) /\
  clientsArray (exec (delete_client session) w) !! session = None.
Proof.
  unfold delete_client. run. split_and!; [|done|apply lookup_delete_eq].
  split; simpl; try done.
  - intros k Hk. rewrite lookup_delete. case_decide; done.
  - exists [EvDelete session]. split_and!; [done|by repeat constructor|].
    apply closes_after_delete_quiet. by repeat constructor.
  - auto.
Qed.

Lemma after_close_teardown session ok w :
  exists w', after_close session ok w = (Ok tt, w') /\ teardown w w'.
Proof.
  destruct ok; simpl.
  - destruct (delete_client_teardown session w) as (? & ? & _). eauto.
  - eexists. split; [reflexivity|]. run. split; simpl; try done; [|auto].
    eexists [_]. split_and!; [done|by repeat constructor|].
    apply closes_after_delete_quiet. by repeat constructor.
Qed.

Lemma after_close_pending session ok w :
  pending (exec (after_close session ok) w) = pending w.
Proof. unfold after_close, delete_client. run. by destruct ok. Qed.

Lemma closes_after_delete_block session evs :
  Forall (fun ev => forall s, ev = EvClose s -> s = session) evs ->
  closes_after_delete (EvDelete session :: evs).
Proof.
  intros Hall pre post s Heq. destruct pre as [|ev pre]; [done|].
  injection Heq as <- ->. apply Forall_app in Hall as [_ Hall].
  apply Forall_cons in Hall as [Hs _]. rewrite (Hs s eq_refl).
  apply list_elem_of_here.
Qed.

Lemma stop_session_teardown session w :
  exists w', stop_session session w = (Ok tt, w') /\ teardown w w' /\
             clientsArray w' !! session = None.
Proof.
  unfold stop_session, delete_client. run.
  assert (forall k, clientsArray w !! k = None ->
            delete session (clientsArray w) !! k = None) as Hshrink.
  { intros k Hk. rewrite lookup_delete. case_decide; done. }
  assert (forall k, clientsArray w !! k = None ->
            delete session (delete session (clientsArray w)) !! k = None)
    as Hshrink2.
  { intros k Hk. rewrite !lookup_delete. repeat case_decide; done. }
  destruct (clientsArray w !! session) as [[[st|] cl]|]; simpl;
    [destruct (String.eqb st ""); simpl; [|destruct cl as [| |ok []]; simpl]| |];
    (eexists; split; [reflexivity|]);
    (split; [|simpl; rewrite ?lookup_delete_eq; try done; apply lookup_delete_eq]);
    (split; simpl; try done;
     [ eexists; split_and!;
       [ rewrite <- ?app_assoc; simpl; reflexivity
       | by repeat constructor
       | apply closes_after_delete_block; repeat constructor; congruence ]
     | intros t; rewrite ?elem_of_app, ?list_elem_of_singleton;
       intros Ht; destruct_or?; subst; simpl; auto ]).
Qed.

Lemma grace_period_teardown w :
  exists w', grace_period w = (Ok tt, w') /\ teardown w w'.
Proof.
  unfold grace_period. run.
  destruct (for_of_returns teardown (List.filter in_grace (pending w))
              after_settled teardown_refl teardown_trans) with
    (w := set_pending (List.filter (fun t => negb (in_grace t))) w)
    as (w1 & Hrun & Htd).
  { intros t w0 _. destruct t; simpl; try apply after_close_teardown;
      (eexists; split; [reflexivity | apply teardown_refl]). }
  rewrite Hrun. eexists. split; [reflexivity|].
  eapply teardown_trans; [|eapply teardown_trans; [apply Htd|]].
  - split; simpl; try done.
    + exists []. rewrite app_nil_r. split_and!; [done|done|].
      by apply closes_after_delete_quiet.
    + intros t Ht. left. apply list_elem_of_In, filter_In in Ht as [Ht _].
      by apply list_elem_of_In.
  - split; simpl; try done; [|auto].
    exists [EvGrace]. split_and!; [done|by repeat constructor|].
    apply closes_after_delete_quiet. by repeat constructor.
Qed.

(** [closeAllSessions] always returns; it is a teardown step, and none of
    the enumerated sessions is in the registry afterwards. *)
Lemma closeAllSessions_teardown e w :
  exists w', closeAllSessions e w = (Ok tt, w') /\ teardown w w' /\
             forall session, session ∈ getAllTokens e (disk w) ->
                             clientsArray w' !! session = None.
Proof.
  unfold closeAllSessions. run.
  generalize (getAllTokens e (disk w)). intros names.
  assert (exists w1, for_of names stop_session w = (Ok tt, w1) /\ teardown w w1 /\
            forall s, s ∈ names -> clientsArray w1 !! s = None)
    as (w1 & Hloop & Htd1 & Hgone).
  { clear. revert w. induction names as [|s names IH]; intros w.
    - exists w. split_and!; [done|apply teardown_refl|]. by intros s Hs%elem_of_nil.
    - destruct (stop_session_teardown s w) as (w1 & Hs & Htd1 & Hnone).
      destruct (IH w1) as (w2 & Hrest & Htd2 & Hgone).
      exists w2. split_and!.
      + simpl. unfold mbind, M_bind. by rewrite Hs.
      + by eapply teardown_trans.
      + intros s' [->|Hin]%elem_of_cons; [|auto].
        by apply (td_clients _ _ Htd2). }
  rewrite Hloop.
  destruct (grace_period_teardown w1) as (w2 & Hgrace & Htd2).
  rewrite Hgrace. exists w2. split_and!; [done|by eapply teardown_trans|].
  intros s Hs. apply (td_clients _ _ Htd2). auto.
Qed.

End CloseFacts.

(** * Facts about the event loop and backupSessions *)

Section BackupFacts.

Lemma before_app_r a b l l' : before a b l -> before a b (l ++ l').
Proof.
  intros (pre & post & -> & Hin). exists pre, (post ++ l').
  by rewrite <- app_assoc.
Qed.

Lemma before_snoc a b l l' : a ∈ l -> before a b (l ++ b :: l').
Proof. intros Hin. by exists l, l'. Qed.

Lemma restart_after_stream_app evs evs' :
  restart_after_stream evs -> EvStartAllSessions ∉ evs' ->
  restart_after_stream (evs ++ evs').
Proof.
  intros Hord Hno pre post Heq.
  apply app_eq_app in Heq as [l [[-> Hl]|[-> Hl]]].
  - destruct l as [|ev l]; simpl in Hl.
    + destruct Hno. rewrite <- Hl. apply list_elem_of_here.
    + injection Hl as <- ->. by apply (Hord pre l).
  - destruct Hno. rewrite Hl. apply elem_of_app. right. apply list_elem_of_here.
Qed.

Lemma teardown_no_restart evs :
  Forall teardown_event evs -> EvStartAllSessions ∉ evs.
Proof. intros Hall Hin. rewrite Forall_forall in Hall. apply (Hall _ Hin). Qed.

Lemma backup_stage_mono e d0 evs evs' w w' t :
  zipFile w' = zipFile w -> disk w' = disk w ->
  backup_stage e d0 evs w t -> backup_stage e d0 (evs ++ evs') w' t.
Proof.
  intros Hz Hd. destruct t; simpl; try done.
  - intros Hst Hfin. destruct (Hst Hfin) as (? & ? & ? & ?).
    rewrite Hd. split_and!; try done.
    apply elem_of_app. by left.
  - intros (? & ? & ? & ?). rewrite Hz. split_and!; try done;
      by apply before_app_r.
Qed.

Lemma backup_queue_mono e d0 evs evs' w w' :
  zipFile w' = zipFile w -> disk w' = disk w -> pending w' = pending w ->
  backup_queue e d0 evs w -> backup_queue e d0 (evs ++ evs') w'.
Proof.
  intros Hz Hd Hq (q & tail & Hp & Hcl & Hst). exists q, tail.
  rewrite Hq. split_and!; [done|done|].
  destruct tail as [|t [|]]; [done| |done]. by apply (backup_stage_mono _ _ _ _ w).
Qed.

Lemma backup_queue_nil e d0 evs w :
  pending w = [] -> backup_queue e d0 evs w.
Proof. intros Hq. exists [], []. by rewrite Hq. Qed.

Lemma stream_end_app (evs evs' : list event) (P : Prop) :
  EvStreamEnd ∉ evs' -> (EvStreamEnd ∈ evs -> P) ->
  EvStreamEnd ∈ evs ++ evs' -> P.
Proof. intros Hno HP [?|?]%elem_of_app; [auto|done]. Qed.

(** A teardown step that leaves the queue as it is keeps the invariant. *)
Lemma teardown_backup_inv e w0 w w' :
  teardown w w' -> pending w' = pending w ->
  backup_inv e w0 w -> backup_inv e w0 w'.
Proof.
  intros [Hd Hz Hr Hp Hc (evs' & Ht & Hev & _) _] Hq
         [(evs & Ht0 & Hord & Hst & Hend) Hun Hpe].
  split; [|by rewrite Hp|by rewrite Hp].
  exists (evs ++ evs'). split_and!.
  - by rewrite Ht, Ht0, <- app_assoc.
  - apply restart_after_stream_app; [done|by apply teardown_no_restart].
  - by apply (backup_queue_mono _ _ _ _ w).
  - rewrite Hr. apply stream_end_app; [|done].
    intros Hin. rewrite Forall_forall in Hev. by apply Hev in Hin.
Qed.

(** The archiver job, run when nothing else is pending. *)
Lemma archive_job_backup_inv e w0 w sources fin :
  backup_inv e w0 w -> pending w = [] ->
  backup_stage e (disk w0) (since w0 w) w (ArchiveJob sources fin) ->
  backup_inv e w0 (exec (run_handler e (ArchiveJob sources fin)) w).
Proof.
  intros [(evs & Ht0 & Hord & _ & Hend) Hun Hpe] Hq Hst.
  unfold run_handler, run_task, archive_job, on_archive_error, on_output_close,
    rmSync, reject, settle. run.
  destruct (fails e IoArchive) eqn:Hfa; simpl.
  - split; simpl.
    + exists (evs ++ [EvLog Error "archiver"]). split_and!.
      * destruct (promise w); simpl; by rewrite Ht0, <- app_assoc.
      * apply restart_after_stream_app; [done|solve_notin].
      * apply backup_queue_nil. by destruct (promise w).
      * apply stream_end_app; [solve_notin|]. by destruct (promise w).
    + destruct (promise w) eqn:Hp; simpl; congruence.
    + congruence.
  - destruct fin; simpl.
    2:{ split; simpl; [|done|auto]. exists evs.
        split_and!; [done|done|by apply backup_queue_nil|done]. }
    destruct (Hst eq_refl) as (Hfin & -> & Hdisk & Hok).
    rewrite (since_app _ _ _ Ht0) in Hfin.
    destruct (disk w !! backupFolder) eqn:Hbf; simpl.
    + split; simpl; [|done|auto].
      exists (evs ++ [EvOutputClose; EvRmSync backupFolder; EvPipe]). split_and!.
      * by rewrite Ht0, <- !app_assoc.
      * apply restart_after_stream_app; [done|solve_notin].
      * exists [], [StreamJob]. simpl. rewrite Hq. split_and!; try done.
        -- by apply (before_snoc _ _ _ [EvRmSync backupFolder; EvPipe]).
        -- exists (evs ++ [EvOutputClose; EvRmSync backupFolder]), [].
           split; [by rewrite <- !app_assoc|].
           apply elem_of_app. right. apply list_elem_of_here.
        -- by rewrite Hdisk.
      * apply stream_end_app; [solve_notin|done].
    + split; simpl; [|done|auto].
      exists (evs ++ [EvOutputClose; EvRmSync backupFolder; EvUncaught "ENOENT"]).
      split_and!.
      * by rewrite Ht0, <- !app_assoc.
      * apply restart_after_stream_app; [done|solve_notin].
      * by apply backup_queue_nil.
      * apply stream_end_app; [solve_notin|done].
Qed.

(** The stream job, run when nothing else is pending. *)
Lemma stream_job_backup_inv e w0 w :
  backup_inv e w0 w -> pending w = [] ->
  backup_stage e (disk w0) (since w0 w) w StreamJob ->
  backup_inv e w0 (exec (run_handler e StreamJob) w).
Proof.
  intros [(evs & Ht0 & Hord & _ & Hend) Hun Hpe] Hq (Hbef & Hpipe & Hzip & Hok).
  rewrite (since_app _ _ _ Ht0) in Hbef, Hpipe.
  unfold run_handler, run_task, stream_job, on_stream_error, on_stream_end,
    startAllSessions, reject, settle. run.
  rewrite Hzip. destruct (fails e IoStream) eqn:Hfs; simpl.
  - split; simpl.
    + exists (evs ++ [EvStreamError; EvLog Info "EIO"]). split_and!.
      * destruct (promise w); simpl; by rewrite Ht0, <- !app_assoc.
      * apply restart_after_stream_app; [done|solve_notin].
      * apply backup_queue_nil. by destruct (promise w).
      * apply stream_end_app; [solve_notin|]. by destruct (promise w).
    + destruct (promise w) eqn:Hp; simpl; congruence.
    + congruence.
  - split; simpl; [|done|auto].
    exists (evs ++ [EvStreamEnd;
      EvLog Info "Sessions successfully backuped. Restarting sessions...";
      EvStartAllSessions; EvResEnd]). split_and!.
    + by rewrite Ht0, <- !app_assoc.
    + intros pre post Heq.
      apply app_eq_app in Heq as [l [[-> Hl]|[-> Hl]]].
      * destruct l as [|ev l]; simpl in Hl; [done|].
        injection Hl as <- ->. by apply (Hord pre l).
      * destruct l as [|e1 [|e2 [|e3 [|e4 [|e5 l]]]]]; simplify_eq/=.
        split_and!.
        -- by apply before_app_r.
        -- by apply before_app_r.
        -- destruct Hpipe as (p1 & p2 & -> & Hin).
           exists (p1 ++ EvPipe :: p2),
             [EvLog Info "Sessions successfully backuped. Restarting sessions..."].
           split; [by rewrite <- !app_assoc|].
           apply elem_of_app. right. apply list_elem_of_here.
    + by apply backup_queue_nil.
    + done.
Qed.

Lemma run_close_task e session ok t w :
  exists w', run_handler e (CloseSettled session ok t) w = (Ok tt, w') /\
             teardown w w' /\ pending w' = pending w.
Proof.
  destruct (after_close_teardown session ok w) as (w' & Hrun & Htd).
  exists w'. split_and!; [|done|].
  - unfold run_handler, run_task, try_catch. by rewrite Hrun.
  - rewrite <- (after_close_pending session ok w). unfold exec. by rewrite Hrun.
Qed.

(** The event loop keeps the invariant of a backup. *)
Lemma drain_backup_inv e w0 fuel : forall w,
  backup_inv e w0 w -> backup_inv e w0 (drain e fuel w).
Proof.
  induction fuel as [|fuel IH]; intros w Hinv; [done|]. simpl.
  destruct (pending w) as [|t rest] eqn:Hq; [done|]. apply IH.
  pose proof Hinv as [(evs & Ht0 & Hord & (q & tail & Hp & Hcl & Hst) & Hend) Hun Hpe].
  rewrite Hq in Hp.
  destruct q as [|c q]; simpl in Hp.
  - destruct tail as [|t' [|]]; [done| |done]. injection Hp as -> ->.
    assert (backup_inv e w0 (set_pending (fun _ => []) w)) as Hmid.
    { split; [|done|done]. exists evs. split_and!; [done|done| |done].
      by apply backup_queue_nil. }
    destruct t' as [session ok t|sources fin| |up]; simpl in Hst.
    + destruct (run_close_task e session ok t (set_pending (fun _ => []) w))
        as (w' & Hrun & Htd & Hq').
      unfold exec. rewrite Hrun. by eapply teardown_backup_inv.
    + apply archive_job_backup_inv; [done|done|].
      by rewrite (since_app _ (set_pending (fun _ => []) w) evs).
    + apply stream_job_backup_inv; [done|done|].
      by rewrite (since_app _ (set_pending (fun _ => []) w) evs).
    + done.
  - injection Hp as -> ->. apply Forall_cons in Hcl as [Hc Hcl].
    destruct c as [session ok t| | |]; try done.
    destruct (run_close_task e session ok t (set_pending (fun _ => q ++ tail) w))
      as (w' & Hrun & Htd & Hq').
    unfold exec. rewrite Hrun. eapply teardown_backup_inv; [done|done|].
    split; [|done|done]. exists evs. split_and!; [done|done| |done].
    exists q, tail. split_and!; [done|done|].
    destruct tail as [|t' [|]]; [done| |done]. by destruct t'.
Qed.

(** [cpSync] in terms of worlds. *)
Lemma cpSync_run src dst force w :
  cpSync src dst force w =
  let w1 := set_trace (fun t => t ++ [EvCpSync src dst force]) w in
  match lookup_path (disk w) src with
  | None => (Throw "ENOENT", w1)
  | Some s =>
      if decide (src = (dst, [])) then (Throw "ERR_FS_CP_EINVAL", w1)
      else (if (cp force s (disk w !! dst)).2 then Ok tt
            else Throw "ERR_FS_CP_DIR_TO_NON_DIR",
            set_disk (insert dst (cp force s (disk w !! dst)).1) w1)
  end.
Proof.
  unfold cpSync. run. destruct (lookup_path (disk w) src) as [s|]; [|done].
  case_decide; [done|].
  by destruct (cp force s (disk w !! dst)) as [r [|]].
Qed.

(** [backupSessions] returns its promise and establishes the invariant. *)
Lemma backupSessions_backup_inv e w :
  pending w = [] ->
  exists w1, backupSessions e w = (Ok tt, w1) /\ backup_inv e w w1.
Proof.
  intros Hq. unfold backupSessions, backup_executor. run.
  destruct (closeAllSessions_teardown e (set_promise Pending w))
    as (w1 & Hclose & Htd & _).
  rewrite Hclose.
  destruct Htd as [Hd Hz Hr Hp Hc (evs & Ht0 & Hev & _) Hqs]. simpl in *.
  assert (Forall is_close_task (pending w1)) as Hcl.
  { apply Forall_forall. intros t Ht. destruct (Hqs t Ht) as [Hin|?]; [|done].
    rewrite Hq in Hin. by apply elem_of_nil in Hin. }
  assert (restart_after_stream evs) as Hord.
  { intros pre post ->. apply teardown_no_restart in Hev. destruct Hev.
    apply elem_of_app. right. apply list_elem_of_here. }
  assert (EvStreamEnd ∉ evs) as Hno.
  { intros Hin. rewrite Forall_forall in Hev. by apply Hev in Hin. }
  rewrite cpSync_run. cbv zeta. simpl.
  destruct (lookup_path (disk w1) (userDataDir e, [])) as [s|] eqn:Hs; simpl;
    [case_decide as Hself; simpl;
       [|destruct (cp true s (disk w1 !! backupFolder)) as [r [|]] eqn:Hcp; simpl]| ];
    (eexists; split; [reflexivity|]);
    (split; simpl; [|congruence|intros; congruence]).
  - exists (evs ++ [EvCpSync (userDataDir e, []) backupFolder true;
                    EvUncaught "ERR_FS_CP_EINVAL"]).
    split_and!; [by rewrite Ht0, <- !app_assoc| | |].
    + apply restart_after_stream_app; [done|solve_notin].
    + exists (pending w1), [ArchiveJob [(tokensDir, "tokens")] false].
      simpl. by rewrite on_last_snoc.
    + intros [?|Hin]%elem_of_app; [done|]. revert Hin. solve_notin.
  - exists (evs ++ [EvCpSync (userDataDir e, []) backupFolder true; EvFinalize]).
    split_and!; [by rewrite Ht0, <- !app_assoc| | |].
    + apply restart_after_stream_app; [done|solve_notin].
    + exists (pending w1), [ArchiveJob backup_sources true].
      split_and!; [simpl; by rewrite !on_last_snoc|done|].
      simpl. intros _. split_and!.
      * apply elem_of_app. right.
        apply list_elem_of_further, list_elem_of_here.
      * done.
      * unfold staged, copied. rewrite <- Hd, Hs.
        rewrite decide_False by done. by rewrite Hcp.
      * unfold staged_ok, copy_ok. rewrite <- Hd, Hs.
        rewrite decide_False by done. by rewrite Hcp.
    + intros [?|Hin]%elem_of_app; [done|]. revert Hin. solve_notin.
  - exists (evs ++ [EvCpSync (userDataDir e, []) backupFolder true;
                    EvUncaught "ERR_FS_CP_DIR_TO_NON_DIR"]).
    split_and!; [by rewrite Ht0, <- !app_assoc| | |].
    + apply restart_after_stream_app; [done|solve_notin].
    + exists (pending w1), [ArchiveJob [(tokensDir, "tokens")] false].
      simpl. by rewrite on_last_snoc.
    + intros [?|Hin]%elem_of_app; [done|]. revert Hin. solve_notin.
  - exists (evs ++ [EvCpSync (userDataDir e, []) backupFolder true;
                    EvUncaught "ENOENT"]).
    split_and!; [by rewrite Ht0, <- !app_assoc| | |].
    + apply restart_after_stream_app; [done|solve_notin].
    + exists (pending w1), [ArchiveJob [(tokensDir, "tokens")] false].
      simpl. by rewrite on_last_snoc.
    + intros [?|Hin]%elem_of_app; [done|]. revert Hin. solve_notin.
Qed.

(** A whole backup, when nothing else is pending, ends with an empty queue
    and with the invariant. *)
Lemma backupSessions_complete e w :
  pending w = [] ->
  backup_inv e w (complete e (backupSessions e) w).
Proof.
  intros Hq. destruct (backupSessions_backup_inv e w Hq) as (w1 & Hrun & Hinv).
  unfold complete, exec. rewrite Hrun. by apply drain_backup_inv.
Qed.

End BackupFacts.

(** * The event loop runs dry *)

Section LoopFacts.

Lemma try_cpSync_run src dst force msg w :
  try_catch (cpSync src dst force) (fun _ => log Info msg) w =
  let w1 := set_trace (fun t => t ++ [EvCpSync src dst force]) w in
  match lookup_path (disk w) src with
  | None => (Ok tt, set_trace (fun t => t ++ [EvLog Info msg]) w1)
  | Some s =>
      if decide (src = (dst, []))
      then (Ok tt, set_trace (fun t => t ++ [EvLog Info msg]) w1)
      else if (cp force s (disk w !! dst)).2
           then (Ok tt, set_disk (insert dst (cp force s (disk w !! dst)).1) w1)
           else (Ok tt, set_trace (fun t => t ++ [EvLog Info msg])
                          (set_disk (insert dst (cp force s (disk w !! dst)).1) w1))
  end.
Proof.
  unfold try_catch. rewrite cpSync_run. cbv zeta.
  destruct (lookup_path (disk w) src) as [s|]; [|done].
  case_decide; [done|]. by destruct (cp force s (disk w !! dst)).2.
Qed.

(** A caught [cpSync] in terms of disks and events. *)
Lemma try_cpSync_copied src dst force msg w :
  exists w', try_catch (cpSync src dst force) (fun _ => log Info msg) w
             = (Ok tt, w') /\
    disk w' = copied src dst force (disk w) /\
    trace w' = trace w ++ [EvCpSync src dst force] ++
               (if copy_ok src dst force (disk w) then []
                else [EvLog Info msg]) /\
    clientsArray w' = clientsArray w /\ pending w' = pending w /\
    promise w' = promise w /\ zipFile w' = zipFile w /\
    response w' = response w.
Proof.
  rewrite try_cpSync_run. unfold copied, copy_ok. cbv zeta.
  destruct (lookup_path (disk w) src) as [s|];
    [case_decide; [|destruct (cp force s (disk w !! dst)).2]|];
    (eexists; split; [reflexivity|]); simpl;
    rewrite <- ?app_assoc; split_and!; done.
Qed.

(** The merge never throws; its disk, its events, and what it leaves
    alone. *)
Lemma on_extract_close_run e w :
  exists w', on_extract_close e w = (Ok tt, w') /\
    disk w' = merged e (disk w) /\
    trace w' = trace w ++ merge_events e (disk w) /\
    clientsArray w' = clientsArray w /\ pending w' = pending w /\
    promise w' = promise w /\ zipFile w' = zipFile w /\
    response w' = response w.
Proof.
  unfold on_extract_close, startAllSessions, merged, merge_events.
  destruct (try_cpSync_copied (tokens_copy e).1 (tokens_copy e).2 true
              "Folder 'tokens' not found." w)
    as (w1 & Hrun1 & Hd1 & Ht1 & Hc1 & Hq1 & Hp1 & Hz1 & Hr1).
  destruct (try_cpSync_copied (userData_copy e).1 (userData_copy e).2 false
              "Folder 'userDataDir' not found." w1)
    as (w2 & Hrun2 & Hd2 & Ht2 & Hc2 & Hq2 & Hp2 & Hz2 & Hr2).
  simpl in Hrun1, Hrun2.
  unfold mbind at 1, M_bind at 1. rewrite Hrun1.
  unfold mbind at 1, M_bind at 1. rewrite Hrun2.
  run. eexists. split; [reflexivity|]. simpl.
  rewrite Hd2, Hd1, Ht2, Ht1, Hd1, Hc2, Hq2, Hp2, Hz2, Hr2.
  rewrite <- !app_assoc. split_and!; done.
Qed.

Lemma on_extract_close_pending e w :
  exists w', on_extract_close e w = (Ok tt, w') /\ pending w' = pending w.
Proof.
  destruct (on_extract_close_run e w) as (w' & ? & _ & _ & _ & ? & _). eauto.
Qed.

(** [extract_job] in terms of worlds. *)
Lemma extract_job_run e a w :
  extract_job e (Some a) w =
  let x := extract_into a (disk w !! at_cwd e "restore") in
  let w1 :=
    set_disk (fun d => match x.1 with
                       | Some n => <[at_cwd e "restore" := n]> d
                       | None => d
                       end)
      (set_trace (fun t => t ++ [EvExtract]) w) in
  if x.2
  then on_extract_close e (set_trace (fun t => t ++ [EvExtractClose]) w1)
  else (Ok tt, set_trace (fun t => t ++ [EvExtractError]) w1).
Proof.
  unfold extract_job. run.
  by destruct (extract_into a (disk w !! at_cwd e "restore")) as [r [|]].
Qed.

(** What a callback leaves in the queue weighs less than the callback. *)
Lemma run_handler_pending e t w :
  exists new, pending (exec (run_handler e t) w) = pending w ++ new /\
              sum_list_with weight new < weight t.
Proof.
  destruct t as [session ok t|sources fin| |up].
  - exists []. rewrite app_nil_r. split; [|simpl; lia].
    unfold run_handler, run_task, after_close, delete_client. run.
    by destruct ok.
  - unfold run_handler, run_task, archive_job, on_archive_error, on_output_close,
      rmSync, reject, settle. run.
    destruct (fails e IoArchive); simpl.
    + exists []. rewrite app_nil_r. split; [|simpl; lia]. by destruct (promise w).
    + destruct fin; simpl.
      2:{ exists []. rewrite app_nil_r. split; [done|simpl; lia]. }
      destruct (disk w !! backupFolder); simpl.
      * exists [StreamJob]. split; [done|simpl; lia].
      * exists []. rewrite app_nil_r. split; [done|simpl; lia].
  - exists []. rewrite app_nil_r. split; [|simpl; lia].
    unfold run_handler, run_task, stream_job, on_stream_error, on_stream_end,
      startAllSessions, reject, settle. run.
    destruct (zipFile w); [destruct (fails e IoStream)|]; simpl;
      try done; by destruct (promise w).
  - exists []. rewrite app_nil_r. split; [|simpl; lia].
    unfold run_handler, run_task, exec, try_catch.
    destruct up as [a|]; [|done].
    rewrite extract_job_run. cbv zeta.
    destruct (extract_into a (disk w !! at_cwd e "restore")).2; [|done].
    match goal with |- context [on_extract_close e ?w1] =>
      destruct (on_extract_close_pending e w1) as (w' & -> & Hq) end.
    simpl. by rewrite Hq.
Qed.

Lemma drain_quiescent e fuel : forall w,
  sum_list_with weight (pending w) <= fuel -> pending (drain e fuel w) = [].
Proof.
  induction fuel as [|fuel IH]; intros w Hw; simpl.
  - destruct (pending w) as [|t q]; [done|]. simpl in Hw. destruct t; simpl in Hw; lia.
  - destruct (pending w) as [|t q] eqn:Hq; [done|]. apply IH.
    destruct (run_handler_pending e t (set_pending (fun _ => q) w))
      as (new & -> & Hnew).
    simpl in *. rewrite sum_list_with_app. lia.
Qed.

(** After the event loop nothing is pending. *)
Lemma event_loop_quiescent e w : pending (event_loop e w) = [].
Proof. by apply drain_quiescent. Qed.

End LoopFacts.

(** * Facts about restoreSessions *)

Section RestoreFacts.

Lemma drain_enough e fuel1 : forall fuel2 w,
  sum_list_with weight (pending w) <= fuel1 ->
  sum_list_with weight (pending w) <= fuel2 ->
  drain e fuel1 w = drain e fuel2 w.
Proof.
  induction fuel1 as [|fuel1 IH]; intros fuel2 w H1 H2.
  - destruct (pending w) as [|t q] eqn:Hq.
    + destruct fuel2; simpl; by rewrite ?Hq.
    + simpl in H1. destruct t; simpl in H1; lia.
  - destruct (pending w) as [|t q] eqn:Hq.
    + destruct fuel2; simpl; by rewrite ?Hq.
    + destruct fuel2 as [|fuel2]; [simpl in H2; destruct t; simpl in H2; lia|].
      simpl. rewrite Hq.
      destruct (run_handler_pending e t (set_pending (fun _ => q) w))
        as (new & Hnew & Hlt).
      simpl in *. apply IH; rewrite Hnew, sum_list_with_app; lia.
Qed.

Lemma event_loop_nil e w : pending w = [] -> event_loop e w = w.
Proof. unfold event_loop. intros ->. done. Qed.

Lemma event_loop_cons e w t q :
  pending w = t :: q ->
  event_loop e w =
  event_loop e (exec (run_handler e t) (set_pending (fun _ => q) w)).
Proof.
  unfold event_loop. intros Hq. rewrite Hq.
  destruct (run_handler_pending e t (set_pending (fun _ => q) w))
    as (new & Hnew & Hlt).
  simpl in *.
  destruct (weight t + sum_list_with weight q) as [|fuel] eqn:Hf;
    [destruct t; simpl in Hf; lia|].
  simpl. rewrite Hq. apply drain_enough; rewrite Hnew, sum_list_with_app; lia.
Qed.

(** The event loop first runs the close continuations at the head of the
    queue. *)
Lemma event_loop_closes e q : forall w rest,
  Forall is_close_task q -> pending w = q ++ rest ->
  exists w', event_loop e w = event_loop e w' /\ teardown w w' /\
             pending w' = rest.
Proof.
  induction q as [|t q IH]; intros w rest Hall Hq.
  - exists w. split_and!; [done|apply teardown_refl|done].
  - apply Forall_cons in Hall as [Ht Hall]. destruct t as [s ok t| | |]; try done.
    simpl in Hq.
    destruct (run_close_task e s ok t (set_pending (fun _ => q ++ rest) w))
      as (w1 & Hrun & Htd & Hq1).
    simpl in Hq1.
    destruct (IH w1 rest Hall Hq1) as (w2 & Hloop & Htd2 & Hq2).
    exists w2. split_and!; [| |done].
    + rewrite (event_loop_cons e w _ _ Hq). unfold exec. by rewrite Hrun.
    + eapply teardown_trans; [|eapply teardown_trans; [apply Htd|apply Htd2]].
      split; simpl; try done.
      * exists []. rewrite app_nil_r. split_and!; [done|done|].
        by apply closes_after_delete_quiet.
      * intros t' Ht'. left. rewrite Hq. by apply list_elem_of_further.
Qed.

(** [restoreSessions] on a zip upload: the teardown, then the extraction is
    scheduled and the acknowledgment returned. *)
Lemma restoreSessions_run e file w :
  is_zip file = true ->
  exists w1, restoreSessions e file w
             = (Ok {| success := true; message := None |},
                set_pending (fun q => q ++ [ExtractJob (file ≫= upload)]) w1) /\
             teardown w w1.
Proof.
  intros Hzip. unfold restoreSessions. rewrite Hzip. run.
  destruct (closeAllSessions_teardown e
    (set_trace (fun t => t ++ [EvLog Info "Starting restore sessions..."]) w))
    as (w1 & -> & Htd & _).
  exists w1. split; [done|]. eapply teardown_trans; [|apply Htd].
  split; simpl; try done; [|auto].
  eexists [_]. split_and!; [done|by repeat constructor|].
  apply closes_after_delete_quiet. by repeat constructor.
Qed.

(** The extraction callback in terms of disks and events. *)
Lemma run_extract_job e up w :
  exists w', run_handler e (ExtractJob up) w = (Ok tt, w') /\
    disk w' = (if extracts e up (disk w)
               then merged e (extracted e (default [] up) (disk w))
               else match up with
                    | Some a => extracted e a (disk w)
                    | None => disk w
                    end) /\
    trace w' = trace w ++ EvExtract ::
               (if extracts e up (disk w)
                then EvExtractClose ::
                     merge_events e (extracted e (default [] up) (disk w))
                else [EvExtractError]) /\
    clientsArray w' = clientsArray w /\ pending w' = pending w /\
    promise w' = promise w /\ zipFile w' = zipFile w /\
    response w' = response w.
Proof.
  unfold run_handler, run_task, try_catch. destruct up as [a|]; simpl.
  - rewrite extract_job_run. cbv zeta. unfold extracted.
    destruct (extract_into a (disk w !! at_cwd e "restore")) as [r [|]]; simpl.
    + match goal with |- context [on_extract_close e ?w1] =>
        destruct (on_extract_close_run e w1)
          as (w' & -> & Hd & Ht & Hc & Hq & Hp & Hz & Hr) end.
      exists w'. simpl in *. rewrite Hd, Ht, Hc, Hq, Hp, Hz, Hr.
      rewrite <- !app_assoc. split_and!; done.
    + eexists. split; [reflexivity|]. simpl.
      rewrite <- !app_assoc. split_and!; done.
  - unfold extract_job. run. eexists. split; [reflexivity|]. simpl.
    rewrite <- !app_assoc. split_and!; done.
Qed.

(** A whole restore, when nothing else is pending: the acknowledgment
    after a teardown, further close continuations, and then the extraction
    callback, on the disk of the start. *)
Lemma restoreSessions_complete e file w :
  is_zip file = true -> pending w = [] ->
  exists w2 evs,
    complete e (restoreSessions e file) w
    = exec (run_handler e (ExtractJob (file ≫= upload))) w2 /\
    disk w2 = disk w /\ pending w2 = [] /\
    trace w2 = trace w ++ evs /\ Forall teardown_event evs.
Proof.
  intros Hzip Hq.
  destruct (restoreSessions_run e file w Hzip) as (w1 & Hrun & Htd).
  assert (Forall is_close_task (pending w1)) as Hcl.
  { apply Forall_forall. intros t Ht.
    destruct (td_pending _ _ Htd t Ht) as [Hin|?]; [|done].
    rewrite Hq in Hin. by apply elem_of_nil in Hin. }
  destruct (event_loop_closes e (pending w1)
    (set_pending (fun q => q ++ [ExtractJob (file ≫= upload)]) w1)
    [ExtractJob (file ≫= upload)] Hcl eq_refl) as (w2 & Hloop & Htd2 & Hq2).
  destruct Htd as [Hd1 _ _ _ _ (evs1 & Ht1 & Hev1 & _) _].
  destruct Htd2 as [Hd2 _ _ _ _ (evs2 & Ht2 & Hev2 & _) _]. simpl in *.
  exists (set_pending (fun _ => []) w2), (evs1 ++ evs2). split_and!.
  - unfold complete, exec at 1. rewrite Hrun. simpl. rewrite Hloop.
    rewrite (event_loop_cons e w2 _ _ Hq2). apply event_loop_nil.
    destruct (run_extract_job e (file ≫= upload) (set_pending (fun _ => []) w2))
      as (w3 & Hrun3 & _ & _ & _ & Hq3 & _).
    unfold exec. by rewrite Hrun3.
  - simpl. congruence.
  - done.
  - simpl. by rewrite Ht2, Ht1, <- app_assoc.
  - by apply Forall_app.
Qed.

(** The events and the disk of a whole restore. *)
Lemma restoreSessions_outcome e file w :
  is_zip file = true -> pending w = [] ->
  let w' := complete e (restoreSessions e file) w in
  let up := file ≫= upload in
  exists evs, Forall teardown_event evs /\
    since w w' = evs ++ EvExtract ::
      (if extracts e up (disk w)
       then EvExtractClose :: merge_events e (extracted e (default [] up) (disk w))
       else [EvExtractError]) /\
    disk w' = (if extracts e up (disk w)
               then merged e (extracted e (default [] up) (disk w))
               else match up with
                    | Some a => extracted e a (disk w)
                    | None => disk w
                    end).
Proof.
  intros Hzip Hq w' up. subst w' up.
  destruct (restoreSessions_complete e file w Hzip Hq)
    as (w2 & evs & -> & Hd & _ & Ht & Hev).
  destruct (run_extract_job e (file ≫= upload) w2)
    as (w3 & Hrun & Hd3 & Ht3 & _).
  unfold exec. rewrite Hrun. simpl. exists evs. split_and!; [done| |].
  - apply since_app. by rewrite Ht3, Ht, Hd, <- app_assoc.
  - by rewrite Hd3, Hd.
Qed.

(** A restore whose extraction has closed. *)
Lemma restoreSessions_closed e file w :
  is_zip file = true -> pending w = [] ->
  let w' := complete e (restoreSessions e file) w in
  EvExtractClose ∈ since w w' ->
  exists a, file ≫= upload = Some a /\
    extracts e (Some a) (disk w) = true /\
    disk w' = merged e (extracted e a (disk w)) /\
    (EvLog Info "Folder 'tokens' not found." ∉ since w w' ->
     copy_ok (tokens_copy e).1 (tokens_copy e).2 true (extracted e a (disk w))
     = true).
Proof.
  intros Hzip Hq w' Hclose.
  destruct (restoreSessions_outcome e file w Hzip Hq) as (evs & Hev & Hs & Hd).
  fold w' in Hs, Hd. rewrite Hs in Hclose |- *.
  destruct (extracts e (file ≫= upload) (disk w)) eqn:Hex.
  - destruct (file ≫= upload) as [a|]; [|done]. exists a. simpl in *.
    split_and!; [done|done|done|].
    intros Hlog. unfold merge_events in Hlog.
    destruct (copy_ok _ _ true _); [done|]. destruct Hlog.
    apply elem_of_app. right. simpl.
    do 3 apply list_elem_of_further. apply list_elem_of_here.
  - apply elem_of_app in Hclose as [Hin|Hin].
    + rewrite Forall_forall in Hev. by apply Hev in Hin.
    + repeat (apply elem_of_cons in Hin as [Hin|Hin]; [discriminate Hin|]).
      by apply elem_of_nil in Hin.
Qed.

End RestoreFacts.

(** * Facts about disks *)

Section DiskFacts.

#[local] Arguments cp : simpl never.


Lemma wf_disk_insert p n d : wf n -> wf_disk d -> wf_disk (<[p := n]> d).
Proof.
  intros Hn Hd q m. rewrite lookup_insert. case_decide; [|apply Hd].
  by intros [= <-].
Qed.

Lemma wf_disk_empty : wf_disk ∅.
Proof. intros p n. by rewrite lookup_empty. Qed.

Lemma wf_disk_lookup d p : wf_disk d -> wf_opt (d !! p).
Proof. intros Hd. unfold wf_opt. destruct (d !! p) eqn:H; [by eapply Hd|done]. Qed.

Lemma wf_child x es c : wf (Dir es) -> child x es = Some c -> wf c.
Proof.
  intros Hwf Hc. inversion Hwf as [|? _ Hall]; subst.
  rewrite Forall_forall in Hall. apply (Hall _ (child_Some_elem _ _ _ Hc)).
Qed.

Lemma wf_get p : forall n c, wf n -> get p n = Some c -> wf c.
Proof.
  induction p as [|x p IH]; intros n c Hwf; simpl.
  - by intros [= <-].
  - destruct n as [d|es]; [done|].
    destruct (child x es) as [m|] eqn:Hx; [|done].
    apply IH. by eapply wf_child.
Qed.

Lemma wf_disk_lookup_path d l s :
  wf_disk d -> lookup_path d l = Some s -> wf s.
Proof.
  unfold lookup_path. intros Hd. destruct (d !! l.1) as [n|] eqn:Hn; [|done].
  simpl. apply wf_get. by eapply Hd.
Qed.

Lemma file_at_get q : forall n s p,
  get q n = Some s -> file_at n (q ++ p) = file_at s p.
Proof.
  unfold file_at. induction q as [|x q IH]; intros n s p; simpl.
  - by intros [= <-].
  - destruct n as [d|es]; [done|]. destruct (child x es); [apply IH|done].
Qed.

Lemma copied_other src dst force d p :
  p ≠ dst -> copied src dst force d !! p = d !! p.
Proof.
  intros Hne. unfold copied. destruct (lookup_path d src); [|done].
  case_decide; [done|]. by rewrite lookup_insert_ne.
Qed.


(** Without [force] the files of the destination stay. *)
Lemma copied_keep src dst d p c :
  file_in (d !! dst) p = Some c ->
  file_in (copied src dst false d !! dst) p = Some c.
Proof.
  intros Hf. unfold copied. destruct (lookup_path d src) as [s|]; [|done].
  case_decide; [done|]. rewrite lookup_insert_eq. simpl.
  destruct (cp false s (d !! dst)) as [r ok] eqn:Hcp.
  by eapply cp_keep_destination.
Qed.

(** Without [force] no file of the disk is lost or changed. *)
Lemma copied_keep_files src dst d q p c :
  file_in (d !! q) p = Some c ->
  file_in (copied src dst false d !! q) p = Some c.
Proof.
  intros Hf. destruct (decide (q = dst)) as [->|Hne].
  - by apply copied_keep.
  - by rewrite copied_other.
Qed.


Lemma extracted_other e a d p :
  p ≠ at_cwd e "restore" -> extracted e a d !! p = d !! p.
Proof.
  intros Hne. unfold extracted.
  destruct (extract_into a (d !! at_cwd e "restore")).1; [|done].
  by rewrite lookup_insert_ne.
Qed.

Lemma wf_disk_extracted e a d :
  wf (Dir a) -> wf_disk d -> wf_disk (extracted e a d).
Proof.
  intros Ha Hd. unfold extracted, extract_into.
  destruct a as [|x a]; simpl.
  - destruct (d !! at_cwd e "restore") eqn:Hr; [|done].
    apply wf_disk_insert; [by eapply Hd|done].
  - pose proof (cp_wf true (Dir (x :: a)) (d !! at_cwd e "restore") Ha
                  (wf_disk_lookup _ _ Hd)) as Hwf.
    destruct (cp true (Dir (x :: a)) (d !! at_cwd e "restore")).
    by apply wf_disk_insert.
Qed.

(** The files of the archive are below the extraction directory when the
    extraction has closed. *)
Lemma extracted_files e a d q c :
  wf (Dir a) -> extracts e (Some a) d = true ->
  file_at (Dir a) q = Some c ->
  file_in (extracted e a d !! at_cwd e "restore") q = Some c.
Proof.
  intros Ha Hok Hf. unfold extracted, extracts, extract_into in *.
  destruct a as [|x a].
  { destruct q; [done|]. by rewrite file_at_Dir in Hf. }
  destruct (cp true (Dir (x :: a)) (d !! at_cwd e "restore")) as [r ok] eqn:Hcp.
  simpl in *. subst ok. rewrite lookup_insert_eq. simpl.
  by eapply cp_force_source.
Qed.

Lemma lookup_path_file_in d pl q p :
  file_in (lookup_path d (pl, q)) p = file_in (d !! pl) (q ++ p).
Proof.
  unfold lookup_path. simpl. destruct (d !! pl) as [n|]; [|done]. simpl.
  destruct (get q n) as [s|] eqn:Hq.
  - simpl. symmetry. by apply file_at_get.
  - simpl. unfold file_at. revert n Hq.
    induction q as [|x q IH]; intros n Hq; simpl in *; [done|].
    destruct n as [?|es]; [done|]. destruct (child x es); [by apply IH|done].
Qed.

End DiskFacts.

(** * Facts about archives and copies into empty stores *)

Section ArchiveFacts.

#[local] Arguments cp : simpl never.












End ArchiveFacts.

(** * Copies never remove a file *)

Section CopyFacts.

(** A file of the destination is still a file after the copy, whether it
    returned or threw: with its bytes, or, with [force], with the bytes the
    source has at this path. *)
Lemma cp_destination_files force src : forall dst r ok p c,
  wf src -> cp force src dst = (r, ok) -> file_in dst p = Some c ->
  file_at r p = Some c \/
  (force = true /\
   exists c', file_at src p = Some c' /\ file_at r p = Some c').
Proof.
  induction src as [d|es IH] using node_ind; intros dst r ok p c Hwf Hcp Hf.
  - simpl in Hcp. destruct dst as [[d'|ds]|]; [| |done].
    + simpl in Hf. apply file_at_File in Hf as [-> ->].
      injection Hcp as <- _. destruct force; [right|by left].
      split; [done|]. by exists d.
    + injection Hcp as <- _. by left.
  - rewrite cp_Dir in Hcp. destruct dst as [[d'|ds]|]; [| |done].
    { injection Hcp as <- _. by left. }
    destruct (cp_entries force es ds) as [ds' ok'] eqn:He.
    injection Hcp as <- _. simpl in Hf.
    destruct p as [|x p]; [done|]. rewrite !file_at_Dir. rewrite file_at_Dir in Hf.
    inversion Hwf as [|? Hnd Hall]; subst. clear Hwf.
    revert ds ds' ok' He Hf.
    induction es as [|[k s] es IHes]; intros ds ds' ok' He Hf; simpl in He.
    + injection He as <- _. by left.
    + inversion IH as [|? ? IHs IHrest]; subst.
      inversion Hall as [|? ? Hs Hrest]; subst. simpl in IHs, Hs.
      apply NoDup_cons in Hnd as [Hk Hnd].
      destruct (cp force s (child k ds)) as [r0 ok0] eqn:Hc.
      destruct (decide (k = x)) as [->|Hne].
      * assert (child x ds' = Some r0) as Hx.
        { destruct ok0.
          - rewrite (cp_entries_child_other force x es _ _ _ He Hk).
            apply child_put_eq.
          - injection He as <- _. apply child_put_eq. }
        rewrite Hx. simpl. rewrite decide_True by done. simpl.
        by apply (IHs _ _ _ _ _ Hs Hc).
      * simpl. rewrite decide_False by done.
        assert (file_in (child x (put k r0 ds)) p = Some c) as Hput
          by by rewrite child_put_ne.
        destruct ok0.
        -- by apply (IHes IHrest Hnd Hrest _ _ _ He).
        -- injection He as <- _. by left.
Qed.

Lemma copied_destination_files src dst force d p c :
  wf_disk d -> file_in (d !! dst) p = Some c ->
  file_in (copied src dst force d !! dst) p = Some c \/
  (force = true /\
   exists c', file_in (lookup_path d src) p = Some c' /\
              file_in (copied src dst force d !! dst) p = Some c').
Proof.
  intros Hd Hf. unfold copied.
  destruct (lookup_path d src) as [s|] eqn:Hs; [|by left].
  case_decide; [by left|]. rewrite lookup_insert_eq. simpl.
  destruct (cp force s (d !! dst)) as [r ok] eqn:Hcp. simpl.
  eapply cp_destination_files; [by eapply wf_disk_lookup_path|done|done].
Qed.



End CopyFacts.

(** * restoreSessions: validation and acknowledgment *)

Section RestoreClaims.

(** C3. An upload whose declared content type does not contain [zip] (or
    that has none, or that is missing) makes [restoreSessions] throw at
    once: no teardown, no file-system call, no event; the world, with the
    registry and both stores, is the one before the call. *)
Theorem restoreSessions_rejects_other_types e file w :
  is_zip file = false ->
  restoreSessions e file w = (Throw "Please, send zipped file", w).
Proof. intros Hzip. unfold restoreSessions. by rewrite Hzip. Qed.

(** C6. On a zip upload [restoreSessions] returns [{success: true}] with
    the extraction scheduled and nothing merged or restarted: the disk is
    unchanged and only teardown events were emitted.  The copies into the
    stores and the restart are events of the scheduled callback, whenever
    it runs and its extraction closes. *)
Theorem restoreSessions_acknowledges_before_merge e file w :
  is_zip file = true ->
  exists w1,
    restoreSessions e file w
    = (Ok {| success := true; message := None |}, w1) /\
    disk w1 = disk w /\
    Forall teardown_event (since w w1) /\
    ExtractJob (file ≫= upload) ∈ pending w1 /\
    forall w2,
      since w2 (exec (run_handler e (ExtractJob (file ≫= upload))) w2)
      = EvExtract ::
        (if extracts e (file ≫= upload) (disk w2)
         then EvExtractClose ::
              merge_events e
                (extracted e (default [] (file ≫= upload)) (disk w2))
         else [EvExtractError]).
Proof.
  intros Hzip.
  destruct (restoreSessions_run e file w Hzip) as (w1 & Hrun & Htd).
  eexists. split; [apply Hrun|].
  destruct Htd as [Hd _ _ _ _ (evs & Ht & Hev & _) _]. split_and!.
  - done.
  - by rewrite (since_app w _ evs).
  - simpl. apply elem_of_app. right. apply list_elem_of_here.
  - intros w2.
    destruct (run_extract_job e (file ≫= upload) w2) as (w3 & Hrun3 & _ & Ht3 & _).
    unfold exec. rewrite Hrun3. by apply since_app.
Qed.

End RestoreClaims.

(** * backupSessions: restart order and the promise *)

Section BackupClaims.

(** C5. In a whole run of [backupSessions], every call of
    [startAllSessions] comes after [archive.finalize()], after the close of
    the write stream of the zip file, after the pipe of its read stream
    into the response, and after the end of that read stream, in this
    order; by then the response holds the archive of the stores.  The run
    leaves nothing pending. *)
Theorem backupSessions_restarts_after_stream e w :
  pending w = [] ->
  let w' := complete e (backupSessions e) w in
  pending w' = [] /\
  restart_after_stream (since w w') /\
  (EvStartAllSessions ∈ since w w' ->
   response w' = Some (backup_archive e (disk w))).
Proof.
  intros Hq w'. split; [apply event_loop_quiescent|].
  destruct (backupSessions_complete e w Hq) as [(evs & Ht & Hord & _ & Hend) _ _].
  fold w' in Ht, Hend. rewrite (since_app _ _ _ Ht). split; [done|].
  intros (pre & post & ->)%list_elem_of_split.
  destruct (Hord pre post eq_refl) as (_ & _ & (p1 & p2 & -> & _)).
  apply Hend. rewrite <- app_assoc. apply elem_of_app. right.
  apply list_elem_of_here.
Qed.

(** C9. The promise of [backupSessions] is never fulfilled; when neither
    the archiver nor the read stream fails it is still pending after the
    whole run, and a rejected promise means that one of them failed. *)
Theorem backupSessions_never_resolves e w :
  pending w = [] ->
  let w' := complete e (backupSessions e) w in
  promise w' <> Fulfilled /\
  (fails e IoArchive = false -> fails e IoStream = false ->
   promise w' = Pending) /\
  (forall err, promise w' = Rejected err ->
               fails e IoArchive = true \/ fails e IoStream = true).
Proof.
  intros Hq w'.
  destruct (backupSessions_complete e w Hq) as [_ Hun Hpe]. fold w' in Hun, Hpe.
  split_and!; [done|done|].
  intros err Herr. destruct (fails e IoArchive) eqn:Ha; [by left|].
  destruct (fails e IoStream) eqn:Hs; [by right|].
  rewrite Hpe in Herr; done.
Qed.

End BackupClaims.

(** * A server started from its project root *)

(** The two ways in which the module names the tokens directory and the
    extraction directory then name the same directories. *)
Section AtProjectRoot.

Context (e : env).
Hypothesis Hroot : cwd_is_root e = true.

Lemma cwd_tokens : at_cwd e "tokens" = tokensDir.
Proof. unfold at_cwd, tokensDir, at_root. simpl. by rewrite Hroot. Qed.

Lemma cwd_restore : at_cwd e "restore" = at_root "restore".
Proof. unfold at_cwd, at_root. simpl. by rewrite Hroot. Qed.

(** The two copies remove no file of the Token Store: a file that was
    there before the extraction is a file afterwards, with the bytes it had
    or with the bytes that the [restore] directory holds for it below
    [tokens]. *)
Lemma merged_token_file (a : archive) d p c :
  wf_disk d -> wf (Dir a) -> file_in (d !! tokensDir) p = Some c ->
  let d' := merged e (extracted e a d) in
  file_in (d' !! tokensDir) p = Some c \/
  exists c',
    file_in (d' !! at_root "restore") ("tokens" :: p) = Some c' /\
    file_in (d' !! tokensDir) p = Some c'.
Proof.
  intros Hd Ha Hf d'. subst d'.
  pose proof cwd_tokens as Htok. pose proof cwd_restore as Hres.
  assert (at_root "restore" ≠ tokensDir) as Htr by (intros [=]).
  unfold merged, tokens_copy, userData_copy. simpl. rewrite Htok.
  pose proof (wf_disk_extracted e a d Ha Hd) as Hwf.
  destruct (copied_destination_files (at_root "restore", ["tokens"]) tokensDir
              true (extracted e a d) p c Hwf) as [Hkeep|(_ & c' & Hs & Hr)].
  - rewrite extracted_other; [done|by rewrite Hres].
  - left. by apply copied_keep_files.
  - right. exists c'. split; apply copied_keep_files; [|done].
    rewrite copied_other by done. by rewrite lookup_path_file_in in Hs.
Qed.

End AtProjectRoot.

(** * Merge and round trip in the usual deployment *)

(** The server is started from its project root, and the directory that
    [config.customUserDataDir] names lies apart from the tokens directory,
    from the staging directory of a backup and from the extraction
    directory of a restore. *)
Section Deployment.

Context (e : env).
Hypothesis Hroot : cwd_is_root e = true.
Hypothesis Htokens : apart (userDataDir e) tokensDir.
Hypothesis Hbackup : apart (userDataDir e) backupFolder.
Hypothesis Hrestore : apart (userDataDir e) (at_root "restore").

#[local] Arguments cp : simpl never.










End Deployment.

(** * Facts about deleteAllSessions *)

Section PurgeFacts.

Lemma fs_step_refl w : fs_step w w.
Proof. split; try done. exists []. by rewrite app_nil_r. Qed.

Lemma fs_step_trans w1 w2 w3 : fs_step w1 w2 -> fs_step w2 w3 -> fs_step w1 w3.
Proof.
  intros [? ? ? ? ? (evs1 & Ht1 & Hl1)] [? ? ? ? ? (evs2 & Ht2 & Hl2)].
  split; try congruence. exists (evs1 ++ evs2).
  split; [by rewrite Ht2, Ht1, <- app_assoc|by apply Forall_app].
Qed.

Lemma child_remove_eq x es : child x (remove x es) = None.
Proof.
  induction es as [|[k c] es IH]; simpl; [done|].
  case_decide; [done|]. simpl. by rewrite decide_False.
Qed.

Lemma child_remove_ne x y es : x ≠ y -> child y (remove x es) = child y es.
Proof.
  intros Hne. induction es as [|[k c] es IH]; simpl; [done|].
  destruct (decide (k = x)) as [->|]; simpl.
  - by rewrite decide_False.
  - by rewrite IH.
Qed.

Lemma lookup_path_child d dir item :
  lookup_path d (dir, [item]) =
  match d !! dir with
  | Some (Dir es) => child item es
  | _ => None
  end.
Proof.
  unfold lookup_path. simpl. destruct (d !! dir) as [[?|es]|]; simpl; try done.
  by destruct (child item es).
Qed.

Lemma without_other dir item d p :
  p ≠ dir -> without dir item d !! p = d !! p.
Proof. intros Hne. unfold without. by rewrite lookup_alter_ne. Qed.

Lemma without_dir dir item d es :
  d !! dir = Some (Dir es) ->
  without dir item d !! dir = Some (Dir (remove item es)).
Proof. intros Hd. unfold without. by rewrite lookup_alter_eq, Hd. Qed.

Lemma shrinks_refl d : shrinks d d.
Proof. by intros pl p c. Qed.

Lemma shrinks_trans d1 d2 d3 : shrinks d1 d2 -> shrinks d2 d3 -> shrinks d1 d3.
Proof. intros H12 H23 pl p c Hf. auto. Qed.

(** A change of one directory that creates no file shrinks the disk. *)
Lemma shrinks_alter f dir d :
  (forall n p c, file_at (f n) p = Some c -> file_at n p = Some c) ->
  shrinks d (alter f dir d).
Proof.
  intros Hf pl p c. destruct (decide (pl = dir)) as [->|Hne].
  - rewrite lookup_alter_eq. destruct (d !! dir) as [n|]; simpl; [apply Hf|done].
  - by rewrite lookup_alter_ne.
Qed.

Lemma remove_child_files item n p c :
  file_at (remove_child item n) p = Some c -> file_at n p = Some c.
Proof.
  destruct n as [d|es]; [done|]. simpl.
  destruct p as [|x p]; [done|]. rewrite !file_at_Dir.
  destruct (decide (item = x)) as [->|Hne].
  - by rewrite child_remove_eq.
  - by rewrite child_remove_ne.
Qed.

Lemma prune_child_files spared item n p c :
  file_at (prune_child spared item n) p = Some c -> file_at n p = Some c.
Proof.
  destruct n as [d|es]; [done|]. simpl.
  destruct (child item es) as [c0|] eqn:Hitem; [|done].
  destruct p as [|x p]; [done|]. rewrite !file_at_Dir.
  destruct (decide (item = x)) as [->|Hne].
  - rewrite child_put_eq, Hitem. simpl. apply prune_files.
  - by rewrite child_put_ne.
Qed.

Lemma lookup_path_without dir item d x :
  lookup_path (without dir item d) (dir, [x]) =
  if decide (item = x) then None else lookup_path d (dir, [x]).
Proof.
  rewrite !lookup_path_child. unfold without. rewrite lookup_alter_eq.
  destruct (d !! dir) as [[?|es]|]; simpl; try by case_decide.
  case_decide as Hx; [subst; apply child_remove_eq|by apply child_remove_ne].
Qed.

(** What a failed removal leaves in [dir]: the children that were there,
    the one it worked on included. *)
Lemma lookup_path_pruned e dir item d x :
  is_Some (lookup_path (pruned e dir item d) (dir, [x])) <->
  is_Some (lookup_path d (dir, [x])).
Proof.
  rewrite !lookup_path_child. unfold pruned. rewrite lookup_alter_eq.
  destruct (d !! dir) as [[?|es]|]; simpl; try done.
  destruct (child item es) as [c0|] eqn:Hitem; [|done].
  destruct (decide (item = x)) as [->|Hne].
  - rewrite child_put_eq, Hitem. split; eauto.
  - by rewrite child_put_ne.
Qed.

Lemma purged_refl dir w : purged dir w w.
Proof. split; [apply fs_step_refl|done|done|apply shrinks_refl]. Qed.

Lemma purged_trans dir w1 w2 w3 :
  purged dir w1 w2 -> purged dir w2 w3 -> purged dir w1 w3.
Proof.
  intros [Hs1 Ho1 Hk1 Hf1] [Hs2 Ho2 Hk2 Hf2]. split.
  - by eapply fs_step_trans.
  - intros p Hp. by rewrite Ho2, Ho1.
  - auto.
  - by eapply shrinks_trans.
Qed.


(** A step that removes at most the child [item] is a purge step. *)
Lemma purged_without dir item w w' :
  fs_step w w' ->
  disk w' = disk w \/ disk w' = without dir item (disk w) ->
  purged dir w w'.
Proof.
  intros Hs [Hd|Hd]; split; try done; rewrite Hd; try done.
  - apply shrinks_refl.
  - intros p Hp. by apply without_other.
  - intros x n. rewrite lookup_path_without. by case_decide.
  - apply shrinks_alter. intros n. apply remove_child_files.
Qed.

Lemma purged_cleared dir w w' : purged dir w w' -> cleared dir w w'.
Proof. intros [Hs Ho Hk Hf]. split; try done. intros x [n Hn]. eauto. Qed.

Lemma cleared_refl dir w : cleared dir w w.
Proof. apply purged_cleared, purged_refl. Qed.

Lemma cleared_trans dir w1 w2 w3 :
  cleared dir w1 w2 -> cleared dir w2 w3 -> cleared dir w1 w3.
Proof.
  intros [Hs1 Ho1 Hk1 Hf1] [Hs2 Ho2 Hk2 Hf2]. split.
  - by eapply fs_step_trans.
  - intros p Hp. by rewrite Ho2, Ho1.
  - auto.
  - by eapply shrinks_trans.
Qed.

Lemma cleared_gone dir w w' x :
  cleared dir w w' -> lookup_path (disk w) (dir, [x]) = None ->
  lookup_path (disk w') (dir, [x]) = None.
Proof.
  intros [_ _ Hk _] Hnone.
  destruct (lookup_path (disk w') (dir, [x])) as [n|] eqn:Hx; [|done].
  destruct (Hk x) as [n' Hn']; [eauto|congruence].
Qed.

(** A step that leaves of the child [item] what its failed removal has
    spared. *)
Lemma cleared_pruned e dir item w w' :
  fs_step w w' -> disk w' = pruned e dir item (disk w) -> cleared dir w w'.
Proof.
  intros Hs Hd. split; [done| | |]; rewrite Hd.
  - intros p Hp. unfold pruned. by rewrite lookup_alter_ne.
  - intros x. by rewrite lookup_path_pruned.
  - apply shrinks_alter. intros n. apply prune_child_files.
Qed.

(** One turn of the loop over the User Data Tree returns; it removes the
    child unless a call on it fails, and a failed recursive removal leaves
    a part of it. *)
Lemma clear_userData_item_run e dir item w :
  exists w', clear_userData_item e dir item w = (Ok tt, w') /\
    cleared dir w w' /\
    (no_fault e dir item -> lookup_path (disk w') (dir, [item]) = None).
Proof.
  assert (forall msg, fs_step w (set_trace (fun t => t ++ [EvLog Error msg]) w))
    as Hlog.
  { intros msg. split; try done. eexists [_].
    split; [done|by repeat constructor]. }
  unfold clear_userData_item, lstatSync_isDirectory, rmSync_item, unlinkSync.
  run.
  destruct (fails e (IoLstat dir item)) eqn:Hl; simpl.
  { eexists. split; [reflexivity|]. split.
    - apply purged_cleared, (purged_without _ item); [apply Hlog|by left].
    - intros (? & ? & ?); simpl; congruence. }
  destruct (lookup_path (disk w) (dir, [item])) as [[data|es]|] eqn:Hitem; simpl.
  - destruct (fails e (IoUnlink dir item)) eqn:Hu; simpl; rewrite ?Hitem; simpl;
      (eexists; split; [reflexivity|]); split.
    + apply purged_cleared, (purged_without _ item); [apply Hlog|by left].
    + intros (? & ? & ?); simpl; congruence.
    + apply purged_cleared, (purged_without _ item); [|by right].
      split; try done. eexists [_]. split; [done|by repeat constructor].
    + simpl. intros _. rewrite lookup_path_child in Hitem |- *.
      destruct (disk w !! dir) as [[?|es]|] eqn:Hd; try done.
      rewrite lookup_alter_eq, Hd. simpl. apply child_remove_eq.
  - destruct (fails e (IoRm dir item)) eqn:Hr; simpl;
      (eexists; split; [reflexivity|]); split.
    + apply (cleared_pruned e dir item); [|done].
      split; try done. eexists [_]. split; [done|by repeat constructor].
    + intros (? & ? & ?); simpl; congruence.
    + apply purged_cleared, (purged_without _ item); [|by right].
      split; try done. eexists [_]. split; [done|by repeat constructor].
    + simpl. intros _. rewrite lookup_path_child in Hitem |- *.
      destruct (disk w !! dir) as [[?|es']|] eqn:Hd; try done.
      rewrite lookup_alter_eq, Hd. simpl. apply child_remove_eq.
  - eexists. split; [reflexivity|]. split.
    + apply purged_cleared, (purged_without _ item); [apply Hlog|by left].
    + intros (? & ? & ?); simpl; congruence.
Qed.

(** The loop over the User Data Tree returns, and the children on which no
    call fails are gone. *)
Lemma clear_userData_loop e dir items : forall w,
  exists w', for_of items (clear_userData_item e dir) w = (Ok tt, w') /\
    cleared dir w w' /\
    forall item, item ∈ items -> no_fault e dir item ->
                 lookup_path (disk w') (dir, [item]) = None.
Proof.
  induction items as [|x items IH]; intros w.
  - exists w. split_and!; [done|apply cleared_refl|]. by intros ? ?%elem_of_nil.
  - destruct (clear_userData_item_run e dir x w) as (w1 & Hx & Hc & Hgone).
    destruct (IH w1) as (w2 & Hrest & Hp & Hgone2).
    exists w2. split_and!.
    + simpl. unfold mbind, M_bind. by rewrite Hx.
    + by eapply cleared_trans.
    + intros item [->|Hin]%elem_of_cons Hno; [|auto].
      eapply cleared_gone; [done|auto].
Qed.

Lemma cleared_log dir w l msg :
  cleared dir w (set_trace (fun t => t ++ [EvLog l msg]) w).
Proof.
  apply purged_cleared, purged_without with (item := ""); [|by left].
  split; try done. eexists [_]. split; [done|by repeat constructor].
Qed.

(** The User Data Tree phase never throws. *)
Lemma clear_userData_run e w :
  exists w', clear_userData e w = (Ok tt, w') /\
    cleared (userDataDir e) w w' /\
    (forall es, disk w !! userDataDir e = Some (Dir es) ->
       fails e (IoReaddir (userDataDir e)) = false ->
       forall item, item ∈ names es -> no_fault e (userDataDir e) item ->
         lookup_path (disk w') (userDataDir e, [item]) = None) /\
    (forall err, readdir_error e (userDataDir e) (disk w) = Some err ->
       disk w' = disk w /\
       trace w' = trace w ++
         [EvLog Info ("Attempting to clear session directory: "
                      +:+ show (userDataDir e));
          EvLog Error ("Error clearing session directory "
                       +:+ show (userDataDir e) +:+ ": " +:+ err)]).
Proof.
  unfold clear_userData, existsSync, readdirSync, readdir_error.
  set (dir := userDataDir e). run.
  destruct (disk w !! dir) as [n|] eqn:Hdir; simpl.
  - destruct (fails e (IoReaddir dir)) eqn:Hr; simpl.
    { eexists. split; [reflexivity|]. split_and!.
      - eapply cleared_trans; apply cleared_log.
      - intros. congruence.
      - intros err [= <-]. simpl. by rewrite <- app_assoc. }
    rewrite ?Hdir. destruct n as [data|es]; simpl.
    { eexists. split; [reflexivity|]. split_and!.
      - eapply cleared_trans; apply cleared_log.
      - intros. congruence.
      - intros err [= <-]. simpl. by rewrite <- app_assoc. }
    match goal with |- context [for_of (names es) _ ?w1] =>
      destruct (clear_userData_loop e dir (names es) w1)
        as (w2 & Hloop & Hp & Hgone) end.
    rewrite Hloop. eexists. split; [reflexivity|]. split_and!.
    + eapply cleared_trans; [apply cleared_log|].
      eapply cleared_trans; [apply Hp|apply cleared_log].
    + intros es' [= <-] _ item Hin Hno. simpl. auto.
    + done.
  - eexists. split; [reflexivity|]. split_and!.
    + eapply cleared_trans; apply cleared_log.
    + done.
    + done.
Qed.

(** One turn of the loop over the Token Store. *)
Lemma clear_tokens_item_run e dir item w :
  if fails e (IoLstat dir item)
  then clear_tokens_item e dir item w = (Throw "EACCES", w)
  else
    match lookup_path (disk w) (dir, [item]) with
    | None => clear_tokens_item e dir item w = (Throw "ENOENT", w)
    | Some n =>
        exists w', clear_tokens_item e dir item w = (Ok tt, w') /\
          fs_step w w' /\
          (disk w' = disk w \/
           disk w' = without dir item (disk w) /\ isDirectory n = false) /\
          (isDirectory n = true ->
           trace w' = trace w ++
             [EvLog Warn ("Skipping unexpected directory in tokens folder: "
                          +:+ join (show dir) item)])
    end.
Proof.
  unfold clear_tokens_item, lstatSync_isDirectory, unlinkSync. run.
  destruct (fails e (IoLstat dir item)) eqn:Hl; simpl; [done|].
  destruct (lookup_path (disk w) (dir, [item])) as [[data|es]|] eqn:Hitem;
    simpl; [| |done].
  - destruct (fails e (IoUnlink dir item)) eqn:Hu; simpl; rewrite ?Hitem; simpl;
      (eexists; split; [reflexivity|]); (split_and!; [|auto|done]);
      (split; try done; eexists [_]; split; [done|by repeat constructor]).
  - eexists; split; [reflexivity|]. split_and!; [|auto|done].
    split; try done; eexists [_]; split; [done|by repeat constructor].
Qed.

Lemma dirs_stay_without dir item w w' n :
  lookup_path (disk w) (dir, [item]) = Some n -> isDirectory n = false ->
  disk w' = without dir item (disk w) -> dirs_stay dir w w'.
Proof.
  intros Hitem Hfile Hd x es Hx. rewrite Hd, lookup_path_without.
  case_decide as Heq; [|done]. subst. rewrite Hitem in Hx.
  injection Hx as ->. done.
Qed.

(** Every turn over the Token Store, whatever its outcome, is a purge step
    that leaves the subdirectories alone. *)
Lemma clear_tokens_item_step e dir item w :
  let w' := exec (clear_tokens_item e dir item) w in
  purged dir w w' /\ dirs_stay dir w w'.
Proof.
  pose proof (clear_tokens_item_run e dir item w) as Hrun. unfold exec.
  destruct (fails e (IoLstat dir item)).
  { rewrite Hrun. simpl. split; [apply purged_refl|by intros ? ?]. }
  destruct (lookup_path (disk w) (dir, [item])) as [n|] eqn:Hitem.
  - destruct Hrun as (w' & -> & Hs & Hd & _). simpl. split.
    + apply (purged_without _ item); [done|]. destruct Hd as [?|[? _]]; auto.
    + destruct Hd as [Hd|[Hd Hfile]].
      * intros x es. by rewrite Hd.
      * by eapply dirs_stay_without.
  - rewrite Hrun. simpl. split; [apply purged_refl|by intros ? ?].
Qed.

Lemma clear_tokens_loop_step e dir items w :
  let w' := exec (for_of items (clear_tokens_item e dir)) w in
  purged dir w w' /\ dirs_stay dir w w'.
Proof.
  apply (for_of_steps (fun w w' => purged dir w w' /\ dirs_stay dir w w')).
  - intros w0. split; [apply purged_refl|by intros ? ?].
  - intros w1 w2 w3 [Hp1 Hd1] [Hp2 Hd2]. split; [by eapply purged_trans|].
    intros x es Hx. auto.
  - intros x w0 _. apply clear_tokens_item_step.
Qed.

(** The loop over the Token Store throws exactly when [lstat] fails on one
    of the entries. *)
Lemma clear_tokens_loop_result e dir items : forall w,
  NoDup items ->
  (forall item, item ∈ items -> is_Some (lookup_path (disk w) (dir, [item]))) ->
  (for_of items (clear_tokens_item e dir) w).1 =
  if existsb (fun item => fails e (IoLstat dir item)) items
  then Throw "EACCES" else Ok tt.
Proof.
  induction items as [|x items IH]; intros w Hnd Hall; [done|].
  apply NoDup_cons in Hnd as [Hx Hnd]. simpl. unfold mbind, M_bind.
  pose proof (clear_tokens_item_run e dir x w) as Hrun.
  destruct (fails e (IoLstat dir x)); simpl; [by rewrite Hrun|].
  destruct (Hall x) as [n Hn]; [apply list_elem_of_here|]. rewrite Hn in Hrun.
  destruct Hrun as (w1 & -> & _ & Hd & _). apply IH; [done|].
  intros item Hin. destruct Hd as [->|[-> _]].
  - apply Hall. by apply list_elem_of_further.
  - rewrite lookup_path_without. rewrite decide_False by (intros ->; done).
    apply Hall. by apply list_elem_of_further.
Qed.

Lemma child_is_Some x es : x ∈ names es -> is_Some (child x es).
Proof.
  intros Hin. destruct (child x es) eqn:Hx; [eauto|].
  by apply child_None in Hx.
Qed.

Lemma fs_step_log w l msg :
  fs_step w (set_trace (fun t => t ++ [EvLog l msg]) w).
Proof. split; try done. eexists [_]. split; [done|by repeat constructor]. Qed.

Lemma purged_log dir w l msg :
  purged dir w (set_trace (fun t => t ++ [EvLog l msg]) w).
Proof.
  apply purged_without with (item := ""); [|by left].
  split; try done. eexists [_]. split; [done|by repeat constructor].
Qed.

Lemma fs_step_since w w1 w2 ev :
  fs_step w w1 -> fs_step w1 w2 ->
  ev ∈ since w w1 \/ ev ∈ since w1 w2 -> ev ∈ since w w2.
Proof.
  intros [_ _ _ _ _ (evs1 & Ht1 & _)] [_ _ _ _ _ (evs2 & Ht2 & _)].
  rewrite (since_app _ _ _ Ht1), (since_app _ _ _ Ht2).
  rewrite (since_app w w2 (evs1 ++ evs2)) by by rewrite Ht2, Ht1, <- app_assoc.
  rewrite elem_of_app. tauto.
Qed.

(** A loop over the Token Store that returns has warned about every
    subdirectory. *)
Lemma clear_tokens_loop_warns e dir items : forall w,
  NoDup items ->
  (forall item, item ∈ items -> is_Some (lookup_path (disk w) (dir, [item]))) ->
  existsb (fun item => fails e (IoLstat dir item)) items = false ->
  forall item es, item ∈ items ->
    lookup_path (disk w) (dir, [item]) = Some (Dir es) ->
    EvLog Warn ("Skipping unexpected directory in tokens folder: "
                +:+ join (show dir) item)
    ∈ since w (exec (for_of items (clear_tokens_item e dir)) w).
Proof.
  induction items as [|x items IH]; intros w Hnd Hall Hex item es Hin Hitem.
  { by apply elem_of_nil in Hin. }
  apply NoDup_cons in Hnd as [Hx Hnd]. simpl in Hex.
  apply orb_false_iff in Hex as [Hlx Hex].
  pose proof (clear_tokens_item_run e dir x w) as Hrun. rewrite Hlx in Hrun.
  destruct (Hall x) as [n Hn]; [apply list_elem_of_here|]. rewrite Hn in Hrun.
  destruct Hrun as (w1 & Hrun & Hs & Hd & Hwarn).
  unfold exec. simpl. unfold mbind, M_bind. rewrite Hrun.
  pose proof (clear_tokens_loop_step e dir items w1) as [[Hs2 _ _ _] _].
  assert (forall y, y ∈ items ->
            lookup_path (disk w1) (dir, [y]) = lookup_path (disk w) (dir, [y]))
    as Hsame.
  { intros y Hy. destruct Hd as [->|[-> _]]; [done|].
    rewrite lookup_path_without. by rewrite decide_False by (intros ->; done). }
  apply (fs_step_since w w1); [done|done|].
  apply elem_of_cons in Hin as [->|Hin].
  - left. rewrite Hn in Hitem. injection Hitem as ->.
    rewrite (since_app _ _ _ (Hwarn eq_refl)). apply list_elem_of_here.
  - right. apply (IH w1 Hnd) with (es := es); [|done|done|by rewrite Hsame].
    intros y Hy. rewrite Hsame by done. apply Hall. by apply list_elem_of_further.
Qed.

(** The Token Store phase, whatever its outcome, is a purge step that
    leaves the subdirectories alone; it starts with its log line. *)
Lemma clear_tokens_step e w :
  let w' := exec (clear_tokens e) w in
  purged tokensDir w w' /\ dirs_stay tokensDir w w' /\
  exists evs, trace w' = trace w ++
    EvLog Info ("Attempting to clear tokens directory: " +:+ show tokensDir)
    :: evs.
Proof.
  unfold clear_tokens, existsSync, readdirSync. run.
  destruct (disk w !! tokensDir) as [n|] eqn:Hdir; simpl.
  - destruct (fails e (IoReaddir tokensDir)) eqn:Hr; simpl.
    { split_and!; [|by intros ? ?|].
      - eapply purged_trans; apply purged_log.
      - eexists [_]. by rewrite <- app_assoc. }
    rewrite ?Hdir. destruct n as [data|es]; simpl.
    { split_and!; [|by intros ? ?|].
      - eapply purged_trans; apply purged_log.
      - eexists [_]. by rewrite <- app_assoc. }
    match goal with |- context [for_of (names es) _ ?w1] => set (w1' := w1) end.
    pose proof (clear_tokens_loop_step e tokensDir (names es) w1') as [Hp Hst].
    unfold exec in Hp, Hst.
    destruct (for_of (names es) (clear_tokens_item e tokensDir) w1')
      as [r w2] eqn:Hloop.
    simpl in Hp, Hst.
    pose proof Hp as [[_ _ _ _ _ (evs & Ht & Hl)] _ _ _].
    destruct r; simpl; split_and!.
    + eapply purged_trans; [apply purged_log|].
      eapply purged_trans; [apply Hp|apply purged_log].
    + intros x sub Hx. simpl. by apply Hst.
    + eexists. simpl. rewrite Ht. simpl. by rewrite <- !app_assoc.
    + eapply purged_trans; [apply purged_log|].
      eapply purged_trans; [apply Hp|apply purged_log].
    + intros x sub Hx. simpl. by apply Hst.
    + eexists. simpl. rewrite Ht. simpl. by rewrite <- !app_assoc.
  - split_and!; [|by intros ? ?|].
    + eapply purged_trans; apply purged_log.
    + eexists [_]. by rewrite <- app_assoc.
Qed.

(** The outcome of the Token Store phase; when it returns it has warned
    about every subdirectory. *)
Lemma clear_tokens_result e w :
  wf_opt (disk w !! tokensDir) ->
  (clear_tokens e w).1 =
    match tokens_fault e (disk w) with
    | None => Ok tt
    | Some err => Throw (purge_error err)
    end /\
  (tokens_fault e (disk w) = None ->
   forall x es, lookup_path (disk w) (tokensDir, [x]) = Some (Dir es) ->
     EvLog Warn ("Skipping unexpected directory in tokens folder: "
                 +:+ join (show tokensDir) x)
     ∈ since w (exec (clear_tokens e) w)).
Proof.
  intros Hwf. unfold clear_tokens, existsSync, readdirSync, tokens_fault,
    readdir_error, purge_error. run.
  destruct (disk w !! tokensDir) as [n|] eqn:Hdir; simpl.
  - destruct (fails e (IoReaddir tokensDir)) eqn:Hr; simpl; [done|].
    rewrite ?Hdir. destruct n as [data|es]; simpl; [done|].
    match goal with |- context [for_of (names es) _ ?w1] => set (w1' := w1) end.
    assert (NoDup (names es)) as Hnd by (simpl in Hwf; by inversion Hwf).
    assert (forall item, item ∈ names es ->
              is_Some (lookup_path (disk w1') (tokensDir, [item]))) as Hall.
    { intros item Hin. rewrite lookup_path_child. simpl. rewrite Hdir.
      by apply child_is_Some. }
    pose proof (clear_tokens_loop_result e tokensDir (names es) w1' Hnd Hall) as Hres.
    pose proof (clear_tokens_loop_warns e tokensDir (names es) w1' Hnd Hall) as Hwarn.
    pose proof (clear_tokens_loop_step e tokensDir (names es) w1') as [[Hs _ _ _] _].
    unfold exec in Hwarn, Hs.
    destruct (for_of (names es) (clear_tokens_item e tokensDir) w1')
      as [r w2] eqn:Hloop.
    simpl in Hres, Hwarn, Hs. subst r.
    destruct (existsb _ (names es)); simpl; [done|]. split; [done|].
    intros _ x sub Hx.
    assert (x ∈ names es) as Hin.
    { rewrite lookup_path_child, Hdir in Hx.
      destruct (decide (x ∈ names es)) as [|Hni]; [done|].
      apply child_None in Hni. congruence. }
    specialize (Hwarn eq_refl x sub Hin Hx).
    apply (fs_step_since w w1' _); [| |right; apply (fs_step_since w1' w2);
      [done| |by left]].
    + apply fs_step_log.
    + eapply fs_step_trans; [apply Hs|apply fs_step_log].
    + apply fs_step_log.
  - split; [done|]. intros _ x es. by rewrite lookup_path_child, Hdir.
Qed.

(** [deleteAllSessions] in phases: a teardown, the User Data Tree phase,
    which returns, and the Token Store phase, whose outcome is the outcome
    of the operation. *)
Lemma deleteAllSessions_phases e w :
  exists w1 w2,
    deleteAllSessions e w =
      (match (clear_tokens e w2).1 with
       | Ok _ => Ok purge_ack
       | Throw err => Throw err
       end, exec (clear_tokens e) w2) /\
    disk w1 = disk w /\
    (exists evs, trace w1 = trace w ++ evs /\ Forall teardown_event evs) /\
    clear_userData e w1 = (Ok tt, w2).
Proof.
  unfold deleteAllSessions. run.
  destruct (closeAllSessions_teardown e
    (set_trace (fun t => t ++ [EvLog Info "Attempting to delete all sessions..."]) w))
    as (wc & -> & Htd & _).
  destruct Htd as [Hd _ _ _ _ (evs & Ht & Hev & _) _]. simpl in *.
  set (w1 := set_trace (fun t => t ++ [EvLog Info "All active browser sessions closed."]) wc).
  destruct (clear_userData_run e w1) as (w2 & Hud & Hp & _).
  rewrite Hud. exists w1, w2. unfold exec.
  destruct (clear_tokens e w2) as [[[]|err] w3]; simpl;
    (split_and!; [done|done| |done]);
    (exists ([EvLog Info "Attempting to delete all sessions..."] ++ evs ++
            [EvLog Info "All active browser sessions closed."]);
     split;
     [simpl; rewrite Ht; simpl; by rewrite <- !app_assoc
     |apply Forall_app; split; [by repeat constructor|];
      apply Forall_app; split; [done|by repeat constructor]]).
Qed.

(** The outcome of [deleteAllSessions] is decided by the tokens directory
    of the start. *)
Lemma deleteAllSessions_result e w :
  userDataDir e ≠ tokensDir -> wf_opt (disk w !! tokensDir) ->
  (deleteAllSessions e w).1 =
    match tokens_fault e (disk w) with
    | None => Ok purge_ack
    | Some err => Throw (purge_error err)
    end.
Proof.
  intros Hne Hwf.
  destruct (deleteAllSessions_phases e w) as (w1 & w2 & -> & Hd & _ & Hud).
  destruct (clear_userData_run e w1) as (w2' & Hud' & Hp & _).
  rewrite Hud in Hud'. injection Hud' as <-.
  assert (disk w2 !! tokensDir = disk w !! tokensDir) as Htok.
  { rewrite (cl_other _ _ _ Hp) by done. by rewrite Hd. }
  assert (wf_opt (disk w2 !! tokensDir)) as Hwf2 by by rewrite Htok.
  destruct (clear_tokens_result e w2 Hwf2) as [-> _]. simpl.
  assert (tokens_fault e (disk w2) = tokens_fault e (disk w)) as ->.
  { unfold tokens_fault, readdir_error. by rewrite Htok. }
  by destruct (tokens_fault e (disk w)).
Qed.

End PurgeFacts.

(** * deleteAllSessions: what is deleted, and which errors are fatal *)

Section PurgeClaims.




(** C10. When the enumeration of the User Data Tree throws, the error is
    logged, the Token Store phase starts after it, and the operation
    returns its acknowledgment when that phase meets no fatal error. *)
Theorem deleteAllSessions_userData_error_not_fatal e w err :
  userDataDir e ≠ tokensDir -> wf_opt (disk w !! tokensDir) ->
  readdir_error e (userDataDir e) (disk w) = Some err ->
  let w' := exec (deleteAllSessions e) w in
  before
    (EvLog Error ("Error clearing session directory "
                  +:+ show (userDataDir e) +:+ ": " +:+ err))
    (EvLog Info ("Attempting to clear tokens directory: " +:+ show tokensDir))
    (since w w') /\
  (tokens_fault e (disk w) = None ->
   (deleteAllSessions e w).1 = Ok purge_ack).
Proof.
  intros Hne Hwf Herr w'. split.
  - destruct (deleteAllSessions_phases e w)
      as (w1 & w2 & Hrun & Hd & (evs1 & Ht1 & _) & Hud).
    assert (w' = exec (clear_tokens e) w2) as Hw'.
    { unfold w', exec at 1. by rewrite Hrun. }
    destruct (clear_userData_run e w1) as (w2' & Hud' & _ & _ & Hthrown).
    rewrite Hud in Hud'. injection Hud' as <-.
    rewrite Hd in Hthrown. destruct (Hthrown err Herr) as [_ Ht2].
    destruct (clear_tokens_step e w2) as (_ & _ & evs3 & Ht3).
    rewrite <- Hw' in Ht3.
    rewrite (since_app w w' (evs1 ++
      [EvLog Info ("Attempting to clear session directory: "
                   +:+ show (userDataDir e));
       EvLog Error ("Error clearing session directory "
                    +:+ show (userDataDir e) +:+ ": " +:+ err)] ++
      EvLog Info ("Attempting to clear tokens directory: " +:+ show tokensDir)
      :: evs3)).
    + eexists (evs1 ++ [_; _]), evs3. split; [by rewrite <- !app_assoc|].
      apply elem_of_app. right. apply list_elem_of_further, list_elem_of_here.
    + rewrite Ht3, Ht2, Ht1. by rewrite <- !app_assoc.
  - intros Hfault. rewrite deleteAllSessions_result by done. by rewrite Hfault.
Qed.

End PurgeClaims.

(** * closeAllSessions: the registry *)

Section CloseClaims.

(** C2. [closeAllSessions] returns, whatever the close requests do: throw,
    resolve, reject, late or never.  None of the sessions enumerated from
    the Token Store is in [clientsArray] afterwards, and every close
    request was issued after the removal of its session. *)
Theorem closeAllSessions_drains_registry e w :
  exists w', closeAllSessions e w = (Ok tt, w') /\
    (forall session, session ∈ getAllTokens e (disk w) ->
                     clientsArray w' !! session = None) /\
    closes_after_delete (since w w').
Proof.
  destruct (closeAllSessions_teardown e w) as (w' & Hrun & Htd & Hgone).
  exists w'. split_and!; [done|done|].
  destruct Htd as [_ _ _ _ _ (evs & Ht & _ & Hord) _].
  by rewrite (since_app _ _ _ Ht).
Qed.

End CloseClaims.

(** * backupSessions: the whole run, case by case *)

Section BackupRuns.

(** The callback of an archiver that was not finalized: it writes the
    entries queued for it, and the write stream stays open. *)
Lemma archive_job_open e sources w :
  let w' := exec (run_handler e (ArchiveJob sources false)) w in
  clientsArray w' = clientsArray w /\ response w' = response w /\
  disk w' = disk w /\ pending w' = pending w /\
  if fails e IoArchive then
    trace w' = trace w ++ [EvLog Error "archiver"] /\
    promise w' = match promise w with
                 | Pending => Rejected "archiver"
                 | p => p
                 end /\
    zipFile w' = zipFile w
  else
    trace w' = trace w /\ promise w' = promise w /\
    zipFile w' = Some (build_archive (disk w) sources).
Proof.
  unfold run_handler, run_task, archive_job, on_archive_error, reject, settle.
  run.
  destruct (fails e IoArchive); simpl; [|by split_and!].
  destruct (promise w) eqn:Hp; simpl; by split_and!.
Qed.

(** The archiver callback when the staging directory is there. *)
Lemma archive_job_outcome e sources w n :
  disk w !! backupFolder = Some n ->
  let w' := exec (run_handler e (ArchiveJob sources true)) w in
  clientsArray w' = clientsArray w /\ response w' = response w /\
  if fails e IoArchive then
    disk w' = disk w /\ pending w' = pending w /\
    trace w' = trace w ++ [EvLog Error "archiver"] /\
    promise w' = match promise w with
                 | Pending => Rejected "archiver"
                 | p => p
                 end
  else
    disk w' = delete backupFolder (disk w) /\
    pending w' = pending w ++ [StreamJob] /\
    trace w' = trace w ++ [EvOutputClose; EvRmSync backupFolder; EvPipe] /\
    promise w' = promise w /\
    zipFile w' = Some (build_archive (disk w) sources).
Proof.
  intros Hb.
  unfold run_handler, run_task, archive_job, on_archive_error, on_output_close,
    rmSync, reject, settle. run.
  destruct (fails e IoArchive); simpl.
  - destruct (promise w) eqn:Hp; simpl; by split_and!.
  - rewrite Hb. simpl. rewrite <- !app_assoc. by split_and!.
Qed.

(** The callback of the read stream of the zip file. *)
Lemma stream_job_outcome e w a :
  zipFile w = Some a ->
  let w' := exec (run_handler e StreamJob) w in
  clientsArray w' = clientsArray w /\ disk w' = disk w /\
  pending w' = pending w /\ zipFile w' = zipFile w /\
  if fails e IoStream then
    trace w' = trace w ++ [EvStreamError; EvLog Info "EIO"] /\
    promise w' = match promise w with
                 | Pending => Rejected "EIO"
                 | p => p
                 end /\
    response w' = response w
  else
    trace w' = trace w ++
      [EvStreamEnd;
       EvLog Info "Sessions successfully backuped. Restarting sessions...";
       EvStartAllSessions; EvResEnd] /\
    promise w' = promise w /\ response w' = Some a.
Proof.
  intros Hz.
  unfold run_handler, run_task, stream_job, on_stream_error, on_stream_end,
    startAllSessions, reject, settle. run.
  rewrite Hz. destruct (fails e IoStream); simpl.
  - destruct (promise w) eqn:Hp; simpl; rewrite <- ?app_assoc; by split_and!.
  - rewrite <- !app_assoc. by split_and!.
Qed.

(** The executor of a backup up to its return: the teardown, the zip file
    opened for writing, the copy into the staging directory, and the
    archiver queued behind the close continuations, finalized when the
    copy has returned. *)
Lemma backup_executor_outcome e w :
  pending w = [] ->
  exists w1 evs q,
    backupSessions e w = (Ok tt, w1) /\
    Forall teardown_event evs /\ Forall is_close_task q /\
    (forall s, s ∈ getAllTokens e (disk w) -> clientsArray w1 !! s = None) /\
    disk w1 = staged e (disk w) /\ promise w1 = Pending /\
    response w1 = response w /\ zipFile w1 = Some [] /\
    trace w1 = trace w ++ evs ++
      EvCpSync (userDataDir e, []) backupFolder true ::
      (if staged_ok e (disk w) then [EvFinalize]
       else [EvUncaught (copy_error (userDataDir e, []) backupFolder (disk w))]) /\
    pending w1 = q ++ [if staged_ok e (disk w)
                       then ArchiveJob backup_sources true
                       else ArchiveJob [(tokensDir, "tokens")] false].
Proof.
  intros Hq. unfold backupSessions, backup_executor. run.
  destruct (closeAllSessions_teardown e (set_promise Pending w))
    as (w1 & Hclose & Htd & Hgone).
  rewrite Hclose.
  destruct Htd as [Hd Hz Hr Hp Hc (evs & Ht0 & Hev & _) Hqs]. simpl in *.
  assert (Forall is_close_task (pending w1)) as Hcl.
  { apply Forall_forall. intros t Ht. destruct (Hqs t Ht) as [Hin|?]; [|done].
    rewrite Hq in Hin. by apply elem_of_nil in Hin. }
  rewrite cpSync_run. cbv zeta. simpl.
  unfold staged, staged_ok, copied, copy_ok, copy_error. rewrite <- Hd.
  destruct (lookup_path (disk w1) (userDataDir e, [])) as [s|] eqn:Hs; simpl;
    [case_decide as Hself; simpl;
       [|destruct (cp true s (disk w1 !! backupFolder)) as [r [|]] eqn:Hcp; simpl]| ];
    (eexists; exists evs, (pending w1); split; [reflexivity|]); simpl;
    rewrite ?on_last_snoc; simpl; rewrite ?on_last_snoc; simpl;
    rewrite ?on_last_snoc; simpl;
    rewrite ?app_nil_r, Ht0, <- ?app_assoc; simpl; split_and!; try done;
    by rewrite Hd.
Qed.

Lemma staged_backupFolder e d :
  staged_ok e d = true -> is_Some (staged e d !! backupFolder).
Proof.
  unfold staged_ok, staged, copy_ok, copied.
  destruct (lookup_path d (userDataDir e, [])); [|done].
  case_decide; [done|]. intros _. by rewrite lookup_insert_eq.
Qed.

Lemma delete_staged e d :
  staged_ok e d = true ->
  delete backupFolder (staged e d) = delete backupFolder d.
Proof.
  unfold staged_ok, staged, copy_ok, copied.
  destruct (lookup_path d (userDataDir e, [])); [|done].
  case_decide; [done|]. intros _. apply delete_insert_eq.
Qed.

(** A whole backup, when nothing else is pending: the events after the
    teardown, the disk, the promise, the response and the zip file, in
    each of the ways it can go.  The continuations of late close requests
    run between the executor and the archiver. *)
Lemma backupSessions_outcome e w :
  pending w = [] ->
  let w' := complete e (backupSessions e) w in
  let copy := EvCpSync (userDataDir e, []) backupFolder true in
  exists evs1 evs2,
    Forall teardown_event evs1 /\ Forall teardown_event evs2 /\
    (forall s, s ∈ getAllTokens e (disk w) -> clientsArray w' !! s = None) /\
    if staged_ok e (disk w) then
      if fails e IoArchive then
        since w w' = evs1 ++ [copy; EvFinalize] ++ evs2 ++
                     [EvLog Error "archiver"] /\
        disk w' = staged e (disk w) /\
        promise w' = Rejected "archiver" /\ response w' = response w
      else if fails e IoStream then
        since w w' = evs1 ++ [copy; EvFinalize] ++ evs2 ++
                     [EvOutputClose; EvRmSync backupFolder; EvPipe;
                      EvStreamError; EvLog Info "EIO"] /\
        disk w' = delete backupFolder (disk w) /\
        promise w' = Rejected "EIO" /\ response w' = response w
      else
        since w w' = evs1 ++ [copy; EvFinalize] ++ evs2 ++
                     [EvOutputClose; EvRmSync backupFolder; EvPipe;
                      EvStreamEnd;
                      EvLog Info
                        "Sessions successfully backuped. Restarting sessions...";
                      EvStartAllSessions; EvResEnd] /\
        disk w' = delete backupFolder (disk w) /\
        promise w' = Pending /\
        response w' = Some (backup_archive e (disk w)) /\
        zipFile w' = Some (backup_archive e (disk w))
    else
      let uncaught :=
        EvUncaught (copy_error (userDataDir e, []) backupFolder (disk w)) in
      disk w' = staged e (disk w) /\ response w' = response w /\
      if fails e IoArchive then
        since w w' = evs1 ++ [copy; uncaught] ++ evs2 ++
                     [EvLog Error "archiver"] /\
        promise w' = Rejected "archiver" /\ zipFile w' = Some []
      else
        since w w' = evs1 ++ [copy; uncaught] ++ evs2 /\
        promise w' = Pending /\
        zipFile w' = Some (build_archive (staged e (disk w))
                             [(tokensDir, "tokens")]).
Proof.
  intros Hq w' copy. subst copy.
  destruct (backup_executor_outcome e w Hq)
    as (w1 & evs1 & q & Hrun & Hev1 & Hcl & Hgone & Hd1 & Hp1 & Hr1 & Hz1
        & Ht1 & Hq1).
  assert (w' = event_loop e w1) as Hw'.
  { unfold w', complete, exec. by rewrite Hrun. }
  clearbody w'.
  destruct (event_loop_closes e q w1 _ Hcl Hq1) as (w2 & Hloop & Htd & Hq2).
  rewrite Hloop in Hw'. clear Hloop.
  destruct Htd as [Hd2 Hz2 Hr2 Hp2 Hc2 (evs2 & Ht2 & Hev2 & _) _].
  simpl in Hd2, Hr2, Hp2, Ht2, Hz2.
  assert (forall w3, clientsArray w3 = clientsArray w2 ->
            forall s, s ∈ getAllTokens e (disk w) -> clientsArray w3 !! s = None)
    as Hreg.
  { intros w3 Hc3 s Hs. rewrite Hc3. apply Hc2. by apply Hgone. }
  exists evs1, evs2. split; [done|]. split; [done|].
  rewrite (event_loop_cons e w2 _ _ Hq2) in Hw'.
  set (w2' := set_pending (fun _ => []) w2) in *.
  destruct (staged_ok e (disk w)) eqn:Hok.
  - destruct (staged_backupFolder e (disk w) Hok) as [n Hn].
    destruct (archive_job_outcome e backup_sources w2' n) as (Hc3 & Hr3 & Hrest).
    { simpl. by rewrite Hd2, Hd1. }
    set (w3 := exec (run_handler e (ArchiveJob backup_sources true)) w2') in *.
    destruct (fails e IoArchive).
    + destruct Hrest as (Hd3 & Hq3 & Ht3 & Hp3). simpl in *.
      rewrite event_loop_nil in Hw' by done. subst w'.
      split; [by apply Hreg|]. split_and!; try congruence.
      * apply since_app. rewrite Ht3, Ht2, Ht1. by rewrite <- !app_assoc.
      * rewrite Hp3, Hp2, Hp1. done.
    + destruct Hrest as (Hd3 & Hq3 & Ht3 & Hp3 & Hz3). simpl in *.
      rewrite (event_loop_cons e w3 _ _ Hq3) in Hw'.
      set (w3' := set_pending (fun _ => []) w3) in *.
      destruct (stream_job_outcome e w3' _ Hz3) as (Hc4 & Hd4 & Hq4 & Hz4 & Hrest).
      set (w4 := exec (run_handler e StreamJob) w3') in *.
      rewrite event_loop_nil in Hw' by done. subst w'. simpl in *.
      split; [apply Hreg; congruence|].
      assert (disk w4 = delete backupFolder (disk w)) as Hdisk.
      { rewrite Hd4, Hd3, Hd2, Hd1. by apply delete_staged. }
      destruct (fails e IoStream).
      * destruct Hrest as (Ht4 & Hp4 & Hr4). split_and!; try congruence.
        -- apply since_app. rewrite Ht4, Ht3, Ht2, Ht1. by rewrite <- !app_assoc.
        -- rewrite Hp4, Hp3, Hp2, Hp1. done.
      * destruct Hrest as (Ht4 & Hp4 & Hr4). split_and!; try congruence.
        -- apply since_app. rewrite Ht4, Ht3, Ht2, Ht1. by rewrite <- !app_assoc.
        -- rewrite Hr4. unfold backup_archive. by rewrite Hd2, Hd1.
        -- rewrite Hz4. simpl. rewrite Hz3. unfold backup_archive.
           by rewrite Hd2, Hd1.
  - destruct (archive_job_open e [(tokensDir, "tokens")] w2')
      as (Hc3 & Hr3 & Hd3 & Hq3 & Hrest).
    set (w3 := exec (run_handler e (ArchiveJob [(tokensDir, "tokens")] false))
                 w2') in *.
    simpl in *. rewrite event_loop_nil in Hw' by done. subst w'.
    split; [by apply Hreg|]. split_and!; try congruence.
    destruct (fails e IoArchive).
    + destruct Hrest as (Ht3 & Hp3 & Hz3). split_and!; try congruence.
      * apply since_app. rewrite Ht3, Ht2, Ht1. by rewrite <- !app_assoc.
      * rewrite Hp3, Hp2, Hp1. done.
    + destruct Hrest as (Ht3 & Hp3 & Hz3).
      split_and!; [|congruence|by rewrite Hz3, Hd2, Hd1].
      apply since_app. rewrite Ht3, Ht2, Ht1. by rewrite <- !app_assoc.
Qed.

End BackupRuns.

(** * backupSessions: what a run leaves behind *)

Section BackupOutcomes.


(** X2. When [config.customUserDataDir] does not exist, the copy into the
    staging directory throws inside the executor of the promise: nobody
    catches the exception, nothing is finalized or sent, no directory is
    changed, and the sessions closed by the teardown are not restarted.
    The zip file was opened for writing before the copy: unless the
    archiver fails, it holds the entries of the Token Store afterwards, and
    no more, and the promise is still pending.  The promise is never
    fulfilled. *)
Theorem backupSessions_without_userData_hangs e w :
  pending w = [] -> disk w !! userDataDir e = None ->
  let w' := complete e (backupSessions e) w in
  promise w' ≠ Fulfilled /\
  (fails e IoArchive = false ->
   promise w' = Pending /\
   zipFile w' = Some (build_archive (disk w) [(tokensDir, "tokens")])) /\
  response w' = response w /\ disk w' = disk w /\
  EvUncaught "ENOENT" ∈ since w w' /\
  (EvFinalize ∉ since w w') /\ (EvPipe ∉ since w w') /\
  (EvStartAllSessions ∉ since w w') /\ (EvResEnd ∉ since w w') /\
  (forall s, s ∈ getAllTokens e (disk w) -> clientsArray w' !! s = None).
Proof.
  intros Hq Hnone w'.
  destruct (backupSessions_outcome e w Hq) as (evs1 & evs2 & Hev1 & Hev2 & Hreg & H).
  fold w' in H, Hreg.
  unfold staged_ok, staged, copy_ok, copied, copy_error, lookup_path in H.
  simpl in H. rewrite Hnone in H. simpl in H.
  destruct H as (Hd & Hr & H).
  destruct (fails e IoArchive); destruct H as (Hs & Hp & Hz); rewrite Hs, Hp;
    (split_and!; try done);
    try (apply elem_of_app; right;
         apply list_elem_of_further, list_elem_of_here);
    intros Hin; absurd_in Hin.
Qed.

(** X3. When the read stream of the zip file fails, [startAllSessions] and
    [res.end()] are not called, and the sessions that the teardown has
    removed from the registry stay removed; the error handler of the
    stream leaves the promise rejected. *)
Theorem backupSessions_stream_error_leaves_sessions_closed e w :
  pending w = [] -> fails e IoStream = true ->
  let w' := complete e (backupSessions e) w in
  (EvStartAllSessions ∉ since w w') /\ (EvResEnd ∉ since w w') /\
  (EvStreamEnd ∉ since w w') /\
  (EvStreamError ∈ since w w' -> exists err, promise w' = Rejected err) /\
  (forall s, s ∈ getAllTokens e (disk w) -> clientsArray w' !! s = None).
Proof.
  intros Hq Hfail w'.
  destruct (backupSessions_outcome e w Hq) as (evs1 & evs2 & Hev1 & Hev2 & Hreg & H).
  fold w' in H, Hreg. rewrite Hfail in H.
  destruct (staged_ok e (disk w));
    [destruct (fails e IoArchive)
    |destruct H as (_ & _ & H); destruct (fails e IoArchive)];
    destruct H as (Hs & H); rewrite Hs;
    (split_and!; [| | | |done]); try (intros Hin; absurd_in Hin).
  destruct H as (_ & -> & _). eauto.
Qed.

End BackupOutcomes.


(** * restoreSessions: what a run leaves behind *)

Section RestoreRuns.

(** None of the enumerated sessions is in the registry after a whole
    restore. *)
Lemma restoreSessions_registry e file w :
  is_zip file = true -> pending w = [] ->
  forall s, s ∈ getAllTokens e (disk w) ->
    clientsArray (complete e (restoreSessions e file) w) !! s = None.
Proof.
  intros Hzip Hq s Hs.
  assert (exists w1, restoreSessions e file w
            = (Ok {| success := true; message := None |},
               set_pending (fun q => q ++ [ExtractJob (file ≫= upload)]) w1) /\
            teardown w w1 /\ clientsArray w1 !! s = None)
    as (w1 & Hrun & Htd & Hnone).
  { unfold restoreSessions. rewrite Hzip. run.
    destruct (closeAllSessions_teardown e
      (set_trace (fun t => t ++ [EvLog Info "Starting restore sessions..."]) w))
      as (w1 & -> & Htd & Hgone).
    exists w1. split_and!; [done| |by apply Hgone].
    eapply teardown_trans; [|apply Htd].
    split; simpl; try done; [|auto].
    eexists [_]. split_and!; [done|by repeat constructor|].
    apply closes_after_delete_quiet. by repeat constructor. }
  assert (Forall is_close_task (pending w1)) as Hcl.
  { apply Forall_forall. intros t Ht.
    destruct (td_pending _ _ Htd t Ht) as [Hin|?]; [|done].
    rewrite Hq in Hin. by apply elem_of_nil in Hin. }
  destruct (event_loop_closes e (pending w1)
    (set_pending (fun q => q ++ [ExtractJob (file ≫= upload)]) w1)
    [ExtractJob (file ≫= upload)] Hcl eq_refl) as (w2 & Hloop & Htd2 & Hq2).
  unfold complete, exec. rewrite Hrun. simpl. rewrite Hloop.
  rewrite (event_loop_cons e w2 _ _ Hq2).
  destruct (run_extract_job e (file ≫= upload) (set_pending (fun _ => []) w2))
    as (w3 & Hrun3 & _ & _ & Hc3 & Hq3 & _).
  unfold exec. rewrite Hrun3. simpl in *.
  rewrite event_loop_nil by done. rewrite Hc3.
  by apply (td_clients _ _ Htd2).
Qed.


End RestoreRuns.

Section RestoreOutcomes.

(** X4. When the extraction of the upload does not close, the caller has its
    [{success: true}] all the same, and that is all: no copy into a store
    is made, nothing outside the extraction directory changes, and the
    sessions closed by the teardown are not restarted. *)
Theorem restoreSessions_failed_extraction e file w :
  is_zip file = true -> pending w = [] ->
  let w' := complete e (restoreSessions e file) w in
  EvExtractClose ∉ since w w' ->
  (restoreSessions e file w).1 = Ok {| success := true; message := None |} /\
  EvExtractError ∈ since w w' /\
  (EvStartAllSessions ∉ since w w') /\
  (forall src dst force, EvCpSync src dst force ∉ since w w') /\
  (forall p, p ≠ at_cwd e "restore" -> disk w' !! p = disk w !! p) /\
  (forall s, s ∈ getAllTokens e (disk w) -> clientsArray w' !! s = None).
Proof.
  intros Hzip Hq w' Hclose.
  destruct (restoreSessions_outcome e file w Hzip Hq) as (evs & Hev & Hs & Hd).
  fold w' in Hs, Hd. rewrite Hs in Hclose |- *.
  destruct (extracts e (file ≫= upload) (disk w)).
  { destruct Hclose. apply elem_of_app. right.
    apply list_elem_of_further, list_elem_of_here. }
  split_and!.
  - by destruct (restoreSessions_run e file w Hzip) as (w1 & -> & _).
  - apply elem_of_app. right. apply list_elem_of_further, list_elem_of_here.
  - intros Hin. absurd_in Hin.
  - intros src dst force Hin. absurd_in Hin.
  - intros p Hp. rewrite Hd. destruct (file ≫= upload); [|done].
    by apply extracted_other.
  - by apply restoreSessions_registry.
Qed.

(** X5. The sessions are restarted exactly when the extraction has closed,
    and then once, after both copies have been made, whether they returned
    or threw. *)
Theorem restoreSessions_restarts_after_copies e file w :
  is_zip file = true -> pending w = [] ->
  let w' := complete e (restoreSessions e file) w in
  (EvStartAllSessions ∈ since w w' <-> EvExtractClose ∈ since w w') /\
  (EvExtractClose ∈ since w w' ->
   exists pre post,
     since w w' = pre ++ EvStartAllSessions :: post /\
     (EvStartAllSessions ∉ pre) /\ (EvStartAllSessions ∉ post) /\
     before (EvCpSync (tokens_copy e).1 (tokens_copy e).2 true)
            (EvCpSync (userData_copy e).1 (userData_copy e).2 false) pre).
Proof.
  intros Hzip Hq w'.
  destruct (restoreSessions_outcome e file w Hzip Hq) as (evs & Hev & Hs & _).
  fold w' in Hs. rewrite Hs.
  destruct (extracts e (file ≫= upload) (disk w)).
  - unfold merge_events.
    set (l1 := if copy_ok _ _ true _ then [] else [_]).
    set (l2 := if copy_ok _ _ false _ then [] else [_]).
    assert (EvStartAllSessions ∉ l1) as Hl1.
    { unfold l1. destruct (copy_ok _ _ true _); solve_notin. }
    assert (EvStartAllSessions ∉ l2) as Hl2.
    { unfold l2. destruct (copy_ok _ _ false _); solve_notin. }
    split.
    + split; intros _; apply elem_of_app; right.
      * apply list_elem_of_further, list_elem_of_here.
      * rewrite !elem_of_cons, !elem_of_app, !elem_of_cons. auto 20.
    + intros _.
      exists (evs ++ EvExtract :: EvExtractClose ::
              [EvCpSync (tokens_copy e).1 (tokens_copy e).2 true] ++ l1 ++
              [EvCpSync (userData_copy e).1 (userData_copy e).2 false] ++ l2 ++
              [EvLog Info "Sessions successfully restored. Starting..."]), [].
      split_and!.
      * repeat (rewrite <- ?app_assoc; simpl). done.
      * intros Hin. absurd_in Hin.
      * by intros ?%elem_of_nil.
      * exists (evs ++ EvExtract :: EvExtractClose ::
                [EvCpSync (tokens_copy e).1 (tokens_copy e).2 true] ++ l1),
               (l2 ++ [EvLog Info "Sessions successfully restored. Starting..."]).
        split; [repeat (rewrite <- ?app_assoc; simpl); done|].
        apply elem_of_app. right. do 2 apply list_elem_of_further.
        apply elem_of_app. left. apply list_elem_of_here.
  - split.
    + split; intros Hin; absurd_in Hin.
    + intros Hin. absurd_in Hin.
Qed.

End RestoreOutcomes.

Section RestorePlaces.


Lemma cwd_restore_not_tokens e : at_cwd e "restore" ≠ at_cwd e "tokens".
Proof. unfold at_cwd. vm_compute. congruence. Qed.

(** X7. Nothing removes what a restore has extracted: once the extraction has
    closed, every file of the upload is below the [restore] directory,
    and it still is when the restore is over. *)
Theorem restoreSessions_leaves_extraction_directory e file a w :
  is_zip file = true -> pending w = [] ->
  file ≫= upload = Some a -> wf (Dir a) ->
  let w' := complete e (restoreSessions e file) w in
  EvExtractClose ∈ since w w' ->
  forall q c, file_at (Dir a) q = Some c ->
              file_in (disk w' !! at_cwd e "restore") q = Some c.
Proof.
  intros Hzip Hq Hup Ha w' Hclose q c Hf.
  destruct (restoreSessions_closed e file w Hzip Hq Hclose)
    as (a' & Hup' & Hex & Hd & _).
  fold w' in Hd.
  pose proof (eq_trans (eq_sym Hup) Hup') as Heq. injection Heq as <-.
  rewrite Hd. unfold merged, tokens_copy, userData_copy. simpl.
  apply copied_keep_files. rewrite copied_other.
  - by apply extracted_files.
  - apply cwd_restore_not_tokens.
Qed.

End RestorePlaces.

(** * restoreSessions merges, it does not replace *)

Section RestoreMerge.

(** The server is started from its project root; where it is needed, the
    directory of the User Data Tree lies apart from the tokens directory
    and from the extraction directory. *)
Context (e : env).
Hypothesis Hroot : cwd_is_root e = true.
Hypothesis Htokens : apart (userDataDir e) tokensDir.
Hypothesis Hrestore : apart (userDataDir e) (at_root "restore").

(** X8. A restore removes no file of the Token Store: a file that was there is
    a file afterwards, with the bytes it had or with the bytes that the
    [restore] directory holds for it below [tokens]. *)
Theorem restoreSessions_keeps_token_files file w p c :
  is_zip file = true -> pending w = [] -> wf_disk (disk w) ->
  (forall a : archive, file ≫= upload = Some a -> wf (Dir a)) ->
  file_in (disk w !! tokensDir) p = Some c ->
  let w' := complete e (restoreSessions e file) w in
  file_in (disk w' !! tokensDir) p = Some c \/
  exists c',
    file_in (disk w' !! at_root "restore") ("tokens" :: p) = Some c' /\
    file_in (disk w' !! tokensDir) p = Some c'.
Proof.
  intros Hzip Hq Hd Ha Hf w'.
  destruct (restoreSessions_outcome e file w Hzip Hq) as (evs & _ & _ & Hd').
  fold w' in Hd'. rewrite Hd'. clear Hd'.
  destruct (file ≫= upload) as [a|] eqn:Hup; [|by left].
  destruct (extracts e (Some a) (disk w)); simpl.
  - apply (merged_token_file e Hroot); [done|by apply Ha|done].
  - left. rewrite extracted_other; [done|].
    rewrite (cwd_restore e Hroot). by intros [=].
Qed.



End RestoreMerge.

(** * restoreSessions: which uploads pass the validation *)

Section RestoreValidation.

Lemma prefix_append needle post : String.prefix needle (needle +:+ post) = true.
Proof.
  induction needle as [|a needle IH]; simpl; [by destruct post|].
  by destruct (Ascii.ascii_dec a a).
Qed.

Lemma prefix_inv needle : forall haystack,
  String.prefix needle haystack = true ->
  exists post, haystack = needle +:+ post.
Proof.
  induction needle as [|a needle IH]; intros haystack; simpl.
  - intros _. by exists haystack.
  - destruct haystack as [|b haystack]; [done|]. simpl.
    destruct (Ascii.ascii_dec a b) as [->|]; [|done].
    intros [post ->]%IH. by exists post.
Qed.

Lemma includes_String needle b haystack :
  includes needle (String b haystack)
  = String.prefix needle (String b haystack) || includes needle haystack.
Proof. done. Qed.

(** [includes] is the substring test. *)
Lemma includes_spec needle haystack :
  includes needle haystack = true <->
  exists pre post, haystack = pre +:+ needle +:+ post.
Proof.
  split.
  - induction haystack as [|b haystack IH].
    + simpl. rewrite orb_false_r. destruct needle; [|done]. by exists "", "".
    + rewrite includes_String.
      intros [[post ->]%prefix_inv|H]%orb_true_iff.
      * by exists "", post.
      * destruct (IH H) as (pre & post & ->). by exists (String b pre), post.
  - intros (pre & post & ->). induction pre as [|b pre IH].
    + change ("" +:+ needle +:+ post) with (needle +:+ post).
      destruct (needle +:+ post) eqn:Heq.
      * destruct needle; done.
      * rewrite includes_String, <- Heq, prefix_append. done.
    + change (String b pre +:+ needle +:+ post)
        with (String b (pre +:+ needle +:+ post)).
      rewrite includes_String, IH. apply orb_true_r.
Qed.

(** X11. [restoreSessions] acknowledges exactly the uploads whose declared
    content type has [zip] somewhere in it, in lower case; what was
    uploaded plays no part in this. *)
Theorem restoreSessions_accepts_zip_substring e file w :
  (restoreSessions e file w).1 = Ok {| success := true; message := None |} <->
  exists pre post up,
    file = Some {| mimetype := Some (pre +:+ "zip" +:+ post); upload := up |}.
Proof.
  split.
  - destruct (is_zip file) eqn:Hzip.
    + intros _. destruct file as [[[m|] up]|]; try done.
      apply includes_spec in Hzip as (pre & post & ->). by exists pre, post, up.
    + unfold restoreSessions. by rewrite Hzip.
  - intros (pre & post & up & ->).
    destruct (restoreSessions_run e
      (Some {| mimetype := Some (pre +:+ "zip" +:+ post); upload := up |}) w)
      as (w1 & -> & _); [|done].
    apply includes_spec. by exists pre, post.
Qed.

End RestoreValidation.

(** * restoreSessions: the teardown comes first *)

Section RestoreOrder.

(** X21. In a whole run of [restoreSessions] on a zip upload the
    extraction is started once; what comes before it are the events of the
    teardown, and no close request is issued after it.  The requests are
    not awaited: nothing here tells that a browser has stopped when the
    files are written. *)
Theorem restoreSessions_closes_before_extracting e file w :
  is_zip file = true -> pending w = [] ->
  let w' := complete e (restoreSessions e file) w in
  exists pre post,
    since w w' = pre ++ EvExtract :: post /\
    (EvExtract ∉ pre) /\ (EvExtract ∉ post) /\
    Forall teardown_event pre /\
    forall s, EvClose s ∉ post.
Proof.
  intros Hzip Hq w'.
  destruct (restoreSessions_outcome e file w Hzip Hq) as (evs & Hev & Hs & Hd).
  fold w' in Hs.
  eexists evs, _. split; [exact Hs|]. split_and!; [|  |done|].
  - intros Hin. absurd_in Hin.
  - destruct (extracts e (file ≫= upload) (disk w)).
    + unfold merge_events.
      destruct (copy_ok _ _ true _), (copy_ok _ _ false _);
        simpl; solve_notin.
    + solve_notin.
  - intros s. destruct (extracts e (file ≫= upload) (disk w)).
    + unfold merge_events.
      destruct (copy_ok _ _ true _), (copy_ok _ _ false _);
        simpl; solve_notin.
    + solve_notin.
Qed.

End RestoreOrder.

(** * deleteAllSessions: the files of the Token Store *)

Section PurgeRuns.




(** [deleteAllSessions] with the registry: the teardown has removed the
    enumerated sessions, and the two phases leave the registry and the
    queue alone and only log. *)
Lemma deleteAllSessions_worlds e w :
  exists w1 w2,
    exec (deleteAllSessions e) w = exec (clear_tokens e) w2 /\
    teardown w w1 /\
    (forall s, s ∈ getAllTokens e (disk w) -> clientsArray w1 !! s = None) /\
    cleared (userDataDir e) w1 w2 /\
    purged tokensDir w2 (exec (clear_tokens e) w2) /\
    dirs_stay tokensDir w2 (exec (clear_tokens e) w2).
Proof.
  unfold deleteAllSessions. run.
  destruct (closeAllSessions_teardown e
    (set_trace (fun t => t ++ [EvLog Info "Attempting to delete all sessions..."]) w))
    as (wc & -> & Htd & Hgone).
  set (w1 := set_trace (fun t => t ++ [EvLog Info "All active browser sessions closed."]) wc).
  destruct (clear_userData_run e w1) as (w2 & Hud & Hp & _).
  rewrite Hud. exists w1, w2.
  destruct (clear_tokens_step e w2) as (Hpt & Hst & _).
  split_and!; [|  |by apply Hgone|done|done|done].
  - unfold exec. by destruct (clear_tokens e w2) as [[[]|err] w3].
  - eapply teardown_trans; [|eapply teardown_trans; [apply Htd|]].
    + split; simpl; try done; [|auto].
      eexists [_]. split_and!; [done|by repeat constructor|].
      apply closes_after_delete_quiet. by repeat constructor.
    + split; simpl; try done; [|auto].
      eexists [_]. split_and!; [done|by repeat constructor|].
      apply closes_after_delete_quiet. by repeat constructor.
Qed.




End PurgeRuns.

(** * deleteAllSessions: what it leaves alone and what it leaves behind *)

Section PurgeOutcomes.


(** X13. Unlike a backup or a restore, [deleteAllSessions] does not restart the
    sessions: whether it returns or throws, it has only closed sessions
    and logged, and none of the enumerated sessions is in the registry. *)
Theorem deleteAllSessions_leaves_sessions_closed e w :
  let w' := exec (deleteAllSessions e) w in
  Forall teardown_event (since w w') /\
  (EvStartAllSessions ∉ since w w') /\
  (forall s, s ∈ getAllTokens e (disk w) -> clientsArray w' !! s = None).
Proof.
  intros w'.
  destruct (deleteAllSessions_worlds e w)
    as (w1 & w2 & Hw' & Htd & Hgone & Hp & Hpt & _).
  fold w' in Hw'. rewrite <- Hw' in Hpt.
  destruct Htd as [_ _ _ _ _ (evs1 & Ht1 & Hev1 & _) _].
  destruct Hp as [[Hc2 _ _ _ _ (evs2 & Ht2 & Hev2)] _ _ _].
  destruct Hpt as [[Hc3 _ _ _ _ (evs3 & Ht3 & Hev3)] _ _ _].
  assert (forall evs, Forall is_log evs -> Forall teardown_event evs) as Hlog.
  { intros evs Hevs. eapply Forall_impl; [exact Hevs|]. by intros []. }
  assert (Forall teardown_event (since w w')) as Hall.
  { rewrite (since_app w w' (evs1 ++ evs2 ++ evs3)).
    - rewrite !Forall_app. auto.
    - by rewrite Ht3, Ht2, Ht1, <- !app_assoc. }
  split_and!; [done| |].
  - intros Hin. rewrite Forall_forall in Hall. by apply Hall in Hin.
  - intros s Hs. rewrite Hc3, Hc2. by apply Hgone.
Qed.



(** X16. When neither store exists, as on a fresh installation, each phase logs
    its warning and the operation returns its acknowledgment with the disk
    untouched. *)
Theorem deleteAllSessions_without_stores e w :
  disk w !! userDataDir e = None -> disk w !! tokensDir = None ->
  let w' := exec (deleteAllSessions e) w in
  (deleteAllSessions e w).1 = Ok purge_ack /\
  disk w' = disk w /\
  EvLog Warn ("Session directory does not exist, nothing to clear: "
              +:+ show (userDataDir e)) ∈ since w w' /\
  EvLog Warn ("Tokens directory does not exist, nothing to clear: "
              +:+ show tokensDir) ∈ since w w'.
Proof.
  intros Hud Htok w'.
  assert (exists wc evs,
    deleteAllSessions e w =
      (Ok purge_ack,
       set_trace (fun t => t ++
         [EvLog Info "All active browser sessions closed.";
          EvLog Info ("Attempting to clear session directory: "
                      +:+ show (userDataDir e));
          EvLog Warn ("Session directory does not exist, nothing to clear: "
                      +:+ show (userDataDir e));
          EvLog Info ("Attempting to clear tokens directory: "
                      +:+ show tokensDir);
          EvLog Warn ("Tokens directory does not exist, nothing to clear: "
                      +:+ show tokensDir)]) wc) /\
    disk wc = disk w /\ trace wc = trace w ++ evs)
    as (wc & evs & Hrun & Hd & Ht).
  { unfold deleteAllSessions. run.
    destruct (closeAllSessions_teardown e
      (set_trace (fun t => t ++ [EvLog Info "Attempting to delete all sessions..."]) w))
      as (wc & -> & Htd & _).
    destruct Htd as [Hd _ _ _ _ (evs & Ht & _) _]. simpl in Hd, Ht.
    unfold clear_userData, clear_tokens, existsSync. run.
    rewrite Hd, Hud. simpl. rewrite Hd, Htok. simpl.
    exists wc, (EvLog Info "Attempting to delete all sessions..." :: evs).
    split_and!; [|done|by rewrite Ht, <- app_assoc].
    f_equal. unfold set_trace. simpl. by rewrite <- !app_assoc. }
  unfold w', exec. rewrite Hrun. simpl.
  split_and!; [done|done| |];
    rewrite (since_app w _ (evs ++ _)) by (simpl; by rewrite Ht, <- app_assoc);
    apply elem_of_app; right.
  - do 2 apply list_elem_of_further. apply list_elem_of_here.
  - do 4 apply list_elem_of_further. apply list_elem_of_here.
Qed.

End PurgeOutcomes.

(** * deleteAllSessions after restoreSessions *)

Section PurgeAfterRestore.


End PurgeAfterRestore.

(** * closeAllSessions: the turns of the loop and the grace period *)

Section CloseRuns.

(** One turn of the [forEach], up to its first suspension. *)
Lemma stop_session_run session w :
  let c := clientsArray w !! session in
  exists w', stop_session session w = (Ok tt, w') /\
    clientsArray w' = delete session (clientsArray w) /\
    trace w' = trace w ++ stop_events session c /\
    pending w' = pending w ++ stop_tasks session c /\
    disk w' = disk w.
Proof.
  unfold stop_session, delete_client, stop_events, stop_tasks. run.
  destruct (clientsArray w !! session) as [[[st|] cl]|]; simpl;
    [destruct (String.eqb st ""); simpl; [|destruct cl as [| |ok []]; simpl]| |];
    (eexists; split; [reflexivity|]); simpl;
    rewrite <- ?app_assoc, ?app_nil_r; split_and!; try done;
    apply delete_delete_eq.
Qed.

(** The whole [forEach]. *)
Lemma stop_sessions_run names : forall w,
  exists w', for_of names stop_session w = (Ok tt, w') /\
    (forall k, clientsArray w' !! k =
               if decide (k ∈ names) then None else clientsArray w !! k) /\
    trace w' = trace w ++ close_events names (clientsArray w) /\
    pending w' = pending w ++ close_tasks names (clientsArray w) /\
    disk w' = disk w.
Proof.
  induction names as [|s names IH]; intros w.
  - exists w. simpl. rewrite !app_nil_r. by split_and!.
  - destruct (stop_session_run s w) as (w1 & Hs & Hc1 & Ht1 & Hq1 & Hd1).
    destruct (IH w1) as (w2 & Hrest & Hc2 & Ht2 & Hq2 & Hd2).
    exists w2. split_and!.
    + simpl. unfold mbind, M_bind. by rewrite Hs.
    + intros k. rewrite Hc2, Hc1.
      destruct (decide (k ∈ s :: names)) as [Hin|Hni].
      * apply elem_of_cons in Hin as [->|Hin].
        -- rewrite lookup_delete_eq. by case_decide.
        -- by rewrite decide_True.
      * apply not_elem_of_cons in Hni as [Hne Hni].
        rewrite decide_False by done. by rewrite lookup_delete_ne.
    + rewrite Ht2, Ht1, Hc1. simpl. by rewrite <- app_assoc.
    + rewrite Hq2, Hq1, Hc1. simpl. by rewrite <- app_assoc.
    + congruence.
Qed.

(** The continuations that run within the grace period. *)
Lemma after_settled_loop ts : forall w,
  exists w', for_of ts after_settled w = (Ok tt, w') /\
    trace w' = trace w ++ concat (settled_events <$> ts) /\
    pending w' = pending w /\ disk w' = disk w /\
    forall k, (forall ok tm, CloseSettled k ok tm ∉ ts) ->
              clientsArray w' !! k = clientsArray w !! k.
Proof.
  induction ts as [|t ts IH]; intros w.
  - exists w. simpl. rewrite app_nil_r. by split_and!.
  - assert (exists w1, after_settled t w = (Ok tt, w1) /\
              trace w1 = trace w ++ settled_events t /\
              pending w1 = pending w /\ disk w1 = disk w /\
              forall k, (forall ok tm, t ≠ CloseSettled k ok tm) ->
                        clientsArray w1 !! k = clientsArray w !! k)
      as (w1 & Ht & Ht1 & Hq1 & Hd1 & Hc1).
    { destruct t as [s [|] tm| | |]; simpl; unfold delete_client; run;
        (eexists; split; [reflexivity|]); simpl; rewrite ?app_nil_r;
        split_and!; try done.
      intros k Hk. rewrite lookup_delete_ne; [done|].
      intros ->. by apply (Hk true tm). }
    destruct (IH w1) as (w2 & Hrest & Ht2 & Hq2 & Hd2 & Hc2).
    exists w2. split_and!; try congruence.
    + simpl. unfold mbind, M_bind. by rewrite Ht.
    + rewrite Ht2, Ht1. simpl. by rewrite <- app_assoc.
    + intros k Hk. rewrite Hc2, Hc1; [done| |].
      * intros ok tm ->. apply (Hk ok tm), list_elem_of_here.
      * intros ok tm Hin. apply (Hk ok tm). by apply list_elem_of_further.
Qed.

(** [closeAllSessions] in full: the turns of the loop, the continuations
    that settle within the grace period, and what stays pending. *)
Lemma closeAllSessions_run e w :
  let names := getAllTokens e (disk w) in
  let queue := pending w ++ close_tasks names (clientsArray w) in
  exists w', closeAllSessions e w = (Ok tt, w') /\
    trace w' = trace w ++ close_events names (clientsArray w) ++
               concat (settled_events <$> List.filter in_grace queue) ++
               [EvGrace] /\
    pending w' = List.filter (fun t => negb (in_grace t)) queue /\
    disk w' = disk w /\
    forall k, k ∉ names ->
      (forall ok tm, CloseSettled k ok tm ∉ List.filter in_grace queue) ->
      clientsArray w' !! k = clientsArray w !! k.
Proof.
  intros names queue. unfold closeAllSessions, grace_period. run.
  fold names.
  destruct (stop_sessions_run names w) as (w1 & Hloop & Hc1 & Ht1 & Hq1 & Hd1).
  rewrite Hloop.
  destruct (after_settled_loop (List.filter in_grace (pending w1))
              (set_pending (List.filter (fun t => negb (in_grace t))) w1))
    as (w2 & Hrun & Ht2 & Hq2 & Hd2 & Hc2).
  rewrite Hrun. eexists. split; [reflexivity|]. simpl in *.
  rewrite Ht2, Hq2, Hd2, Ht1, Hq1, Hd1. fold queue.
  split_and!; try done.
  - by rewrite <- !app_assoc.
  - intros k Hk Hno. rewrite Hc2.
    + rewrite Hc1. by rewrite decide_False.
    + by rewrite Hq1.
Qed.

End CloseRuns.

(** * Facts about the turns of the loop *)

Section CloseTurns.

Lemma elem_of_concat {A} (x : A) (ls : list (list A)) :
  x ∈ concat ls <-> exists l, x ∈ l /\ l ∈ ls.
Proof.
  induction ls as [|l0 ls IH]; simpl.
  - split; [by intros ?%elem_of_nil|by intros (? & _ & ?%elem_of_nil)].
  - rewrite elem_of_app, IH. split.
    + intros [?|(l & ? & ?)]; [exists l0|exists l]; split; try done;
        [apply list_elem_of_here|by apply list_elem_of_further].
    + intros (l & Hx & [->|?]%elem_of_cons); [by left|right; by exists l].
Qed.

Lemma error_message_inj s s' :
  EvLog Error ("Error stopping session: " +:+ s)
  = EvLog Error ("Error stopping session: " +:+ s') -> s = s'.
Proof. intros H. by simplify_eq/=. Qed.

(** A continuation is left behind only for an enumerated session whose
    client had a status and whose close request settles. *)
Lemma close_tasks_inv names : forall cs t,
  t ∈ close_tasks names cs ->
  exists s ok tm c, t = CloseSettled s ok tm /\ s ∈ names /\
    cs !! s = Some c /\ truthy (Some c) = true /\
    close c = CloseSettles ok tm.
Proof.
  induction names as [|s0 names IH]; intros cs t; simpl.
  - by intros ?%elem_of_nil.
  - intros [Hin|Hin]%elem_of_app.
    + unfold stop_tasks in Hin.
      destruct (cs !! s0) as [c|] eqn:Hc; [|by apply elem_of_nil in Hin].
      destruct (truthy (Some c)) eqn:Htr; [|by apply elem_of_nil in Hin].
      simpl in Hin. destruct (close c) as [| |ok [| |]] eqn:Hcl;
        try (by apply elem_of_nil in Hin);
        apply list_elem_of_singleton in Hin as ->;
        exists s0, ok; eexists _, c;
        (split_and!; [done|apply list_elem_of_here|done|done|done]).
    + destruct (IH _ _ Hin) as (s & ok & tm & c & -> & Hs & Hc & Htr & Hcl).
      apply lookup_delete_Some in Hc as [Hne Hc].
      exists s, ok, tm, c.
      split_and!; [done|by apply list_elem_of_further|done|done|done].
Qed.

(** The first turn for a session whose close request settles in time or
    late leaves its continuation behind. *)
Lemma close_tasks_intro names : forall cs s c ok tm,
  s ∈ names -> cs !! s = Some c -> truthy (Some c) = true ->
  close c = CloseSettles ok tm -> tm ≠ Never ->
  CloseSettled s ok tm ∈ close_tasks names cs.
Proof.
  induction names as [|s0 names IH]; intros cs s c ok tm Hin Hc Htr Hcl Htm.
  - by apply elem_of_nil in Hin.
  - simpl. apply elem_of_app. destruct (decide (s = s0)) as [->|Hne].
    + left. unfold stop_tasks. rewrite Hc, Htr. simpl. rewrite Hcl.
      destruct tm; [apply list_elem_of_here|apply list_elem_of_here|done].
    + right. apply elem_of_cons in Hin as [->|Hin]; [done|].
      apply (IH _ _ c); try done. by rewrite lookup_delete_ne.
Qed.

(** A close request is made exactly for the enumerated sessions whose
    client has a status and a browser to close. *)
Lemma close_events_close names : forall cs s,
  EvClose s ∈ close_events names cs <->
  s ∈ names /\ truthy (cs !! s) = true /\ close <$> cs !! s ≠ Some NoBrowser.
Proof.
  induction names as [|s0 names IH]; intros cs s; cbn [close_events].
  - split; [by intros ?%elem_of_nil|by intros [?%elem_of_nil _]].
  - rewrite elem_of_app, IH, elem_of_cons. unfold stop_events.
    destruct (decide (s = s0)) as [->|Hne].
    + rewrite lookup_delete_eq.
      destruct (truthy (cs !! s0)) eqn:Htr.
      * destruct (cs !! s0) as [[st [| |ok tm]]|]; simpl.
        -- split; [|by intros (_ & _ & ?)].
           intros [Hin|(_ & ? & _)]; [|done]. absurd_in Hin.
        -- split; [by auto|]. intros _. left.
           do 2 apply list_elem_of_further. apply list_elem_of_here.
        -- split; [by auto|]. intros _. left.
           do 2 apply list_elem_of_further. apply list_elem_of_here.
        -- split; [|by intros (_ & _ & ?)].
           intros [Hin|(_ & ? & _)]; [|done]. absurd_in Hin.
      * split; [|by intros (_ & ? & _)].
        intros [Hin|(_ & ? & _)]; [|done]. absurd_in Hin.
    + rewrite lookup_delete_ne by done. split.
      * intros [Hin|(? & ? & ?)]; [|auto].
        destruct (truthy (cs !! s0));
          [destruct (close <$> cs !! s0) as [[| |? ?]|]|];
          simpl in Hin;
          rewrite ?elem_of_cons, ?elem_of_nil in Hin; destruct_or?;
          try done; congruence.
      * intros ([?|?] & ? & ?); [done|auto].
Qed.

(** The loop logs an error for a session only when there is no browser
    to close or the close request throws at once. *)
Lemma close_events_error names : forall cs s,
  EvLog Error ("Error stopping session: " +:+ s) ∈ close_events names cs ->
  exists c, cs !! s = Some c /\ truthy (Some c) = true /\
            forall ok tm, close c ≠ CloseSettles ok tm.
Proof.
  induction names as [|s0 names IH]; intros cs s; cbn [close_events].
  - by intros ?%elem_of_nil.
  - intros [Hin|Hin]%elem_of_app.
    + unfold stop_events in Hin.
      destruct (cs !! s0) as [[[st|] cl]|] eqn:Hc; simpl in Hin;
        [|absurd_in Hin|absurd_in Hin].
      destruct (String.eqb st "") eqn:Hst; simpl in Hin; [absurd_in Hin|].
      destruct cl as [| |ok tm]; simpl in Hin; [| |absurd_in Hin];
        rewrite !elem_of_cons, elem_of_nil in Hin; destruct_or?; try done;
        match goal with H : EvLog _ _ = EvLog _ _ |- _ =>
          apply error_message_inj in H as -> end;
        (eexists; split; [done|]); simpl; by rewrite Hst.
    + destruct (IH _ _ Hin) as (c & Hc & Htr & Hcl).
      apply lookup_delete_Some in Hc as [Hne Hc]. by exists c.
Qed.

End CloseTurns.

(** * closeAllSessions: which sessions it touches, and what it waits for *)

Section CloseOutcomes.

(** The event loop on a queue of close continuations. *)
Lemma event_loop_settles e q : forall w,
  Forall is_close_task q -> pending w = q ->
  trace (event_loop e w) = trace w ++ concat (settled_events <$> q).
Proof.
  induction q as [|t q IH]; intros w Hall Hq.
  - rewrite event_loop_nil by done. simpl. by rewrite app_nil_r.
  - apply Forall_cons in Hall as [Ht Hall].
    rewrite (event_loop_cons e w _ _ Hq).
    destruct t as [s ok tm| | |]; try done.
    rewrite IH; [|done|].
    + unfold run_handler, run_task, after_close, delete_client. run.
      destruct ok; simpl; by rewrite <- app_assoc.
    + unfold run_handler, run_task, after_close, delete_client. run.
      by destruct ok.
Qed.

(** X17. [closeAllSessions] removes the sessions that [getAllTokens] lists and
    no other: a client registered under another name is left in the
    registry as it is, and is not closed. *)
Theorem closeAllSessions_keeps_other_sessions e w k :
  pending w = [] -> k ∉ getAllTokens e (disk w) ->
  let w' := exec (closeAllSessions e) w in
  clientsArray w' !! k = clientsArray w !! k /\
  (EvClose k ∉ since w w').
Proof.
  intros Hq Hk w'.
  destruct (closeAllSessions_run e w) as (w1 & Hrun & Ht & _ & _ & Hc).
  assert (w' = w1) as -> by (unfold w', exec; by rewrite Hrun).
  rewrite Hq in Ht, Hc. simpl in Ht, Hc. split.
  - apply Hc; [done|]. intros ok tm Hin.
    apply list_elem_of_In, filter_In in Hin as [Hin _].
    apply list_elem_of_In, close_tasks_inv in Hin
      as (s & ? & ? & ? & [= <- _ _] & Hs & _). done.
  - rewrite (since_app _ _ _ Ht). intros Hin.
    apply elem_of_app in Hin as [Hin|Hin].
    + apply close_events_close in Hin as [? _]. done.
    + apply elem_of_app in Hin as [Hin|Hin]; [|absurd_in Hin].
      apply elem_of_concat in Hin as (l & Hin & Hl).
      apply list_elem_of_fmap in Hl as (t & -> & _).
      destruct t as [? [|] ?| | |]; simpl in Hin; absurd_in Hin.
Qed.

(** X18. A close request is made exactly for the enumerated sessions whose
    client has a truthy [status] and a browser to close: a session without
    a status is removed from the registry without being closed, and so is
    one whose [client.page.browser()] throws. *)
Theorem closeAllSessions_closes_sessions_with_status e w s :
  let w' := exec (closeAllSessions e) w in
  EvClose s ∈ since w w' <->
  s ∈ getAllTokens e (disk w) /\ truthy (clientsArray w !! s) = true /\
  close <$> clientsArray w !! s ≠ Some NoBrowser.
Proof.
  intros w'.
  destruct (closeAllSessions_run e w) as (w1 & Hrun & Ht & _).
  assert (w' = w1) as -> by (unfold w', exec; by rewrite Hrun).
  rewrite (since_app _ _ _ Ht), elem_of_app, close_events_close.
  split; [|auto]. intros [?|Hin]; [done|].
  apply elem_of_app in Hin as [Hin|Hin]; [|absurd_in Hin].
  apply elem_of_concat in Hin as (l & Hin & Hl).
  apply list_elem_of_fmap in Hl as (t & -> & _).
  destruct t as [? [|] ?| | |]; simpl in Hin; absurd_in Hin.
Qed.

(** X19. [closeAllSessions] waits 500 ms, not for the close requests: when the
    request of a session is rejected after that, the operation has
    returned without the error, the continuation is still pending, and the
    error is logged once the event loop runs it. *)
Theorem closeAllSessions_does_not_await_close e w s c :
  pending w = [] -> s ∈ getAllTokens e (disk w) ->
  clientsArray w !! s = Some c -> truthy (Some c) = true ->
  close c = CloseSettles false Late ->
  let w' := exec (closeAllSessions e) w in
  let err := EvLog Error ("Error stopping session: " +:+ s) in
  (err ∉ since w w') /\
  CloseSettled s false Late ∈ pending w' /\
  err ∈ since w (complete e (closeAllSessions e) w).
Proof.
  intros Hq Hs Hc Htr Hcl w' err.
  destruct (closeAllSessions_run e w) as (w1 & Hrun & Ht & Hq1 & _).
  assert (w' = w1) as Hw' by (unfold w', exec; by rewrite Hrun).
  rewrite Hq in Ht, Hq1. simpl in Ht, Hq1.
  assert (CloseSettled s false Late ∈ pending w1) as Hin.
  { rewrite Hq1. apply list_elem_of_In, filter_In. split; [|done].
    apply list_elem_of_In. by apply (close_tasks_intro _ _ _ c). }
  split_and!.
  - rewrite Hw', (since_app _ _ _ Ht). intros Herr.
    apply elem_of_app in Herr as [Herr|Herr].
    + apply close_events_error in Herr as (c' & Hc' & _ & Hno).
      rewrite Hc in Hc'. injection Hc' as <-. by apply (Hno false Late).
    + apply elem_of_app in Herr as [Herr|Herr]; [|absurd_in Herr].
      apply elem_of_concat in Herr as (l & Herr & Hl).
      apply list_elem_of_fmap in Hl as (t & -> & Ht').
      apply list_elem_of_In, filter_In in Ht' as [Ht' Hgrace].
      apply list_elem_of_In, close_tasks_inv in Ht'
        as (s' & ok & tm & c' & -> & _ & Hc' & _ & Hcl').
      destruct ok; simpl in Herr; [absurd_in Herr|].
      apply list_elem_of_singleton, error_message_inj in Herr as ->.
      rewrite Hc in Hc'. injection Hc' as <-.
      rewrite Hcl in Hcl'. injection Hcl' as <-. done.
  - by rewrite Hw'.
  - unfold complete. fold w'. rewrite Hw'.
    assert (Forall is_close_task (pending w1)) as Hall.
    { rewrite Hq1. apply Forall_forall. intros t Ht'.
      apply list_elem_of_In, filter_In in Ht' as [Ht' _].
      by apply list_elem_of_In, close_tasks_inv in Ht'
        as (? & ? & ? & ? & -> & _). }
    rewrite (since_app w _ (close_events (getAllTokens e (disk w)) (clientsArray w)
      ++ (concat (settled_events <$> List.filter in_grace
            (close_tasks (getAllTokens e (disk w)) (clientsArray w))) ++ [EvGrace])
      ++ concat (settled_events <$> pending w1))).
    + rewrite !elem_of_app. right. right.
      apply elem_of_concat. exists (settled_events (CloseSettled s false Late)).
      split; [apply list_elem_of_here|]. by apply list_elem_of_fmap_2.
    + rewrite (event_loop_settles e _ w1 Hall eq_refl), Ht.
      by rewrite <- !app_assoc.
Qed.

(** X20. A teardown after a teardown finds the enumerated sessions gone: it
    issues no close request and logs no session as stopping. *)
Theorem closeAllSessions_twice e w s :
  let w1 := exec (closeAllSessions e) w in
  let w2 := exec (closeAllSessions e) w1 in
  (EvClose s ∉ since w1 w2) /\
  (EvLog Info ("Stopping session: " +:+ s) ∉ since w1 w2).
Proof.
  intros w1 w2.
  destruct (closeAllSessions_teardown e w) as (w1' & Hrun1 & Htd & Hgone).
  assert (w1 = w1') as Hw1 by (unfold w1, exec; by rewrite Hrun1).
  destruct (closeAllSessions_run e w1) as (w2' & Hrun2 & Ht & _).
  assert (w2 = w2') as -> by (unfold w2, exec; by rewrite Hrun2).
  rewrite (since_app _ _ _ Ht).
  assert (forall k, k ∈ getAllTokens e (disk w1) -> clientsArray w1 !! k = None)
    as Hnone.
  { intros k. rewrite Hw1, (td_disk _ _ Htd). apply Hgone. }
  assert (forall ev,
            ev ∈ concat (settled_events <$> List.filter in_grace
              (pending w1 ++ close_tasks (getAllTokens e (disk w1))
                                (clientsArray w1))) ++ [EvGrace] ->
            (forall k, ev ≠ EvClose k) /\
            (forall k, ev ≠ EvLog Info ("Stopping session: " +:+ k))) as Hrest.
  { intros ev Hin. apply elem_of_app in Hin as [Hin|Hin].
    - apply elem_of_concat in Hin as (l & Hin & Hl).
      apply list_elem_of_fmap in Hl as (t & -> & _).
      destruct t as [? [|] ?| | |]; simpl in Hin;
        try (by apply elem_of_nil in Hin);
        apply list_elem_of_singleton in Hin as ->; by split.
    - apply list_elem_of_singleton in Hin as ->. by split. }
  assert (forall l cs ev, (forall k, k ∈ l -> cs !! k = None) ->
            ev ∈ close_events l cs -> exists k, ev = EvDelete k) as Hquiet.
  { clear. intros l. induction l as [|s0 l IH]; intros cs ev Hcs;
      cbn [close_events].
    - by intros ?%elem_of_nil.
    - rewrite elem_of_app. intros [Hin|Hin].
      + unfold stop_events in Hin.
        rewrite (Hcs s0) in Hin by apply list_elem_of_here. simpl in Hin.
        rewrite !elem_of_cons, elem_of_nil in Hin.
        destruct Hin as [->|[->|[]]]; by exists s0.
      + apply (IH (delete s0 cs)); [|done].
        intros k Hk. rewrite lookup_delete. case_decide; [done|].
        apply Hcs. by apply list_elem_of_further. }
  split; intros [Hin|Hin]%elem_of_app.
  - by apply (Hquiet _ _ _ Hnone) in Hin as [k ?].
  - by apply Hrest in Hin as [H _]; apply (H s).
  - by apply (Hquiet _ _ _ Hnone) in Hin as [k ?].
  - by apply Hrest in Hin as [_ H]; apply (H s).
Qed.

End CloseOutcomes.

(** * The statements on concrete worlds *)

Module Witnesses.
Import Examples.

Lemma ex_disk_wf : wf_disk ex_disk.
Proof.
  unfold ex_disk. repeat apply wf_disk_insert; try apply wf_disk_empty;
    solve_wf.
Qed.

(** One close request throws, the other resolves: both sessions are gone. *)
Example closeAllSessions_example :
  let w' := exec (closeAllSessions ex_env) ex_world in
  clientsArray w' = ∅ /\
  trace w' =
    [EvDelete "alice"; EvLog Info "Stopping session: alice"; EvClose "alice";
     EvDelete "bob"; EvLog Info "Stopping session: bob"; EvClose "bob";
     EvLog Error "Error stopping session: bob";
     EvDelete "alice"; EvGrace].
Proof. split; [by apply map_eq; intros k; vm_compute|reflexivity]. Qed.





(** [./tokens] names the Token Store, and a directory below the Token
    Store does not lie apart from it. *)
Example at_cwd_example :
  at_cwd ex_env "./tokens" = tokensDir /\
  at_cwd ex_env "userDataDir/../tokens/" = tokensDir /\
  ¬ apart (at_cwd ex_env "tokens/profiles") tokensDir /\
  ¬ apart (at_cwd ex_env ".") tokensDir /\
  ¬ apart (at_cwd ex_env "/srv/data") tokensDir.
Proof.
  split_and!; [reflexivity|reflexivity| | |];
    apply (bool_decide_unpack _); vm_compute; exact I.
Qed.

(** The backup of the example streams its archive and restarts the
    sessions; the restore of that archive into a fresh installation gives
    the two stores back. *)
Example backup_then_restore_example :
  since ex_world ex_backup =
    [EvDelete "alice"; EvLog Info "Stopping session: alice"; EvClose "alice";
     EvDelete "bob"; EvLog Info "Stopping session: bob"; EvClose "bob";
     EvLog Error "Error stopping session: bob";
     EvDelete "alice"; EvGrace;
     EvCpSync (userDataDir ex_env, []) backupFolder true;
     EvFinalize; EvOutputClose; EvRmSync backupFolder; EvPipe; EvStreamEnd;
     EvLog Info "Sessions successfully backuped. Restarting sessions...";
     EvStartAllSessions; EvResEnd] /\
  disk ex_restored !! tokensDir = Some ex_tokens /\
  disk ex_restored !! userDataDir ex_env = Some ex_userData.
Proof. split_and!; reflexivity. Qed.



Lemma restoreSessions_rejects_other_types_witness :
  is_zip ex_text = false /\
  restoreSessions ex_env ex_text ex_world
  = (Throw "Please, send zipped file", ex_world).
Proof.
  split; [reflexivity|].
  apply (restoreSessions_rejects_other_types ex_env ex_text ex_world).
  reflexivity.
Defined.



(** When [customUserDataDir] names the tokens directory, the User Data
    Tree phase removes the subdirectories of the Token Store together with
    its files. *)
Example deleteAllSessions_same_directory_example :
  let w' := exec (deleteAllSessions ex_env_same) ex_world in
  userDataDir ex_env_same = tokensDir /\
  lookup_path (disk ex_world) (tokensDir, ["keep"])
  = Some (Dir [("note", File ["n"%byte])]) /\
  lookup_path (disk w') (tokensDir, ["keep"]) = None.
Proof. split_and!; reflexivity. Qed.

(** A recursive removal that fails midway: the directory is still there,
    with the file it could not remove, and the error is logged. *)
Example deleteAllSessions_partial_removal_example :
  let w' := exec (deleteAllSessions ex_env_busy) ex_busy_world in
  (deleteAllSessions ex_env_busy ex_busy_world).1 = Ok purge_ack /\
  disk w' !! userDataDir ex_env_busy
  = Some (Dir [("profile", Dir [("b", File ["b"%byte])])]) /\
  EvLog Error "Error deleting item <root>/userDataDir/profile: EBUSY"
  ∈ since ex_busy_world w'.
Proof. split_and!; [reflexivity|reflexivity|solve_in]. Qed.

Lemma backupSessions_restarts_after_stream_witness :
  pending ex_world = [] /\
  pending ex_backup = [] /\
  restart_after_stream (since ex_world ex_backup) /\
  (EvStartAllSessions ∈ since ex_world ex_backup ->
   response ex_backup = Some (backup_archive ex_env (disk ex_world))).
Proof.
  split; [reflexivity|].
  apply (backupSessions_restarts_after_stream ex_env ex_world). reflexivity.
Defined.

Lemma restoreSessions_acknowledges_before_merge_witness :
  is_zip (ex_zip (Some ex_archive)) = true /\
  exists w1,
    restoreSessions ex_env (ex_zip (Some ex_archive)) ex_world
    = (Ok {| success := true; message := None |}, w1) /\
    disk w1 = disk ex_world /\
    ExtractJob (Some ex_archive) ∈ pending w1.
Proof.
  split; [reflexivity|].
  destruct (restoreSessions_acknowledges_before_merge ex_env
              (ex_zip (Some ex_archive)) ex_world eq_refl)
    as (w1 & Hrun & Hdisk & _ & Hjob & _).
  exists w1. split_and!; [exact Hrun|exact Hdisk|exact Hjob].
Defined.




Lemma backupSessions_never_resolves_witness :
  pending ex_world = [] /\
  promise ex_backup <> Fulfilled /\ promise ex_backup = Pending.
Proof.
  split; [reflexivity|].
  destruct (backupSessions_never_resolves ex_env ex_world eq_refl)
    as (Hun & Hpending & _).
  split; [exact Hun|]. apply Hpending; reflexivity.
Defined.

Lemma deleteAllSessions_userData_error_not_fatal_witness :
  let w' := exec (deleteAllSessions ex_env_readdir) ex_world in
  readdir_error ex_env_readdir (userDataDir ex_env_readdir) (disk ex_world)
  = Some "EACCES" /\
  before
    (EvLog Error
       ("Error clearing session directory "
        +:+ show (userDataDir ex_env_readdir) +:+ ": " +:+ "EACCES"))
    (EvLog Info ("Attempting to clear tokens directory: " +:+ show tokensDir))
    (since ex_world w') /\
  (deleteAllSessions ex_env_readdir ex_world).1 = Ok purge_ack.
Proof.
  intros w'.
  assert (wf_opt (disk ex_world !! tokensDir)) as Hwf.
  { apply wf_disk_lookup, ex_disk_wf. }
  destruct (deleteAllSessions_userData_error_not_fatal ex_env_readdir ex_world
              "EACCES") as [Hbefore Hack];
    [discriminate|exact Hwf|reflexivity|].
  split_and!; [reflexivity|exact Hbefore|apply Hack; reflexivity].
Defined.

End Witnesses.

(** * The further statements on concrete worlds *)

Module MoreWitnesses.
Import Examples.

Lemma ex_world_wf : wf_disk (disk ex_world).
Proof. apply Witnesses.ex_disk_wf. Qed.

Lemma ex_archive_wf (file := ex_zip (Some ex_archive)) :
  forall a : archive, file ≫= upload = Some a -> wf (Dir a).
Proof. intros a [= <-]. solve_wf. Qed.



Lemma backupSessions_without_userData_hangs_witness :
  let w' := complete ex_env (backupSessions ex_env) ex_conflict_world in
  pending ex_conflict_world = [] /\
  disk ex_conflict_world !! userDataDir ex_env = None /\
  fails ex_env IoArchive = false /\
  promise w' = Pending /\
  zipFile w' = Some [("tokens", Dir [("x", Dir []);
                                     ("b.json", File ["o"%byte])])] /\
  disk w' = disk ex_conflict_world /\
  EvUncaught "ENOENT" ∈ since ex_conflict_world w' /\
  (EvStartAllSessions ∉ since ex_conflict_world w').
Proof.
  intros w'.
  destruct (backupSessions_without_userData_hangs ex_env ex_conflict_world)
    as (_ & Hz & _ & Hd & Hun & _ & _ & Hno & _); [reflexivity|reflexivity|].
  destruct (Hz eq_refl) as [Hp Hzip].
  split_and!; [reflexivity|reflexivity|reflexivity|exact Hp|exact Hzip
              |exact Hd|exact Hun|exact Hno].
Defined.

Lemma backupSessions_stream_error_leaves_sessions_closed_witness :
  let w' := complete ex_env_stream (backupSessions ex_env_stream) ex_world in
  pending ex_world = [] /\ fails ex_env_stream IoStream = true /\
  EvStreamError ∈ since ex_world w' /\
  (EvStartAllSessions ∉ since ex_world w') /\
  (exists err, promise w' = Rejected err) /\
  clientsArray w' !! "alice" = None.
Proof.
  intros w'.
  assert (EvStreamError ∈ since ex_world w') as Herr by solve_in.
  destruct (backupSessions_stream_error_leaves_sessions_closed ex_env_stream
              ex_world) as (Hno & _ & _ & Hrej & Hreg); [reflexivity|reflexivity|].
  split_and!; [reflexivity|reflexivity|exact Herr|exact Hno
              |exact (Hrej Herr)|].
  apply Hreg. solve_in.
Defined.

Lemma restoreSessions_failed_extraction_witness :
  let file := ex_zip None in
  let w' := complete ex_env (restoreSessions ex_env file) ex_world in
  is_zip file = true /\ pending ex_world = [] /\
  (EvExtractClose ∉ since ex_world w') /\
  (restoreSessions ex_env file ex_world).1
  = Ok {| success := true; message := None |} /\
  (EvStartAllSessions ∉ since ex_world w') /\
  disk w' !! tokensDir = disk ex_world !! tokensDir.
Proof.
  intros file w'.
  assert (EvExtractClose ∉ since ex_world w') as Hclose.
  { vm_compute. solve_notin. }
  destruct (restoreSessions_failed_extraction ex_env file ex_world)
    as (Hack & _ & Hno & _ & Hdisk & _); [reflexivity|reflexivity|exact Hclose|].
  split_and!; [reflexivity|reflexivity|exact Hclose|exact Hack|exact Hno|].
  apply Hdisk. discriminate.
Defined.

Lemma restoreSessions_restarts_after_copies_witness :
  let file := ex_zip (Some ex_conflict_archive) in
  let w' := complete ex_env (restoreSessions ex_env file) ex_conflict_world in
  is_zip file = true /\ pending ex_conflict_world = [] /\
  EvLog Info "Folder 'tokens' not found." ∈ since ex_conflict_world w' /\
  EvStartAllSessions ∈ since ex_conflict_world w' /\
  exists pre post,
    since ex_conflict_world w' = pre ++ EvStartAllSessions :: post /\
    EvCpSync (userData_copy ex_env).1 (userData_copy ex_env).2 false ∈ pre.
Proof.
  intros file w'.
  assert (EvExtractClose ∈ since ex_conflict_world w') as Hclose by solve_in.
  destruct (restoreSessions_restarts_after_copies ex_env file ex_conflict_world)
    as [Hiff Hord]; [reflexivity|reflexivity|].
  split_and!; [reflexivity|reflexivity|solve_in|apply Hiff; exact Hclose|].
  destruct (Hord Hclose) as (pre & post & Hs & _ & _ & Hbefore).
  exists pre, post. split; [exact Hs|].
  destruct Hbefore as (l1 & l2 & Hpre & _). rewrite Hpre.
  apply elem_of_app. right. apply list_elem_of_here.
Defined.


Lemma restoreSessions_leaves_extraction_directory_witness :
  let file := ex_zip (Some ex_archive) in
  let w' := complete ex_env (restoreSessions ex_env file) ex_world in
  is_zip file = true /\ pending ex_world = [] /\
  EvExtractClose ∈ since ex_world w' /\
  file_in (disk w' !! at_cwd ex_env "restore") ["tokens"; "alice.data.json"]
  = Some ["n"%byte].
Proof.
  intros file w'.
  split_and!; [reflexivity|reflexivity|solve_in|].
  apply (restoreSessions_leaves_extraction_directory ex_env file ex_archive
           ex_world);
    [reflexivity|reflexivity|reflexivity|solve_wf|solve_in|reflexivity].
Defined.

Lemma restoreSessions_keeps_token_files_witness :
  let file := ex_zip (Some ex_archive) in
  let w' := complete ex_env (restoreSessions ex_env file) ex_world in
  cwd_is_root ex_env = true /\ is_zip file = true /\ pending ex_world = [] /\
  file_in (disk ex_world !! tokensDir) ["keep"; "note"] = Some ["n"%byte] /\
  (file_in (disk w' !! tokensDir) ["keep"; "note"] = Some ["n"%byte] \/
   exists c',
     file_in (disk w' !! at_root "restore") ["tokens"; "keep"; "note"]
     = Some c' /\
     file_in (disk w' !! tokensDir) ["keep"; "note"] = Some c').
Proof.
  intros file w'.
  split_and!; [reflexivity|reflexivity|reflexivity|reflexivity|].
  apply (restoreSessions_keeps_token_files ex_env eq_refl file ex_world);
    [reflexivity|reflexivity|apply ex_world_wf|apply ex_archive_wf|reflexivity].
Defined.



Lemma restoreSessions_closes_before_extracting_witness :
  let file := ex_zip (Some ex_archive) in
  let w' := complete ex_env (restoreSessions ex_env file) ex_world in
  is_zip file = true /\ pending ex_world = [] /\
  exists pre post,
    since ex_world w' = pre ++ EvExtract :: post /\
    EvClose "alice" ∈ pre /\ (EvClose "alice" ∉ post).
Proof.
  intros file w'.
  destruct (restoreSessions_closes_before_extracting ex_env file ex_world)
    as (pre & post & Hs & Hpre & _ & _ & Hpost); [reflexivity|reflexivity|].
  split_and!; [reflexivity|reflexivity|].
  exists pre, post. split_and!; [exact Hs| |apply Hpost].
  assert (EvClose "alice" ∈ since ex_world w') as Hin by solve_in.
  unfold w' in Hin. rewrite Hs in Hin. apply elem_of_app in Hin as [Hin|Hin]; [exact Hin|].
  apply elem_of_cons in Hin as [Hin|Hin]; [discriminate Hin|].
  destruct (Hpost "alice" Hin).
Defined.





Lemma closeAllSessions_closes_sessions_with_status_witness :
  let w := {| clientsArray := <["alice" := ex_alice]> (<["bob" := ex_carol]> ∅);
              disk := ex_disk; zipFile := None; response := None;
              promise := Pending; pending := []; trace := [] |} in
  let w' := exec (closeAllSessions ex_env) w in
  EvClose "alice" ∈ since w w' /\ (EvClose "bob" ∉ since w w') /\
  EvLog Error "Error stopping session: bob" ∈ since w w'.
Proof.
  intros w w'. split_and!; [| |solve_in].
  - apply (closeAllSessions_closes_sessions_with_status ex_env w "alice").
    split_and!; [solve_in|reflexivity|discriminate].
  - intros Hin.
    apply (closeAllSessions_closes_sessions_with_status ex_env w "bob") in Hin
      as (_ & _ & Hbrowser).
    by apply Hbrowser.
Defined.

Lemma deleteAllSessions_without_stores_witness :
  disk ex_fresh !! userDataDir ex_env = None /\
  disk ex_fresh !! tokensDir = None /\
  (deleteAllSessions ex_env ex_fresh).1 = Ok purge_ack /\
  disk (exec (deleteAllSessions ex_env) ex_fresh) = disk ex_fresh.
Proof.
  destruct (deleteAllSessions_without_stores ex_env ex_fresh)
    as (Hack & Hdisk & _); [reflexivity|reflexivity|].
  split_and!; [reflexivity|reflexivity|exact Hack|exact Hdisk].
Defined.

Lemma closeAllSessions_keeps_other_sessions_witness :
  let w' := exec (closeAllSessions ex_env) ex_late_world in
  pending ex_late_world = [] /\
  ("carol" ∉ getAllTokens ex_env (disk ex_late_world)) /\
  clientsArray w' !! "carol" = Some ex_alice /\
  (EvClose "carol" ∉ since ex_late_world w').
Proof.
  intros w'.
  assert ("carol" ∉ getAllTokens ex_env (disk ex_late_world)) as Hno.
  { vm_compute. solve_notin. }
  destruct (closeAllSessions_keeps_other_sessions ex_env ex_late_world "carol")
    as [Hkept Hclose]; [reflexivity|exact Hno|].
  split_and!; [reflexivity|exact Hno| |exact Hclose].
  unfold w'. rewrite Hkept. reflexivity.
Defined.

Lemma closeAllSessions_does_not_await_close_witness :
  let w' := exec (closeAllSessions ex_env) ex_late_world in
  let err := EvLog Error "Error stopping session: alice" in
  pending ex_late_world = [] /\
  clientsArray ex_late_world !! "alice" = Some ex_late /\
  (err ∉ since ex_late_world w') /\
  CloseSettled "alice" false Late ∈ pending w' /\
  err ∈ since ex_late_world (complete ex_env (closeAllSessions ex_env)
                               ex_late_world).
Proof.
  intros w' err.
  destruct (closeAllSessions_does_not_await_close ex_env ex_late_world
              "alice" ex_late)
    as (Hnot & Hq & Hlater);
    [reflexivity|solve_in|reflexivity|reflexivity|reflexivity|].
  split_and!; [reflexivity|reflexivity|exact Hnot|exact Hq|exact Hlater].
Defined.

End MoreWitnesses.
